(** * Bato image-host fixer (src/fixer.js)

    A shallow embedding of the userscript's resolver: the address parser
    [parseSubdomain], the candidate generator [generateCandidates], the
    prober [probeUrl], the orchestrator [fixImage] and the fast path
    [preemptiveFix], with the properties the design document states about
    them.

    Conventions.
    - A JavaScript string is a [list ascii]; literals are written as Rocq
      strings and coerced.  Image addresses are serialised URLs, which are
      ASCII; the two line terminators outside ASCII (U+2028, U+2029) that
      the regex dot also refuses have no counterpart here.
    - [serverCache] (a Map) is a [gmap], [failedCache] (a Set) and
      [processingImages] (a WeakSet of elements) are [gset]s; an element
      is named by an [ImgId].
    - src/fixer.js holds several revisions of the script.  [Strict] is
      the revision of lines 1-364 (repeated, with doc comments, in lines
      365-783), [Smart] the revision of lines 1121-1512.  What they share
      is written once, with the constants in which they differ as
      arguments.  [Background] is the revision of lines 783-1120, which
      swaps at once and probes in the background; it has its own element
      record and its own functions. *)

From Stdlib Require Import Ascii String DecimalString DecimalNat DecimalFacts ZArith Lia.
From stdpp Require Import gmap strings list sorting.

#[local] Set Warnings "-clear-no-such-hyp,-abstract-large-number".

Abbreviation str := (list ascii).
Coercion list_ascii_of_string : string >-> list.

(** ** JavaScript string primitives *)

Definition code (c : ascii) : nat := nat_of_ascii c.

Definition is_digit (c : ascii) : bool := (48 <=? code c) && (code c <=? 57).
Definition is_lower (c : ascii) : bool := (97 <=? code c) && (code c <=? 122).
Definition is_upper (c : ascii) : bool := (65 <=? code c) && (code c <=? 90).

(** [[a-z]] under the [i] flag. *)
Definition is_letter (c : ascii) : bool := is_lower c || is_upper c.

(** [[a-z0-9\-]] under the [i] flag. *)
Definition is_root_char (c : ascii) : bool :=
  is_letter c || is_digit c || (code c =? 45).

(** The regex dot matches everything but a line terminator. *)
Definition is_line_terminator (c : ascii) : bool :=
  (code c =? 10) || (code c =? 13).
Definition is_dot_char (c : ascii) : bool := negb (is_line_terminator c).

Definition lower_char (c : ascii) : ascii :=
  if is_upper c then ascii_of_nat (code c + 32) else c.

(** [s.toLowerCase()] *)
Definition toLowerCase (s : str) : str := map lower_char s.

Definition str_eqb (a b : str) : bool := bool_decide (a = b).

(** [s.split(sep)] for a one-character separator. *)
Fixpoint split (sep : ascii) (s : str) : list str :=
  match s with
  | [] => [[]]
  | c :: r =>
      if bool_decide (c = sep) then [] :: split sep r
      else match split sep r with
           | w :: ws => (c :: w) :: ws
           | [] => [[c]]
           end
  end.

(** [parts.join(sep)] *)
Fixpoint join (sep : str) (parts : list str) : str :=
  match parts with
  | [] => []
  | [w] => w
  | w :: ws => w ++ sep ++ join sep ws
  end.

(** [parts.slice(0, n)] *)
Definition slice0 {A} (n : nat) (l : list A) : list A := take n l.

(** [s.split('/').slice(0, 3).join('/')]: scheme and host of a URL, the
    first two segments of a path. *)
Definition first3 (s : str) : str := join "/" (slice0 3 (split "/" s)).

(** [String(n)] for a non-negative integer. *)
Definition String_of (n : nat) : str := NilEmpty.string_of_uint (Nat.to_uint n).

(** [s.padStart(n, '0')] *)
Definition padStart0 (n : nat) (s : str) : str := replicate (n - length s) "0"%char ++ s.

Definition digit_val (c : ascii) : nat := code c - 48.

(** [parseInt(s, 10)] on a string of decimal digits (the only use the
    script makes of it): the digits read so far times ten plus the next. *)
Definition parseInt10 (s : str) : nat :=
  fold_left (fun acc c => 10 * acc + digit_val c) s 0.

(** ** The address pattern

    [SUBDOMAIN_RE] (line 12), case-insensitive and anchored at both
    ends: [https?:\/\/], group 1 [[a-z]+], group 2 [\d{1,3}], a dot, group 3
    [[a-z0-9\-]+], a dot, group 4 [org|net|to], group 5 a slash and then
    any characters but line terminators. *)

(** The longest prefix of [s] made of characters in the class [p], and
    what follows it: a greedy [[...]*]. *)
Fixpoint span (p : ascii -> bool) (s : str) : str * str :=
  match s with
  | c :: r => if p c then let '(a, b) := span p r in (c :: a, b) else ([], s)
  | [] => ([], [])
  end.

(** A literal matched case-insensitively; [lit] is given in lower case.
    Returns what follows the match. *)
Fixpoint strip_ci (lit s : str) : option str :=
  match lit, s with
  | [], _ => Some s
  | l :: lit', c :: s' =>
      if bool_decide (lower_char c = l) then strip_ci lit' s' else None
  | _ :: _, [] => None
  end.

(** An alternation of literals, tried left to right: the text matched and
    what follows it. *)
Fixpoint strip_alt (alts : list str) (s : str) : option (str * str) :=
  match alts with
  | [] => None
  | a :: alts' =>
      match strip_ci a s with
      | Some r => Some (take (length a) s, r)
      | None => strip_alt alts' s
      end
  end.

Definition TLDS : list str := ["org" : str; "net" : str; "to" : str].

(** Capture groups 1 to 5 of a match. *)
Record Groups := mkGroups { m1 : str; m2 : str; m3 : str; m4 : str; m5 : str }.

(** The scheme and host part of the pattern, with [\d{lo,hi}] for the
    index: groups 1 to 4 and what follows the match.  Each class is
    followed by a character outside it (letters by a digit, digits and the
    root by a dot), so the greedy scan below is what backtracking finds:
    giving back a character never lets the rest match. *)
Definition re_host (lo hi : nat) (s : str) : option (str * str * str * str * str) :=
  s1 ← strip_ci "http" s;
  let s2 := default s1 (strip_ci "s" s1) in
  s3 ← strip_ci "://" s2;
  let '(g1, s4) := span is_letter s3 in
  if bool_decide (g1 = []) then None else
  let '(g2, s5) := span is_digit s4 in
  if negb ((lo <=? length g2) && (length g2 <=? hi)) then None else
  s6 ← strip_ci "." s5;
  let '(g3, s7) := span is_root_char s6 in
  if bool_decide (g3 = []) then None else
  s8 ← strip_ci "." s7;
  '(g4, s9) ← strip_alt TLDS s8;
  Some (g1, g2, g3, g4, s9).

(** The whole pattern: the host part, then a slash and dot-characters up
    to the end of the input. *)
Definition re_exec (lo hi : nat) (s : str) : option Groups :=
  '(g1, g2, g3, g4, s9) ← re_host lo hi s;
  match s9 with
  | "/"%char :: rest =>
      if forallb is_dot_char rest then Some (mkGroups g1 g2 g3 g4 s9) else None
  | _ => None
  end.

(** [src.match(SUBDOMAIN_RE)] *)
Definition SUBDOMAIN_RE : str -> option Groups := re_exec 1 3.

Record Address := mkAddress {
  prefix : str;
  number : nat;
  root : str;
  tld : str;
  path : str
}.

Global Instance Address_eq_dec : EqDecision Address.
Proof. solve_decision. Defined.

(** The object literal of lines 22-28. *)
Definition address_of (m : Groups) : Address :=
  {| prefix := toLowerCase (m1 m);
     number := parseInt10 (m2 m);
     root := toLowerCase (m3 m);
     tld := toLowerCase (m4 m);
     path := m5 m |}.

Definition parseSubdomain (src : str) : option Address :=
  match SUBDOMAIN_RE src with
  | None => None
  | Some m => Some (address_of m)
  end.

(** The template literal shared by [add], [rewriteSrcset] and
    [preemptiveFix]:
    [`https://${p}${String(n).padStart(2, '0')}.${r}.${t}`]. *)
Definition render_base (p : str) (n : nat) (r t : str) : str :=
  "https://" ++ p ++ padStart0 2 (String_of n) ++ "." ++ r ++ "." ++ t.

Definition render_url (p : str) (n : nat) (r t pth : str) : str :=
  render_base p n r t ++ pth.

Definition render (a : Address) : str :=
  render_url (prefix a) (number a) (root a) (tld a) (path a).

(** The pattern in words, as the design document gives it:
    [scheme://<letters><lo-hi digit index>.<root>.<suffix><path>], without
    regard to case.  [re_shape 1 3] is the language of [SUBDOMAIN_RE]. *)
Record re_shape (lo hi : nat) (s : str) (g : Groups) : Prop := mk_re_shape {
  shape_split : exists scheme : str,
    (toLowerCase scheme = "http" \/ toLowerCase scheme = "https") /\
    s = scheme ++ "://" ++ m1 g ++ m2 g ++ "." ++ m3 g ++ "." ++ m4 g ++ m5 g;
  shape_prefix : m1 g <> [] /\ forallb is_letter (m1 g) = true;
  shape_index : lo <= length (m2 g) <= hi /\ forallb is_digit (m2 g) = true;
  shape_root : m3 g <> [] /\ forallb is_root_char (m3 g) = true;
  shape_tld : toLowerCase (m4 g) ∈ TLDS;
  shape_path : exists rest : str,
    m5 g = "/"%char :: rest /\ forallb is_dot_char rest = true
}.

(** ** Candidate generation *)

(** A value of [serverCache]: the object stored by [fixImage]. *)
Record CacheEntry := mkCacheEntry {
  c_prefix : str;
  c_number : nat;
  c_root : str;
  c_tld : str
}.

(** An element of the [candidates] array. *)
Record Candidate := mkCandidate { url : str; priority : nat }.

(** The comparator [(a, b) => a.priority - b.priority]. *)
Definition by_priority (a b : Candidate) : Z :=
  (Z.of_nat (priority a) - Z.of_nat (priority b))%Z.

(** [Array.prototype.sort] with a comparator.  The sort is stable: an
    element goes before the first element it does not compare greater
    than, and elements are inserted from the last to the first. *)
Fixpoint insert_sorted {A} (cmp : A -> A -> Z) (x : A) (l : list A) : list A :=
  match l with
  | [] => [x]
  | y :: l' => if (cmp x y <=? 0)%Z then x :: l else y :: insert_sorted cmp x l'
  end.

Definition array_sort {A} (cmp : A -> A -> Z) (l : list A) : list A :=
  foldr (insert_sorted cmp) [] l.

(** [[...new Set(l)]]: a Set keeps the first insertion of a value, in
    insertion order.  [seen] is what the Set holds so far. *)
Fixpoint set_spread_from (seen : list str) (l : list str) : list str :=
  match l with
  | [] => []
  | x :: r =>
      if bool_decide (x ∈ seen) then set_spread_from seen r
      else x :: set_spread_from (x :: seen) r
  end.

Definition set_spread (l : list str) : list str := set_spread_from [] l.

(** The tail of [generateCandidates]: sort by priority, keep the URLs,
    deduplicate, truncate. *)
Definition finish_candidates (max_attempts : nat) (candidates : list Candidate) : list str :=
  let sorted := url <$> array_sort by_priority candidates in
  slice0 max_attempts (set_spread sorted).

(** [`${parsed.root}-${pathKey}`] with
    [pathKey = parsed.path.split('/').slice(0, 3).join('/')]. *)
Definition group_key (parsed : Address) : str :=
  root parsed ++ "-" ++ first3 (path parsed).

(** [for (let i = from; i <= to; i++) body(i)] over the array being built. *)
Definition for_range {T} (from to : nat) (body : nat -> T -> T) (s : T) : T :=
  fold_left (fun acc i => body i acc) (seq from (S to - from)) s.

(** [list.forEach(body)] over the array being built. *)
Definition forEach {A T} (l : list A) (body : A -> T -> T) (s : T) : T :=
  fold_left (fun acc x => body x acc) l s.

(** ** The page: image elements and the script's global state *)

Definition ImgId := nat.

(** What the script reads and writes of an [HTMLImageElement].  A key of
    [dataset] that was never set reads [undefined]: [None]. *)
Record Img := mkImg {
  src : str;
  srcset : str;
  referrerPolicy : str;
  complete : bool;
  naturalWidth : nat;
  batoFixing : option str;
  batoFixed : option str;
  batoPreemptive : option str;
  originalSrc : option str;
  originalSrcset : option str
}.

Definition set_src (v : str) (i : Img) : Img :=
  mkImg v (srcset i) (referrerPolicy i) (complete i) (naturalWidth i) (batoFixing i)
        (batoFixed i) (batoPreemptive i) (originalSrc i) (originalSrcset i).
Definition set_srcset (v : str) (i : Img) : Img :=
  mkImg (src i) v (referrerPolicy i) (complete i) (naturalWidth i) (batoFixing i)
        (batoFixed i) (batoPreemptive i) (originalSrc i) (originalSrcset i).
Definition set_referrerPolicy (v : str) (i : Img) : Img :=
  mkImg (src i) (srcset i) v (complete i) (naturalWidth i) (batoFixing i)
        (batoFixed i) (batoPreemptive i) (originalSrc i) (originalSrcset i).
Definition set_batoFixing (v : str) (i : Img) : Img :=
  mkImg (src i) (srcset i) (referrerPolicy i) (complete i) (naturalWidth i) (Some v)
        (batoFixed i) (batoPreemptive i) (originalSrc i) (originalSrcset i).
Definition set_batoFixed (v : str) (i : Img) : Img :=
  mkImg (src i) (srcset i) (referrerPolicy i) (complete i) (naturalWidth i) (batoFixing i)
        (Some v) (batoPreemptive i) (originalSrc i) (originalSrcset i).
Definition set_batoPreemptive (v : str) (i : Img) : Img :=
  mkImg (src i) (srcset i) (referrerPolicy i) (complete i) (naturalWidth i) (batoFixing i)
        (batoFixed i) (Some v) (originalSrc i) (originalSrcset i).
Definition set_originalSrc (v : str) (i : Img) : Img :=
  mkImg (src i) (srcset i) (referrerPolicy i) (complete i) (naturalWidth i) (batoFixing i)
        (batoFixed i) (batoPreemptive i) (Some v) (originalSrcset i).
Definition set_originalSrcset (v : str) (i : Img) : Img :=
  mkImg (src i) (srcset i) (referrerPolicy i) (complete i) (naturalWidth i) (batoFixing i)
        (batoFixed i) (batoPreemptive i) (originalSrc i) (Some v).

(** [x === "lit"] for a [dataset] value. *)
Definition is_str (x : option str) (lit : str) : bool := bool_decide (x = Some lit).

(** A string is truthy when it is not empty. *)
Definition truthy (s : str) : bool := negb (str_eqb s []).

(** The script's module-level state, the retry callbacks it has handed to
    [setTimeout], and the image loads its probes have started. *)
Record World := mkWorld {
  serverCache : gmap str CacheEntry;
  failedCache : gset str;
  processingImages : gset ImgId;
  timers : list ImgId;
  net : list str
}.

Definition set_serverCache (v : gmap str CacheEntry) (w : World) : World :=
  mkWorld v (failedCache w) (processingImages w) (timers w) (net w).
Definition set_failedCache (v : gset str) (w : World) : World :=
  mkWorld (serverCache w) v (processingImages w) (timers w) (net w).
Definition set_processingImages (v : gset ImgId) (w : World) : World :=
  mkWorld (serverCache w) (failedCache w) v (timers w) (net w).
Definition set_timers (v : list ImgId) (w : World) : World :=
  mkWorld (serverCache w) (failedCache w) (processingImages w) v (net w).
Definition set_net (v : list str) (w : World) : World :=
  mkWorld (serverCache w) (failedCache w) (processingImages w) (timers w) v.

Definition initial_world : World := mkWorld ∅ ∅ ∅ [] [].

(** ** probeUrl *)

(** What a probe rejects with: ['cached-fail'], ['timeout'], ['empty'],
    ['error']. *)
Inductive Reason := r_cached_fail | r_timeout | r_empty | r_error.

Global Instance Reason_eq_dec : EqDecision Reason.
Proof. solve_decision. Defined.

Inductive Settled := Resolved | Rejected (e : Reason).

(** What the browser delivers to a probe: its timer runs out, its image
    loads with some dimensions, or its image fails to load. *)
Inductive ProbeEvent := TimerFired | Loaded (width height : nat) | Errored.

Global Instance ProbeEvent_eq_dec : EqDecision ProbeEvent.
Proof. solve_decision. Defined.

(** A probe under way: the closure of the promise executor. *)
Record Probe := mkProbe {
  p_url : str;
  p_cacheKey : str;
  p_timeout : nat;
  timedOut : bool;
  timerCleared : bool
}.

(** The executor of [probeUrl(url, timeout)] up to [img.src = url]: either
    the promise is rejected at once, or an image load is started. *)
Definition probeUrl (purl : str) (timeout : nat) (w : World) : World * (Settled + Probe) :=
  let cacheKey := first3 purl in
  if bool_decide (cacheKey ∈ failedCache w) then (w, inl (Rejected r_cached_fail))
  else (set_net (net w ++ [purl]) w, inr (mkProbe purl cacheKey timeout false false)).

(** The timer callback and the [onload] and [onerror] handlers.  A cleared
    timer does not run.  The result says how the promise is settled, if the
    handler settles it. *)
Definition probe_event (ev : ProbeEvent) (p : Probe) (w : World)
    : Probe * World * option Settled :=
  let mark := set_failedCache ({[p_cacheKey p]} ∪ failedCache w) w in
  match ev with
  | TimerFired =>
      if timerCleared p then (p, w, None)
      else (mkProbe (p_url p) (p_cacheKey p) (p_timeout p) true true,
            mark, Some (Rejected r_timeout))
  | Loaded width height =>
      if timedOut p then (p, w, None)
      else
        let p := mkProbe (p_url p) (p_cacheKey p) (p_timeout p) false true in
        if (1 <? width) || (1 <? height) then (p, w, Some Resolved)
        else (p, mark, Some (Rejected r_empty))
  | Errored =>
      if timedOut p then (p, w, None)
      else (mkProbe (p_url p) (p_cacheKey p) (p_timeout p) false true,
            mark, Some (Rejected r_error))
  end.

(** ** rewriteSrcset *)

(** [srcset.replace(/https?:\/\/[a-z]+\d{1,3}\.[a-z0-9\-]+\.(org|net|to)/gi, newBase)]:
    every match, scanning from the left, is replaced.  A match is not
    empty, so the length of the string is fuel enough. *)
Fixpoint replace_hosts (fuel : nat) (newBase s : str) : str :=
  match fuel, s with
  | 0, _ => s
  | _, [] => []
  | S fuel', c :: r =>
      match re_host 1 3 s with
      | Some (_, rest) => newBase ++ replace_hosts fuel' newBase rest
      | None => c :: replace_hosts fuel' newBase r
      end
  end.

Definition rewriteSrcset (srcset workingUrl : str) : option str :=
  if negb (truthy srcset) then None else
  match parseSubdomain workingUrl with
  | None => None
  | Some workingParsed =>
      let newBase := render_base (prefix workingParsed) (number workingParsed)
                       (root workingParsed) (tld workingParsed) in
      Some (replace_hosts (length srcset) newBase srcset)
  end.

(** [if (img.srcset) { const newSrcset = rewriteSrcset(img.srcset, url);
    if (newSrcset) img.srcset = newSrcset; }] *)
Definition apply_srcset (purl : str) (img : Img) : Img :=
  if truthy (srcset img) then
    match rewriteSrcset (srcset img) purl with
    | Some newSrcset => if truthy newSrcset then set_srcset newSrcset img else img
    | None => img
    end
  else img.

(** ** fixImage *)

(** How the loop of [fixImage] ended: all candidates seen, or [break] at
    index [i]. *)
Inductive LoopEnd := Exhausted | Broke (i : nat).

(** How a call of [fixImage] returned: at the entry guard, at the parse
    failure, after a success, or through the failure handling, with how the
    loop ended and the value of [lastError] then. *)
Inductive Exit :=
  | ExitGuard
  | ExitNoParse
  | ExitSuccess (u : str)
  | ExitUnresolved (how : LoopEnd) (lastError : option Reason).

(** A call of [fixImage] suspended at [await probeUrl(...)]: its
    arguments and local variables, and the probe it waits for. *)
Record Task := mkTask {
  t_img : ImgId;
  t_isRetry : bool;
  t_parsed : Address;
  t_candidates : list str;
  t_i : nat;
  t_lastError : option Reason;
  t_probe : Probe
}.

Inductive Step := Return (e : Exit) | Await (t : Task).

Section Resolver.

(** What the revisions of the script differ in: the candidate
    generator, the deadline of the probe of candidate [i], and the index
    beyond which a timeout ends the pass ([i > 6], [i > 10]). *)
Variable generateCandidates : gmap str CacheEntry -> Address -> list str.
Variable probe_timeout : nat -> nat.
Variable abort_after : nat.

(** The failure handling after the loop (lines 202-215). *)
Definition fail_pass (id : ImgId) (isRetry : bool) (how : LoopEnd)
    (lastError : option Reason) (img : Img) (w : World) : Img * World * Step :=
  if negb isRetry && bool_decide (lastError = Some r_timeout) then
    (set_batoFixing "retry" img,
     set_timers (timers w ++ [id]) (set_processingImages (processingImages w ∖ {[id]}) w),
     Return (ExitUnresolved how lastError))
  else
    (set_batoFixing "failed" img,
     set_processingImages (processingImages w ∖ {[id]}) w,
     Return (ExitUnresolved how lastError)).

(** The [catch] block: record the error, and stop the loop on a timeout
    beyond the threshold. [None]: go on with the next candidate. *)
Definition catch_error (i : nat) (e : Reason) : option LoopEnd :=
  if bool_decide (e = r_timeout) && (abort_after <? i) then Some (Broke i) else None.

(** The [try] block after a probe that succeeded (lines 167-192). *)
Definition succeed (id : ImgId) (parsed : Address) (u : str) (img : Img) (w : World)
    : Img * World * Step :=
  let w :=
    match parseSubdomain u with
    | Some successParsed =>
        set_serverCache
          (<[group_key parsed :=
               mkCacheEntry (prefix successParsed) (number successParsed)
                            (root successParsed) (tld successParsed)]> (serverCache w)) w
    | None => w
    end in
  let img := set_src u (set_referrerPolicy "no-referrer" img) in
  let img := apply_srcset u img in
  let img := set_batoFixed "true" (set_batoFixing "done" img) in
  (img, set_processingImages (processingImages w ∖ {[id]}) w, Return (ExitSuccess u)).

(** The [for] loop from index [i] on, [rest] being the candidates from
    [i] on, up to the next [await] that suspends or to the end of the
    call. *)
Fixpoint fix_loop (id : ImgId) (isRetry : bool) (parsed : Address)
    (candidates rest : list str) (i : nat) (lastError : option Reason)
    (img : Img) (w : World) : Img * World * Step :=
  match rest with
  | [] => fail_pass id isRetry Exhausted lastError img w
  | u :: rest' =>
      let serverPattern := first3 u in
      if bool_decide (serverPattern ∈ failedCache w)
      then fix_loop id isRetry parsed candidates rest' (S i) lastError img w
      else
        match probeUrl u (probe_timeout i) w with
        | (w, inr probe) =>
            (img, w, Await (mkTask id isRetry parsed candidates i lastError probe))
        | (w, inl (Rejected e)) =>
            match catch_error i e with
            | Some how => fail_pass id isRetry how (Some e) img w
            | None => fix_loop id isRetry parsed candidates rest' (S i) (Some e) img w
            end
        | (w, inl Resolved) => succeed id parsed u img w
        end
  end.

(** [fixImage(img, isRetry)] from its entry to its first suspension or
    its end. *)
Definition fixImage (id : ImgId) (isRetry : bool) (img : Img) (w : World)
    : Img * World * Step :=
  if bool_decide (id ∈ processingImages w) then (img, w, Return ExitGuard) else
  if is_str (batoFixing img) "done" || (is_str (batoFixing img) "true" && negb isRetry)
  then (img, w, Return ExitGuard) else
  let w := set_processingImages ({[id]} ∪ processingImages w) w in
  let img := set_batoFixing "true" img in
  match parseSubdomain (src img) with
  | None => (img, set_processingImages (processingImages w ∖ {[id]}) w, Return ExitNoParse)
  | Some parsed =>
      let candidates := generateCandidates (serverCache w) parsed in
      fix_loop id isRetry parsed candidates candidates 0 None img w
  end.

(** A suspended call goes on when its promise is settled. *)
Definition resume (t : Task) (s : Settled) (img : Img) (w : World) : Img * World * Step :=
  match s with
  | Resolved => succeed (t_img t) (t_parsed t) (p_url (t_probe t)) img w
  | Rejected e =>
      match catch_error (t_i t) e with
      | Some how => fail_pass (t_img t) (t_isRetry t) how (Some e) img w
      | None =>
          fix_loop (t_img t) (t_isRetry t) (t_parsed t) (t_candidates t)
            (drop (S (t_i t)) (t_candidates t)) (S (t_i t)) (Some e) img w
      end
  end.

(** An event of the probe a call waits for: the handler runs, and if
    it settles the promise the call goes on. *)
Definition deliver (ev : ProbeEvent) (t : Task) (img : Img) (w : World)
    : Img * World * Step :=
  match probe_event ev (t_probe t) w with
  | (p, w, Some s) => resume t s img w
  | (p, w, None) =>
      (img, w, Await (mkTask (t_img t) (t_isRetry t) (t_parsed t) (t_candidates t)
                             (t_i t) (t_lastError t) p))
  end.

(** The retry callback (lines 207-211). *)
Definition retry_callback (id : ImgId) (img : Img) (w : World) : Img * World * Step :=
  if complete img && (naturalWidth img =? 0) then fixImage id true img w
  else (img, w, Return ExitGuard).

(** *** The page as a transition system

    The script runs on one thread: a call of [fixImage] runs until it
    awaits a probe, and goes on when the probe's promise is settled.
    [tasks] are the suspended calls. *)
Record Sys := mkSys { world : World; imgs : gmap ImgId Img; tasks : list Task }.

Inductive Event :=
  | Call (id : ImgId) (isRetry : bool)     (* some caller runs [fixImage(img, isRetry)] *)
  | Deliver (id : ImgId) (ev : ProbeEvent) (* an event of the probe awaited for [img] *)
  | Fire (k : nat)                         (* the [k]-th pending retry callback runs *)
  | Dom (id : ImgId) (f : Img -> Img).     (* the page or another script changes [img] *)

Definition commit (id : ImgId) (r : Img * World * Step) (s : Sys) (others : list Task) : Sys :=
  let '(img, w, st) := r in
  mkSys w (<[id := img]> (imgs s))
        (match st with Await t => others ++ [t] | Return _ => others end).

Definition sys_step (e : Event) (s : Sys) : Sys :=
  match e with
  | Call id isRetry =>
      match imgs s !! id with
      | Some img => commit id (fixImage id isRetry img (world s)) s (tasks s)
      | None => s
      end
  | Deliver id ev =>
      match list_find (fun t => t_img t = id) (tasks s), imgs s !! id with
      | Some (k, t), Some img => commit id (deliver ev t img (world s)) s (delete k (tasks s))
      | _, _ => s
      end
  | Fire k =>
      match timers (world s) !! k with
      | Some id =>
          let w := set_timers (delete k (timers (world s))) (world s) in
          match imgs s !! id with
          | Some img => commit id (retry_callback id img w) (mkSys w (imgs s) (tasks s)) (tasks s)
          | None => mkSys w (imgs s) (tasks s)
          end
      | None => s
      end
  | Dom id f => mkSys (world s) (alter f id (imgs s)) (tasks s)
  end.

(** The page after a sequence of events, from a state where the script
    has just been loaded: nothing cached, nothing in flight. *)
Definition sys_run (events : list Event) (dom : gmap ImgId Img) : Sys :=
  foldl (fun s e => sys_step e s) (mkSys initial_world dom []) events.

(** One call followed to its end against the events of its probes, with
    nothing else happening in between. *)
Fixpoint run (evs : list ProbeEvent) (st : Img * World * Step) : Img * World * Step :=
  match evs, st with
  | ev :: evs', (img, w, Await t) => run evs' (deliver ev t img w)
  | _, _ => st
  end.


(** Lines 248-259: keep the original address, set the new one, rewrite
    [srcset], mark the element. *)
Definition apply_swap (newUrl : str) (img : Img) : Img :=
  let img := set_originalSrc (src img) img in
  let img := set_src newUrl (set_referrerPolicy "no-referrer" img) in
  let img :=
    if truthy (srcset img)
    then apply_srcset newUrl (set_originalSrcset (srcset img) img)
    else img in
  set_batoPreemptive "true" img.

(** [preemptiveFix(img)]; [strict_guard] says whether the revision has
    the guard of line 244. *)
Definition preemptiveFix (strict_guard : bool) (img : Img) (w : World) : Img * bool :=
  match parseSubdomain (src img) with
  | None => (img, false)
  | Some parsed =>
      if negb (str_eqb (prefix parsed) "k") then (img, false) else
      let '(newPrefix, newNumber, newRoot, newTld) :=
        match serverCache w !! group_key parsed with
        | Some cached => (c_prefix cached, c_number cached, c_root cached, c_tld cached)
        | None => ("n" : str, number parsed, root parsed, tld parsed)
        end in
      let newPrefix :=
        if strict_guard && negb (str_eqb newPrefix "k") && negb (str_eqb newPrefix "n")
        then "n" : str else newPrefix in
      let newUrl := render_url newPrefix newNumber newRoot newTld (path parsed) in
      (apply_swap newUrl img, true)
  end.

End Resolver.

(** The revision of lines 1-364: candidates on the [k] and [n] hosts only. *)
Module Strict.

Definition MAX_ATTEMPTS : nat := 15.
Definition MAX_SERVER_NUM : nat := 15.

Definition FALLBACK_ROOTS : list str :=
  ["mbdny.org" : str; "mbrtz.org" : str; "bato.to" : str;
   "mbwbm.org" : str; "mbznp.org" : str; "mbqgu.org" : str].

(** The closure [add] of [generateCandidates]; [candidates] is the array
    it pushes to. *)
Definition add (parsed : Address) (p : str) (n : nat) (r t : str) (prio : nat)
    (candidates : list Candidate) : list Candidate :=
  if negb (str_eqb p "k") && negb (str_eqb p "n") then candidates
  else candidates ++ [mkCandidate (render_url p n r t (path parsed)) prio].

(** The array [candidates] when the four blocks have run. *)
Definition candidates (serverCache : gmap str CacheEntry) (parsed : Address)
    : list Candidate :=
  let add := add parsed in
  let c := [] in
  (* Priority 0: success cache *)
  let c :=
    match serverCache !! group_key parsed with
    | Some cached =>
        add (c_prefix cached) (c_number cached) (c_root cached) (c_tld cached) 0 c
    | None => c
    end in
  (* Priority 1: prefix swap *)
  let c :=
    if str_eqb (prefix parsed) "k"
    then add "n" (number parsed) (root parsed) (tld parsed) 1 c
    else add "k" (number parsed) (root parsed) (tld parsed) 1 c in
  (* Priority 2: the other server numbers on [n] *)
  let c :=
    for_range 0 MAX_SERVER_NUM (fun i c =>
      if negb (i =? number parsed) then add "n" i (root parsed) (tld parsed) 2 c
      else c) c in
  (* Priority 3 in the comment, 4 in the call: fallback roots *)
  let c :=
    forEach FALLBACK_ROOTS (fun fallback c =>
      let parts := split "." fallback in
      if (length parts =? 2) && negb (str_eqb (parts !!! 0) (root parsed))
      then add "n" (number parsed) (parts !!! 0) (parts !!! 1) 4 c
      else c) c in
  c.

Definition generateCandidates (serverCache : gmap str CacheEntry) (parsed : Address)
    : list str :=
  finish_candidates MAX_ATTEMPTS (candidates serverCache parsed).

Definition PROBE_TIMEOUT : nat := 3000.

(** [await probeUrl(url, PROBE_TIMEOUT)] and [if (e === 'timeout' && i > 6) break]. *)
Definition fixImage := fixImage generateCandidates (fun _ => PROBE_TIMEOUT) 6.
Definition deliver := deliver (fun _ => PROBE_TIMEOUT) 6.
Definition retry_callback := retry_callback generateCandidates (fun _ => PROBE_TIMEOUT) 6.
Definition sys_step := sys_step generateCandidates (fun _ => PROBE_TIMEOUT) 6.
Definition sys_run := sys_run generateCandidates (fun _ => PROBE_TIMEOUT) 6.
Definition run := run (fun _ => PROBE_TIMEOUT) 6.
Definition preemptiveFix := preemptiveFix true.

End Strict.

(** The revision of lines 1121-1512: every prefix letter, more roots. *)
Module Smart.

Definition MAX_ATTEMPTS : nat := 30.
Definition MAX_SERVER_NUM : nat := 15.

Definition FALLBACK_PREFIXES : list str :=
  ["n" : str; "x" : str; "t" : str; "s" : str; "w" : str; "m" : str;
   "c" : str; "u" : str; "k" : str].

Definition FALLBACK_ROOTS : list str :=
  ["mbdny.org" : str; "mbrtz.org" : str; "bato.to" : str; "mbwbm.org" : str;
   "mbznp.org" : str; "mbqgu.org" : str; "mpfip.org" : str; "mpizz.org" : str;
   "mpmok.org" : str; "mpqom.org" : str; "mpqsc.org" : str; "mprnm.org" : str;
   "mpubn.org" : str; "mpujj.org" : str; "mpvim.org" : str; "mpypl.org" : str].

Definition add (parsed : Address) (p : str) (n : nat) (r t : str) (prio : nat)
    (candidates : list Candidate) : list Candidate :=
  candidates ++ [mkCandidate (render_url p n r t (path parsed)) prio].

Definition candidates (serverCache : gmap str CacheEntry) (parsed : Address)
    : list Candidate :=
  let add := add parsed in
  let c := [] in
  (* Priority 0: success cache *)
  let c :=
    match serverCache !! group_key parsed with
    | Some cached =>
        add (c_prefix cached) (c_number cached) (c_root cached) (c_tld cached) 0 c
    | None => c
    end in
  (* Priority 1: k to n, x, t *)
  let c :=
    if str_eqb (prefix parsed) "k"
    then add "t" (number parsed) (root parsed) (tld parsed) 1
           (add "x" (number parsed) (root parsed) (tld parsed) 1
              (add "n" (number parsed) (root parsed) (tld parsed) 1 c))
    else c in
  (* Priority 2: the other prefixes *)
  let c :=
    forEach FALLBACK_PREFIXES (fun letter c =>
      if negb (str_eqb letter (prefix parsed)) && negb (str_eqb letter "k")
         && negb (str_eqb letter "n")
      then add letter (number parsed) (root parsed) (tld parsed) 2 c
      else c) c in
  (* Priority 3: same prefix, numbers 0 to min(5, MAX_SERVER_NUM) *)
  let c :=
    for_range 0 (Nat.min 5 MAX_SERVER_NUM) (fun i c =>
      if negb (i =? number parsed)
      then add (prefix parsed) i (root parsed) (tld parsed) 3 c
      else c) c in
  (* Priority 4: the other roots *)
  let c :=
    forEach FALLBACK_ROOTS (fun fallback c =>
      let parts := split "." fallback in
      if (length parts =? 2) && negb (str_eqb (parts !!! 0) (root parsed))
      then
        let c := add (prefix parsed) (number parsed) (parts !!! 0) (parts !!! 1) 4 c in
        if str_eqb (prefix parsed) "k"
        then add "n" (number parsed) (parts !!! 0) (parts !!! 1) 4 c
        else c
      else c) c in
  (* Priority 5: numbers 6 to MAX_SERVER_NUM *)
  let c :=
    for_range 6 MAX_SERVER_NUM (fun i c =>
      if negb (i =? number parsed)
      then add (prefix parsed) i (root parsed) (tld parsed) 5 c
      else c) c in
  c.

Definition generateCandidates (serverCache : gmap str CacheEntry) (parsed : Address)
    : list str :=
  finish_candidates MAX_ATTEMPTS (candidates serverCache parsed).

Definition PROBE_TIMEOUT : nat := 5000.

(** [const timeout = PROBE_TIMEOUT + (i > 5 ? 1000 : 0)] *)
Definition probe_timeout (i : nat) : nat := PROBE_TIMEOUT + (if 5 <? i then 1000 else 0).

(** [if (e === 'timeout' && i > 10) break] *)
Definition fixImage := fixImage generateCandidates probe_timeout 10.
Definition deliver := deliver probe_timeout 10.
Definition retry_callback := retry_callback generateCandidates probe_timeout 10.
Definition sys_step := sys_step generateCandidates probe_timeout 10.
Definition sys_run := sys_run generateCandidates probe_timeout 10.
Definition run := run probe_timeout 10.
Definition preemptiveFix := preemptiveFix false.

End Smart.

(** ** Auxiliary notions of the statements *)

(** The index of a rendered address: two or three digits that read back as
    the number, for every number an index of at most three digits can be. *)
Definition index_ok (n : nat) : bool :=
  let d := padStart0 2 (String_of n) in
  (2 <=? length d) && (length d <=? 3) && forallb is_digit d && (parseInt10 d =? n).

(** The groups of a rendered address. *)
Definition canonical_groups (g : Groups) : Groups :=
  mkGroups (toLowerCase (m1 g)) (padStart0 2 (String_of (parseInt10 (m2 g))))
           (toLowerCase (m3 g)) (toLowerCase (m4 g)) (m5 g).

(** The order of the sort. *)
Definition prio_le (a b : Candidate) : Prop := priority a <= priority b.

(** A URL on the [k] or [n] host: rendered with that prefix, so that the
    letters after the scheme, up to the first digit, are [k] or [n]. *)
Definition k_or_n_url (pth u : str) : Prop :=
  exists (p : str) (n : nat) (r t : str) (d : ascii) (rest : str),
    (p = "k" \/ p = "n") /\ u = render_url p n r t pth /\
    is_digit d = true /\ u = "https://" ++ p ++ d :: rest.

(** ** The retry policy

    What a step of a call of [fixImage] for element [id], from world [w],
    may do to the pending retry callbacks: nothing while it goes on or
    when it returns otherwise; when it returns unresolved, after a first
    pass whose last error was a timeout it adds one callback for [id] and
    marks the element ["retry"], and in every other case it adds none and
    marks the element ["failed"]. *)
Definition retry_rule (id : ImgId) (isRetry : bool) (w : World) (r : Img * World * Step)
    : Prop :=
  match r with
  | (img', w', Await t) => timers w' = timers w /\ t_img t = id /\ t_isRetry t = isRetry
  | (img', w', Return (ExitUnresolved how lastError)) =>
      if negb isRetry && bool_decide (lastError = Some r_timeout)
      then timers w' = timers w ++ [id] /\ batoFixing img' = Some ("retry" : str)
      else timers w' = timers w /\ batoFixing img' = Some ("failed" : str)
  | (img', w', Return _) => timers w' = timers w
  end.

(** No two suspended calls are for the same element, and the element of a
    suspended call is in [processingImages]. *)
Definition sys_inv (s : Sys) : Prop :=
  NoDup (t_img <$> tasks s) /\
  forall t, t ∈ tasks s -> t_img t ∈ processingImages (world s).

(** An element of the example, broken and untouched by the script. *)
Definition img0 : Img :=
  mkImg "https://k03.mbdny.org/a/b/c/1.jpg" [] [] true 0 None None None None None.

(** An element whose address is not of the family. *)
Definition img_other : Img :=
  mkImg "https://example.com/a.png" [] [] true 0 None None None None None.

(** ** The worked example of the design document *)

Definition k03_src : str := "https://k03.mbdny.org/a/b/c/1.jpg".
Definition k03 : Address := mkAddress "k" 3 "mbdny" "org" "/a/b/c/1.jpg".

(** [u] is an address of the family that relates to [orig] as [f] says. *)
Definition variant_of (f : Address -> Address -> bool) (orig : Address) (u : str) : bool :=
  match parseSubdomain u with
  | Some a => f orig a && str_eqb (path a) (path orig)
  | None => false
  end.

(** Another prefix letter at the same index on the same domain. *)
Definition other_prefix : Address -> Address -> bool := fun orig a =>
  negb (str_eqb (prefix a) (prefix orig)) && (number a =? number orig)
  && str_eqb (root a) (root orig) && str_eqb (tld a) (tld orig).

(** Another index on the same domain. *)
Definition index_sweep : Address -> Address -> bool := fun orig a =>
  negb (number a =? number orig)
  && str_eqb (root a) (root orig) && str_eqb (tld a) (tld orig).

(** The same index on another root. *)
Definition mirror_root : Address -> Address -> bool := fun orig a =>
  (number a =? number orig) && negb (str_eqb (root a) (root orig)).

(** The order of classes the design document gives for the example: the
    reliable-prefix substitution, then other prefixes, then index sweeps,
    then mirror roots. *)
Definition example_shape (orig : Address) (out : list str) : Prop :=
  exists others sweep mirrors : list str,
    out = render_url "n" (number orig) (root orig) (tld orig) (path orig)
            :: others ++ sweep ++ mirrors /\
    others <> [] /\ sweep <> [] /\ mirrors <> [] /\
    forallb (variant_of other_prefix orig) others = true /\
    forallb (variant_of index_sweep orig) sweep = true /\
    forallb (variant_of mirror_root orig) mirrors = true.

(** The best (numerically smallest) priority under which [u] was pushed,
    if it was pushed at all: the priority class of a candidate URL. *)
Definition priority_class (pushed : list Candidate) (u : str) : option nat :=
  foldr (fun c best =>
           if str_eqb (url c) u
           then Some (from_option (Nat.min (priority c)) (priority c) best)
           else best) None pushed.

(** ** Well-formed address fields

    What the pattern and the lower-casing of [parseSubdomain] make of the
    fields of an Address. *)
Definition is_lower_root_char (c : ascii) : bool := is_root_char c && negb (is_upper c).

Definition wf_fields (p : str) (n : nat) (r t : str) : Prop :=
  p <> [] /\ forallb is_lower p = true /\ n < 1000 /\
  r <> [] /\ forallb is_lower_root_char r = true /\ t ∈ TLDS.

Definition wf_path (pth : str) : Prop :=
  exists rest : str, pth = "/"%char :: rest /\ forallb is_dot_char rest = true.

Definition wf_address (a : Address) : Prop :=
  wf_fields (prefix a) (number a) (root a) (tld a) /\ wf_path (path a).

Definition wf_entry (c : CacheEntry) : Prop :=
  wf_fields (c_prefix c) (c_number c) (c_root c) (c_tld c).


(** A fallback root that splits into a well-formed root and suffix. *)
Definition fallback_ok (fallback : str) : bool :=
  let parts := split "." fallback in
  (length parts =? 2) && negb (str_eqb (parts !!! 0) [])
  && forallb is_lower_root_char (parts !!! 0) && bool_decide (parts !!! 1 ∈ TLDS).

(** A candidate on the [k] or [n] host with well-formed fields and the
    path [pth]. *)
Definition wf_candidate (pth : str) (c : Candidate) : Prop :=
  exists (p : str) (n : nat) (r t : str),
    wf_fields p n r t /\ (p = "k" \/ p = "n") /\ url c = render_url p n r t pth.


(** A call suspended on a probe that has just been started, for the
    candidate at its index. *)
Definition probing (t : Task) : Prop :=
  t_probe t = mkProbe (p_url (t_probe t)) (first3 (p_url (t_probe t)))
                (p_timeout (t_probe t)) false false /\
  t_candidates t !! t_i t = Some (p_url (t_probe t)).

(** What a call followed from its entry has come to, [cands] being its
    candidate list, [n0] the number of image loads started before it and
    [evs] the events its probes got: the probes it started are at most one
    per index seen; a success is the success of a candidate; and
    [lastError] is a timeout only if a timer has run out. *)
Definition pass_state (cands : list str) (n0 : nat) (evs : list ProbeEvent)
    (r : Img * World * Step) : Prop :=
  match r with
  | (img', w', Await t) =>
      probing t /\ t_candidates t = cands /\ length evs <= t_i t /\
      length (net w') <= n0 + t_i t + 1 /\
      (t_lastError t = Some r_timeout -> TimerFired ∈ evs)
  | (img', w', Return (ExitSuccess u)) =>
      u ∈ cands /\ src img' = u /\ batoFixing img' = Some ("done" : str) /\
      length (net w') <= n0 + length cands
  | (img', w', Return (ExitUnresolved how lastError)) =>
      length (net w') <= n0 + length cands /\
      (lastError = Some r_timeout -> TimerFired ∈ evs)
  | (img', w', Return _) => length (net w') = n0
  end.


(** ** checkImage *)

(** The browser's report on an element: [img.complete] and
    [img.naturalWidth]. *)
Definition set_load_state (c : bool) (nw : nat) (i : Img) : Img :=
  mkImg (src i) (srcset i) (referrerPolicy i) c nw (batoFixing i)
        (batoFixed i) (batoPreemptive i) (originalSrc i) (originalSrcset i).

(** [x] is set and truthy. *)
Definition truthy_opt (x : option str) : bool :=
  match x with Some v => truthy v | None => false end.

(** The revert of [checkImage] (lines 267-271). *)
Definition revert_swap (img : Img) : Img :=
  let img :=
    if truthy_opt (originalSrc img) then
      let img := set_src (default [] (originalSrc img)) img in
      if truthy_opt (originalSrcset img)
      then set_srcset (default [] (originalSrcset img)) img
      else img
    else img in
  set_batoPreemptive "failed" img.

(** [checkImage(img)] (lines 264-280), [fixImg] being the [fixImage] of
    the revision; when it calls nothing, the element and the world are as
    they were. *)
Definition checkImage (fixImg : ImgId -> bool -> Img -> World -> Img * World * Step)
    (id : ImgId) (img : Img) (w : World) : Img * World * Step :=
  if is_str (batoPreemptive img) "true" && complete img && (naturalWidth img =? 0)
  then fixImg id false (revert_swap img) w
  else if complete img && (naturalWidth img =? 0) && negb (is_str (batoFixing img) "done")
  then fixImg id false img w
  else (img, w, Return ExitGuard).

(** No place of [s] where the scheme of the host pattern could start. *)
Definition no_http (s : str) : Prop := forall k, strip_ci "http" (drop k s) = None.


(** A candidate with well-formed fields and the path of [parsed], on
    another host than [parsed]. *)
Definition other_candidate (parsed : Address) (c : Candidate) : Prop :=
  exists (p : str) (n : nat) (r t : str),
    wf_fields p n r t /\ url c = render_url p n r t (path parsed) /\
    (p <> prefix parsed \/ n <> number parsed \/ r <> root parsed \/ t <> tld parsed).

(** ** The revision of lines 783-1120: swap at once, probe in the background *)

Module Background.

Definition MAX_ATTEMPTS : nat := 10.
Definition MAX_SERVER_NUM : nat := 15.

Definition FALLBACK_PREFIXES : list str :=
  ["n" : str; "x" : str; "t" : str; "s" : str; "w" : str; "m" : str;
   "c" : str; "u" : str; "k" : str].

Definition FALLBACK_ROOTS : list str :=
  ["mbdny.org" : str; "mbrtz.org" : str; "bato.to" : str;
   "mbwbm.org" : str; "mbznp.org" : str; "mbqgu.org" : str].

(** [generateFixedUrl(parsed)]; [None] is [null]. *)
Definition generateFixedUrl (parsed : Address) : option str :=
  if str_eqb (prefix parsed) "k"
  then Some (render_url "n" (number parsed) (root parsed) (tld parsed) (path parsed))
  else None.

(** The closure [add] of [generateFallbackCandidates]: it pushes whatever
    it is given. *)
Definition add (parsed : Address) (p : str) (n : nat) (r t : str)
    (candidates : list str) : list str :=
  candidates ++ [render_url p n r t (path parsed)].

(** [FALLBACK_PREFIXES.filter(p => p !== 'k' && p !== parsed.prefix)] *)
Definition otherPrefixes (parsed : Address) : list str :=
  List.filter (fun p => negb (str_eqb p "k") && negb (str_eqb p (prefix parsed)))
    FALLBACK_PREFIXES.

(** The array [candidates] when the three blocks have run. *)
Definition candidates (parsed : Address) : list str :=
  let add := add parsed in
  let c := [] in
  let c :=
    forEach (otherPrefixes parsed) (fun letter c =>
      add letter (number parsed) (root parsed) (tld parsed) c) c in
  let c :=
    forEach FALLBACK_ROOTS (fun fallback c =>
      let parts := split "." fallback in
      if (length parts =? 2) && negb (str_eqb (parts !!! 0) (root parsed))
      then add (prefix parsed) (number parsed) (parts !!! 0) (parts !!! 1) c
      else c) c in
  let numAttempts := Nat.min 3 MAX_SERVER_NUM in
  let c :=
    for_range 0 numAttempts (fun i c =>
      if negb (i =? number parsed)
      then add (prefix parsed) i (root parsed) (tld parsed) c
      else c) c in
  c.

Definition generateFallbackCandidates (parsed : Address) : list str :=
  slice0 MAX_ATTEMPTS (set_spread (candidates parsed)).

(** [isProblematicKServer(src)], as the truth value its callers test. *)
Definition isProblematicKServer (s : str) : bool :=
  match parseSubdomain s with
  | Some parsed => str_eqb (prefix parsed) "k"
  | None => false
  end.

(** What this revision reads and writes of an element; [pageImg] is
    [img.classList.contains('page-img') || img.closest('#viewer')]. *)
Record Elem := mkElem {
  src : str;
  srcset : str;
  referrerPolicy : str;
  complete : bool;
  naturalWidth : nat;
  pageImg : bool;
  batoProcessed : option str;
  batoPreemptiveFix : option str;
  batoBackgroundProbing : option str
}.

Definition set_src (v : str) (e : Elem) : Elem :=
  mkElem v (srcset e) (referrerPolicy e) (complete e) (naturalWidth e) (pageImg e)
         (batoProcessed e) (batoPreemptiveFix e) (batoBackgroundProbing e).
Definition set_srcset (v : str) (e : Elem) : Elem :=
  mkElem (src e) v (referrerPolicy e) (complete e) (naturalWidth e) (pageImg e)
         (batoProcessed e) (batoPreemptiveFix e) (batoBackgroundProbing e).
Definition set_referrerPolicy (v : str) (e : Elem) : Elem :=
  mkElem (src e) (srcset e) v (complete e) (naturalWidth e) (pageImg e)
         (batoProcessed e) (batoPreemptiveFix e) (batoBackgroundProbing e).
Definition set_batoProcessed (v : str) (e : Elem) : Elem :=
  mkElem (src e) (srcset e) (referrerPolicy e) (complete e) (naturalWidth e) (pageImg e)
         (Some v) (batoPreemptiveFix e) (batoBackgroundProbing e).
Definition set_batoPreemptiveFix (v : str) (e : Elem) : Elem :=
  mkElem (src e) (srcset e) (referrerPolicy e) (complete e) (naturalWidth e) (pageImg e)
         (batoProcessed e) (Some v) (batoBackgroundProbing e).
Definition set_batoBackgroundProbing (v : str) (e : Elem) : Elem :=
  mkElem (src e) (srcset e) (referrerPolicy e) (complete e) (naturalWidth e) (pageImg e)
         (batoProcessed e) (batoPreemptiveFix e) (Some v).

(** [u.match(re)[0]] for the host pattern anchored at the start: the text
    matched; [None] when there is no match, where the script's indexing of
    [null] throws. *)
Definition host_match (u : str) : option str :=
  match re_host 1 3 u with
  | Some (_, rest) => Some (take (length u - length rest) u)
  | None => None
  end.

(** [if (img.srcset) img.srcset = img.srcset.replace(re, u.match(re0)[0])];
    [None] when it throws. *)
Definition replace_srcset (u : str) (img : Elem) : option Elem :=
  if truthy (srcset img) then
    base ← host_match u;
    Some (set_srcset (replace_hosts (length (srcset img)) base (srcset img)) img)
  else Some img.

(** [preemptivelyFixImage(img)]; [None] when it throws. *)
Definition preemptivelyFixImage (img : Elem) : option (Elem * bool) :=
  let originalSrc := src img in
  match parseSubdomain originalSrc with
  | None => Some (img, false)
  | Some parsed =>
      if negb (str_eqb (prefix parsed) "k") then Some (img, false) else
      match generateFixedUrl parsed with
      | None => Some (img, false)
      | Some fixedUrl =>
          let img := set_src fixedUrl (set_referrerPolicy "no-referrer" img) in
          img ← replace_srcset fixedUrl img;
          Some (set_batoPreemptiveFix "true" img, true)
      end
  end.

(** The callbacks that [processImage] hands to [setTimeout]. *)
Inductive Callback := CbBackgroundProbe | CbCheck.

(** [processImage(img)]: the element, and the callbacks scheduled with
    their delays, in order; [None] when it throws. *)
Definition processImage (img : Elem) : option (Elem * list (nat * Callback)) :=
  if is_str (batoProcessed img) "true" then Some (img, []) else
  let img := set_batoProcessed "true" img in
  if negb (pageImg img) then Some (img, []) else
  '(img, scheduled) ←
    (if isProblematicKServer (src img) then
       '(img, fixed) ← preemptivelyFixImage img;
       Some (img, if fixed : bool then [(3000, CbBackgroundProbe)] else [])
     else Some (img, []));
  let checkDelay := if isProblematicKServer (src img) then 8000 else 3000 in
  Some (img, scheduled ++ [(checkDelay, CbCheck)]).

(** The callback of lines 1012-1021: whether it calls
    [backgroundProbeImage]. *)
Definition check_callback (img : Elem) : bool :=
  complete img && (naturalWidth img =? 0) && negb (isProblematicKServer (src img)).

(** *** quickProbe *)

(** A quick probe under way: the closure of the promise executor. *)
Record QuickProbe := mkQuickProbe {
  q_url : str;
  q_timedOut : bool;
  q_timerCleared : bool
}.

Definition quickProbe (u : str) : QuickProbe := mkQuickProbe u false false.

(** The timer callback and the [onload] and [onerror] handlers of
    [quickProbe]. *)
Definition quick_event (ev : ProbeEvent) (p : QuickProbe) : QuickProbe * option Settled :=
  match ev with
  | TimerFired =>
      if q_timerCleared p then (p, None)
      else (mkQuickProbe (q_url p) true true, Some (Rejected r_timeout))
  | Loaded width height =>
      if q_timedOut p then (p, None)
      else
        let p := mkQuickProbe (q_url p) false true in
        if (1 <? width) && (1 <? height) then (p, Some Resolved)
        else (p, Some (Rejected r_empty))
  | Errored =>
      if q_timedOut p then (p, None)
      else (mkQuickProbe (q_url p) false true, Some (Rejected r_error))
  end.

(** *** backgroundProbeImage *)

(** Where a call of [backgroundProbeImage] is suspended: in the wait of
    line 896, on the probe of candidate [i], or in the pause of line 944
    after candidate [i]. *)
Inductive BgTask :=
| Waiting
| Probing (parsed : Address) (cands : list str) (i : nat) (p : QuickProbe)
| Pausing (parsed : Address) (cands : list str) (i : nat).

Inductive BgStep := BgReturn | BgAwait (t : BgTask).

(** What resumes a suspended call: a [setTimeout] promise resolves, or the
    probe gets an event. *)
Inductive BgEvent := Wake | OnProbe (ev : ProbeEvent).

(** The state of the call: the element, the keys of [serverCache] (every
    value is [true]) and the probes started so far. *)
Record BgState := mkBgState {
  elem : Elem;
  cache_keys : gset str;
  probes : list str
}.

(** The head of the [for] loop: its test, and the call of [quickProbe]. *)
Definition bg_loop (parsed : Address) (cands : list str) (i : nat) (s : BgState)
    : BgState * BgStep :=
  match cands !! i with
  | Some u =>
      (mkBgState (elem s) (cache_keys s) (probes s ++ [u]),
       BgAwait (Probing parsed cands i (quickProbe u)))
  | None =>
      (mkBgState (set_batoBackgroundProbing "done" (elem s)) (cache_keys s) (probes s),
       BgReturn)
  end.

(** The end of an iteration whose probe did not succeed: the pause, when
    another candidate is left. *)
Definition bg_next (parsed : Address) (cands : list str) (i : nat) (s : BgState)
    : BgState * BgStep :=
  if i <? length cands - 1 then (s, BgAwait (Pausing parsed cands i))
  else bg_loop parsed cands (S i) s.

(** [backgroundProbeImage(img)] up to its first [await]. *)
Definition backgroundProbeImage (s : BgState) : BgState * BgStep :=
  if is_str (batoBackgroundProbing (elem s)) "true" then (s, BgReturn)
  else (mkBgState (set_batoBackgroundProbing "true" (elem s)) (cache_keys s) (probes s),
        BgAwait Waiting).

(** The continuation of a suspended call at an event.  The element is
    read as it is at that moment. *)
Definition bg_resume (ev : BgEvent) (t : BgTask) (s : BgState) : BgState * BgStep :=
  match t, ev with
  | Waiting, Wake =>
      let img := elem s in
      if complete img && (10 <? naturalWidth img)
      then (mkBgState (set_batoBackgroundProbing "done" img) (cache_keys s) (probes s),
            BgReturn)
      else
        match parseSubdomain (src img) with
        | None =>
            (mkBgState (set_batoBackgroundProbing "done" img) (cache_keys s) (probes s),
             BgReturn)
        | Some parsed => bg_loop parsed (generateFallbackCandidates parsed) 0 s
        end
  | Probing parsed cands i p, OnProbe pev =>
      match quick_event pev p with
      | (p', None) => (s, BgAwait (Probing parsed cands i p'))
      | (_, Some Resolved) =>
          let cacheKey := prefix parsed ++ "-" ++ root parsed in
          let keys := {[cacheKey]} ∪ cache_keys s in
          let img := set_src (q_url p) (set_referrerPolicy "no-referrer" (elem s)) in
          match replace_srcset (q_url p) img with
          | Some img =>
              (mkBgState (set_batoBackgroundProbing "done" img) keys (probes s), BgReturn)
          | None =>
              (* the exception is caught at line 938 *)
              bg_next parsed cands i (mkBgState img keys (probes s))
          end
      | (_, Some (Rejected _)) => bg_next parsed cands i s
      end
  | Pausing parsed cands i, Wake => bg_loop parsed cands (S i) s
  | _, _ => (s, BgAwait t)
  end.

(** What happens between the call and its return: an event resumes it, or
    the browser reports on the load of the element. *)
Inductive BgInput := Resume (ev : BgEvent) | LoadState (c : bool) (nw : nat).

Definition set_load_state (c : bool) (nw : nat) (e : Elem) : Elem :=
  mkElem (src e) (srcset e) (referrerPolicy e) c nw (pageImg e)
         (batoProcessed e) (batoPreemptiveFix e) (batoBackgroundProbing e).

(** A call followed through what happens; after its return nothing is
    left to resume. *)
Fixpoint bg_run (ins : list BgInput) (r : BgState * BgStep) : BgState * BgStep :=
  match ins, r with
  | Resume ev :: ins', (s, BgAwait t) => bg_run ins' (bg_resume ev t s)
  | LoadState c nw :: ins', (s, BgAwait t) =>
      bg_run ins' (mkBgState (set_load_state c nw (elem s)) (cache_keys s) (probes s),
                   BgAwait t)
  | _, _ => r
  end.

End Background.

(** The address pushed for a letter, the address pushed for a fallback
    root and the test of line 834, in [generateFallbackCandidates]. *)
Definition letter_url (parsed : Address) (letter : str) : str :=
  render_url letter (number parsed) (root parsed) (tld parsed) (path parsed).

Definition root_url (parsed : Address) (fb : str) : str :=
  render_url (prefix parsed) (number parsed) (split "." fb !!! 0) (split "." fb !!! 1)
    (path parsed).

Definition root_cond (parsed : Address) (fb : str) : bool :=
  (length (split "." fb) =? 2) && negb (str_eqb (split "." fb !!! 0) (root parsed)).

(** An address with well-formed fields, the number and the path of
    [parsed], and another prefix or another root. *)
Definition other_host (parsed : Address) (u : str) : Prop :=
  exists (p r t : str),
    wf_fields p (number parsed) r t /\ u = render_url p (number parsed) r t (path parsed) /\
    (p <> prefix parsed \/ r <> root parsed).

(** What a call of [backgroundProbeImage], started in [s0] and followed
    through the inputs [seen], has come to: suspended, the element is
    marked ["true"], its address is as it was and the probes started are
    at most one per index seen; returned, the element is marked ["done"]
    and its address is as it was, or is a candidate whose probe loaded
    with both dimensions above 1. *)
Definition bg_state (s0 : Background.BgState) (seen : list Background.BgInput)
    (r : Background.BgState * Background.BgStep) : Prop :=
  let n0 := length (Background.probes s0) in
  let src0 := Background.src (Background.elem s0) in
  let suspended (s : Background.BgState) :=
    Background.src (Background.elem s) = src0 /\
    Background.batoBackgroundProbing (Background.elem s) = Some ("true" : str) in
  let of_src0 (parsed : Address) (cands : list str) :=
    parseSubdomain src0 = Some parsed /\
    cands = Background.generateFallbackCandidates parsed in
  match r with
  | (s, Background.BgAwait Background.Waiting) =>
      suspended s /\ Background.probes s = Background.probes s0
  | (s, Background.BgAwait (Background.Probing parsed cands i p)) =>
      suspended s /\ of_src0 parsed cands /\
      cands !! i = Some (Background.q_url p) /\
      length (Background.probes s) <= n0 + i + 1
  | (s, Background.BgAwait (Background.Pausing parsed cands i)) =>
      suspended s /\ of_src0 parsed cands /\
      S i < length cands /\
      length (Background.probes s) <= n0 + i + 1
  | (s, Background.BgReturn) =>
      Background.batoBackgroundProbing (Background.elem s) = Some ("done" : str) /\
      length (Background.probes s) <= n0 + Background.MAX_ATTEMPTS /\
      (Background.src (Background.elem s) = src0 \/
       exists parsed width height,
         parseSubdomain src0 = Some parsed /\
         Background.src (Background.elem s) ∈ Background.generateFallbackCandidates parsed /\
         Background.referrerPolicy (Background.elem s) = "no-referrer" /\
         prefix parsed ++ "-" ++ root parsed ∈ Background.cache_keys s /\
         Background.Resume (Background.OnProbe (Loaded width height)) ∈ seen /\
         1 < width /\ 1 < height)
  end.

(** ** The success cache over the life of the page *)

(** Every entry of the success cache satisfies [entry_ok]. *)
Definition cache_ok (entry_ok : CacheEntry -> Prop) (w : World) : Prop :=
  map_Forall (fun _ c => entry_ok c) (serverCache w).

(** A suspended call probes a [good] URL and has [good] candidates. *)
Definition task_ok (good : str -> Prop) (t : Task) : Prop :=
  good (p_url (t_probe t)) /\ Forall good (t_candidates t).

Definition step_ok (good : str -> Prop) (entry_ok : CacheEntry -> Prop)
    (r : Img * World * Step) : Prop :=
  cache_ok entry_ok r.1.2 /\
  match r.2 with Await t => task_ok good t | Return _ => True end.

Definition sys_cache_inv (good : str -> Prop) (entry_ok : CacheEntry -> Prop) (s : Sys)
    : Prop :=
  cache_ok entry_ok (world s) /\ forall t, t ∈ tasks s -> task_ok good t.

(** The entries that the revision of lines 1-364 writes. *)
Definition k_or_n_entry (c : CacheEntry) : Prop := c_prefix c = "k" \/ c_prefix c = "n".

(** An element of the page on the [n] host, broken, and the state of a
    call of [backgroundProbeImage] for it, nothing cached or probed. *)
Definition elem_n03 : Background.Elem :=
  Background.mkElem "https://n03.mbdny.org/a/b/c/1.jpg" [] [] true 0 true
    (Some ("true" : str)) (Some ("true" : str)) None.

Definition bg0 : Background.BgState := Background.mkBgState elem_n03 ∅ [].

(** The wait ends, the first probe loads a page image. *)
Definition bg_inputs : list Background.BgInput :=
  [Background.Resume Background.Wake;
   Background.Resume (Background.OnProbe (Loaded 800 1200))].


(** ** A pass in which every probe fails *)

(** An event that makes the probe it comes to fail: the timer, a
    transport error, or a load with no dimension above 1. *)
Definition failing (ev : ProbeEvent) : bool :=
  match ev with
  | Loaded width height => negb ((1 <? width) || (1 <? height))
  | TimerFired | Errored => true
  end.

(** What the probe rejects with at a failing event. *)
Definition error_of (ev : ProbeEvent) : Reason :=
  match ev with
  | TimerFired => r_timeout
  | Loaded _ _ => r_empty
  | Errored => r_error
  end.

(** What a call that has entered the loop, with the candidates [cands],
    has come to after the failing events [seen], [w0] being the world at
    its entry.  Suspended, it has consumed all of [seen], one event per
    probe, and [lastError] is the error of the last one.  Returned, it
    has consumed the first [n] events, it has returned through the
    failure handling with the error of the last of them, and a callback
    was added exactly if the pass is a first pass and that event was the
    timer. *)
Definition failed_pass (cands : list str) (id : ImgId) (isRetry : bool) (w0 : World)
    (seen : list ProbeEvent) (r : Img * World * Step) : Prop :=
  match r with
  | (img', w', Await t) =>
      probing t /\ t_candidates t = cands /\ t_img t = id /\ t_isRetry t = isRetry /\
      t_lastError t = error_of <$> last seen /\ timers w' = timers w0 /\
      length (net w') = length (net w0) + length seen + 1 /\ length seen <= t_i t
  | (img', w', Return (ExitUnresolved how le)) =>
      exists n,
        n <= length seen /\ n <= length cands /\
        length (net w') = length (net w0) + n /\
        le = error_of <$> last (take n seen) /\
        if negb isRetry && bool_decide (last (take n seen) = Some TimerFired)
        then timers w' = timers w0 ++ [id] /\ batoFixing img' = Some ("retry" : str)
        else timers w' = timers w0 /\ batoFixing img' = Some ("failed" : str)
  | (img', w', Return _) => False
  end.


(** * Properties *)

(** ** Characters *)

Ltac ascii_cases c :=
  destruct c as [[] [] [] [] [] [] [] []]; vm_compute; try tauto; try congruence.

Lemma digit_not_letter c : is_digit c = true -> is_letter c = false.
Proof. ascii_cases c. Qed.

Lemma lower_char_letter c : is_letter c = true -> is_lower (lower_char c) = true.
Proof. ascii_cases c. Qed.

Lemma lower_char_lower c : is_lower c = true -> lower_char c = c.
Proof. ascii_cases c. Qed.

Lemma lower_char_idem c : lower_char (lower_char c) = lower_char c.
Proof. ascii_cases c. Qed.

Lemma lower_char_inv x c : lower_char x = c -> is_lower c = false -> x = c.
Proof. intros <-. ascii_cases x. Qed.

Lemma toLowerCase_inv t lit :
  toLowerCase t = lit ->
  forallb (fun c => negb (is_lower c)) lit = true -> t = lit.
Proof.
  intros <-. induction t as [|c t IH]; simpl; [done|].
  intros [Hc Ht]%andb_true_iff. f_equal; [|by apply IH].
  apply lower_char_inv; [done|]. by destruct (is_lower (lower_char c)).
Qed.

Lemma lower_is_letter c : is_lower c = true -> is_letter c = true.
Proof. ascii_cases c. Qed.

Lemma lower_char_root c :
  is_root_char c = true ->
  is_root_char (lower_char c) = true /\ is_upper (lower_char c) = false.
Proof. ascii_cases c. Qed.

Lemma dot_not_digit_root c :
  c = "."%char -> is_digit c = false /\ is_root_char c = false /\ is_letter c = false.
Proof. intros ->. by vm_compute. Qed.

Lemma toLowerCase_idem s : toLowerCase (toLowerCase s) = toLowerCase s.
Proof.
  unfold toLowerCase. rewrite map_map. apply map_ext. intros c. apply lower_char_idem.
Qed.

Lemma toLowerCase_app a b : toLowerCase (a ++ b) = toLowerCase a ++ toLowerCase b.
Proof. apply map_app. Qed.

Lemma toLowerCase_length s : length (toLowerCase s) = length s.
Proof. apply length_map. Qed.

(** ** Scanning *)

Lemma span_spec p s a b :
  span p s = (a, b) ->
  s = a ++ b /\ forallb p a = true /\ (forall c r, b = c :: r -> p c = false).
Proof.
  revert a b. induction s as [|c s IH]; intros a b; simpl.
  - intros [= <- <-]. by repeat split.
  - destruct (p c) eqn:Hc.
    + destruct (span p s) as [a' b'] eqn:Hs. intros [= <- <-].
      destruct (IH a' b' eq_refl) as (-> & Ha & Hb).
      repeat split; simpl; [by rewrite Hc | done].
    + intros [= <- <-]. repeat split. intros c' r [= <- <-]. done.
Qed.

Lemma span_app p a b :
  forallb p a = true -> (forall c r, b = c :: r -> p c = false) ->
  span p (a ++ b) = (a, b).
Proof.
  intros Ha Hb. induction a as [|c a IH]; simpl in *.
  - destruct b as [|c r]; [done|]. simpl. by rewrite (Hb c r eq_refl).
  - apply andb_true_iff in Ha as [-> Ha]. by rewrite (IH Ha).
Qed.

Lemma strip_ci_sound lit s r :
  strip_ci lit s = Some r -> exists t, s = t ++ r /\ toLowerCase t = lit.
Proof.
  revert s. induction lit as [|l lit IH]; intros s; simpl.
  - intros [= ->]. by exists [].
  - destruct s as [|c s]; [done|]. case_bool_decide as Hc; [|done].
    intros (t & -> & <-)%IH. exists (c :: t). by rewrite <- Hc.
Qed.

Lemma strip_ci_app t r : strip_ci (toLowerCase t) (t ++ r) = Some r.
Proof.
  induction t as [|c t IH]; simpl; [done|]. by rewrite bool_decide_eq_true_2.
Qed.

Lemma strip_ci_app' lit t r : toLowerCase t = lit -> strip_ci lit (t ++ r) = Some r.
Proof. intros <-. apply strip_ci_app. Qed.

Lemma strip_alt_sound alts s g r :
  strip_alt alts s = Some (g, r) -> s = g ++ r /\ toLowerCase g ∈ alts.
Proof.
  induction alts as [|a alts IH]; simpl; [done|].
  destruct (strip_ci a s) as [r'|] eqn:Ha.
  - intros [= <- <-]. apply strip_ci_sound in Ha as (t & -> & <-).
    rewrite toLowerCase_length, take_app_length. split; [done | left].
  - intros [Hs Hin]%IH. split; [done | by right].
Qed.

Lemma strip_alt_first a alts g r :
  toLowerCase g = a -> strip_alt (a :: alts) (g ++ r) = Some (g, r).
Proof.
  intros <-. cbn [strip_alt]. rewrite strip_ci_app.
  by rewrite toLowerCase_length, take_app_length.
Qed.

Lemma strip_alt_skip l a alts c s :
  lower_char c <> l -> strip_alt ((l :: a) :: alts) (c :: s) = strip_alt alts (c :: s).
Proof. intros H. cbn [strip_alt strip_ci]. by rewrite bool_decide_eq_false_2. Qed.

Lemma strip_alt_tld g r : toLowerCase g ∈ TLDS -> strip_alt TLDS (g ++ r) = Some (g, r).
Proof.
  unfold TLDS. rewrite !elem_of_cons, elem_of_nil. intros [H|[H|[H|[]]]].
  - by apply strip_alt_first.
  - destruct g as [|c g]; [done|]. pose proof H as [= Hc Hg].
    rewrite <- app_comm_cons.
    rewrite (strip_alt_skip "o" "rg") by (rewrite Hc; by vm_compute).
    rewrite app_comm_cons. by apply strip_alt_first.
  - destruct g as [|c g]; [done|]. pose proof H as [= Hc Hg].
    rewrite <- app_comm_cons.
    rewrite (strip_alt_skip "o" "rg") by (rewrite Hc; by vm_compute).
    rewrite (strip_alt_skip "n" "et") by (rewrite Hc; by vm_compute).
    rewrite app_comm_cons. by apply strip_alt_first.
Qed.

(** ** The matcher accepts exactly the pattern *)

Lemma re_exec_sound lo hi s g : re_exec lo hi s = Some g -> re_shape lo hi s g.
Proof.
  unfold re_exec, re_host. intros H.
  destruct (strip_ci "http" s) as [s1|] eqn:H1; [|done]. cbn [mbind option_bind] in H.
  set (s2 := default s1 (strip_ci "s" s1)) in *.
  destruct (strip_ci "://" s2) as [s3|] eqn:H3; [|done]. cbn [mbind option_bind] in H.
  destruct (span is_letter s3) as [g1 s4] eqn:H4.
  case_bool_decide as Hg1; [done|].
  destruct (span is_digit s4) as [g2 s5] eqn:H5.
  destruct ((lo <=? length g2) && (length g2 <=? hi)) eqn:Hlen; [|done]. cbn [negb] in H.
  destruct (strip_ci "." s5) as [s6|] eqn:H6; [|done]. cbn [mbind option_bind] in H.
  destruct (span is_root_char s6) as [g3 s7] eqn:H7.
  case_bool_decide as Hg3; [done|].
  destruct (strip_ci "." s7) as [s8|] eqn:H8; [|done]. cbn [mbind option_bind] in H.
  destruct (strip_alt TLDS s8) as [[g4 s9]|] eqn:H9; [|done]. cbn [mbind option_bind] in H.
  destruct s9 as [|c rest]; [done|].
  destruct (bool_decide (c = "/"%char)) eqn:Hc.
  2:{ apply bool_decide_eq_false in Hc. exfalso. revert H Hc. clear.
      ascii_cases c. }
  apply bool_decide_eq_true in Hc as ->.
  destruct (forallb is_dot_char rest) eqn:Hrest; [|done].
  injection H as <-.
  apply span_spec in H4 as (-> & Hl1 & _), H5 as (-> & Hl2 & _), H7 as (-> & Hl3 & _).
  apply strip_ci_sound in H6 as (d1 & -> & Hd1), H8 as (d2 & -> & Hd2).
  apply strip_alt_sound in H9 as (-> & Htld).
  apply strip_ci_sound in H3 as (d0 & Hs2 & Hd0).
  apply strip_ci_sound in H1 as (sch & -> & Hsch).
  apply andb_true_iff in Hlen as [?%Nat.leb_le ?%Nat.leb_le].
  apply toLowerCase_inv in Hd1 as ->; [|done].
  apply toLowerCase_inv in Hd2 as ->; [|done].
  apply toLowerCase_inv in Hd0 as ->; [|done].
  split; cbn [m1 m2 m3 m4 m5]; eauto.
  subst s2. destruct (strip_ci "s" s1) as [s1'|] eqn:Hs; simpl in Hs2.
  - apply strip_ci_sound in Hs as (e & -> & He). exists (sch ++ e). split.
    + right. rewrite toLowerCase_app, Hsch, He. done.
    + rewrite Hs2. by rewrite <- !app_assoc.
  - exists sch. split; [by left|]. rewrite Hs2. done.
Qed.

Lemma strip_scheme (scheme rest : str) :
  toLowerCase scheme = "http" \/ toLowerCase scheme = "https" ->
  exists s1, strip_ci "http" (scheme ++ "://" ++ rest) = Some s1 /\
    default s1 (strip_ci "s" s1) = "://" ++ rest.
Proof.
  intros [H|H].
  - exists ("://" ++ rest). split; [by apply strip_ci_app'|done].
  - destruct scheme as [|c1 [|c2 [|c3 [|c4 [|c5 [|? ?]]]]]]; try done.
    injection H as H1 H2 H3 H4 H5.
    exists (c5 :: "://" ++ rest). split.
    + apply (strip_ci_app' _ [c1; c2; c3; c4]). simpl. by rewrite H1, H2, H3, H4.
    + apply (f_equal (default (c5 :: "://" ++ rest))
               (strip_ci_app' "s" [c5] ("://" ++ rest) ltac:(simpl; by rewrite H5))).
Qed.

Lemma re_exec_complete lo hi s g : re_shape lo hi s g -> re_exec lo hi s = Some g.
Proof.
  destruct g as [g1 g2 g3 g4 g5].
  intros [(scheme & Hsch & ->) [Hn1 Hl1] [Hlen Hl2] [Hn3 Hl3] Htld (rest & Hp & Hrest)].
  cbn [m1 m2 m3 m4 m5] in *.
  destruct (strip_scheme scheme (g1 ++ g2 ++ "." ++ g3 ++ "." ++ g4 ++ g5) Hsch)
    as (s1 & H1 & H2).
  unfold re_exec, re_host. rewrite H1. cbn [mbind option_bind]. rewrite H2.
  replace (strip_ci "://" ("://" ++ g1 ++ g2 ++ "." ++ g3 ++ "." ++ g4 ++ g5))
    with (Some (g1 ++ g2 ++ "." ++ g3 ++ "." ++ g4 ++ g5)) by done.
  cbn [mbind option_bind].
  rewrite (span_app is_letter g1); [|done|].
  2:{ intros c r. destruct g2 as [|d g2]; simpl.
      - by intros [= <- _].
      - intros [= <- _]. apply andb_true_iff in Hl2 as [Hd _].
        by apply digit_not_letter. }
  rewrite bool_decide_eq_false_2 by done.
  rewrite (span_app is_digit g2); [|done|by intros c r [= <- _]].
  replace ((lo <=? length g2) && (length g2 <=? hi)) with true.
  2:{ symmetry. apply andb_true_iff. split; apply Nat.leb_le; lia. }
  cbn [negb].
  replace (strip_ci "." ("." ++ g3 ++ "." ++ g4 ++ g5))
    with (Some (g3 ++ "." ++ g4 ++ g5)) by done.
  cbn [mbind option_bind].
  rewrite (span_app is_root_char g3); [|done|by intros c r [= <- _]].
  rewrite bool_decide_eq_false_2 by done.
  replace (strip_ci "." ("." ++ g4 ++ g5)) with (Some (g4 ++ g5)) by done.
  cbn [mbind option_bind].
  rewrite strip_alt_tld by done. cbn [mbind option_bind].
  subst g5. by rewrite Hrest.
Qed.

Theorem re_exec_shape lo hi s g : re_exec lo hi s = Some g <-> re_shape lo hi s g.
Proof. split; [apply re_exec_sound | apply re_exec_complete]. Qed.

(** ** parseSubdomain *)

Lemma parseSubdomain_Some s a :
  parseSubdomain s = Some a <-> exists g, re_shape 1 3 s g /\ a = address_of g.
Proof.
  unfold parseSubdomain, SUBDOMAIN_RE. split.
  - destruct (re_exec 1 3 s) as [g|] eqn:H; [|done]. intros [= <-].
    exists g. by apply re_exec_sound in H.
  - intros (g & Hg%re_exec_complete & ->). by rewrite Hg.
Qed.

Lemma parseSubdomain_None s :
  parseSubdomain s = None <-> forall g, ~ re_shape 1 3 s g.
Proof.
  unfold parseSubdomain, SUBDOMAIN_RE. split.
  - destruct (re_exec 1 3 s) as [g|] eqn:H; [done|]. intros _ g Hg%re_exec_complete.
    congruence.
  - intros Hno. destruct (re_exec 1 3 s) as [g|] eqn:H; [|done].
    apply re_exec_sound in H. by destruct (Hno g).
Qed.

Lemma index_ok_below_1000 n : n < 1000 -> index_ok n = true.
Proof.
  intros Hn. assert (forallb index_ok (seq 0 1000) = true) as H by (by vm_compute).
  rewrite forallb_forall in H. apply H, in_seq. lia.
Qed.

Lemma digit_val_le c : is_digit c = true -> digit_val c <= 9.
Proof.
  intros H. apply Nat.leb_le. revert H. ascii_cases c.
Qed.

Lemma parseInt10_below_1000 d :
  length d <= 3 -> forallb is_digit d = true -> parseInt10 d < 1000.
Proof.
  destruct d as [|c1 [|c2 [|c3 [|? ?]]]]; simpl; intros Hlen H; try lia;
    unfold parseInt10; simpl;
    repeat match goal with
           | H : _ && _ = true |- _ => apply andb_true_iff in H as [?%digit_val_le H]
           end; lia.
Qed.

Lemma forallb_toLowerCase (p : ascii -> bool) s :
  (forall c, p c = true -> p (lower_char c) = true) ->
  forallb p s = true -> forallb p (toLowerCase s) = true.
Proof.
  intros Hp. induction s as [|c s IH]; simpl; [done|].
  intros [Hc Hs]%andb_true_iff. by rewrite (Hp c Hc), (IH Hs).
Qed.

Lemma render_shape s g :
  re_shape 1 3 s g -> re_shape 1 3 (render (address_of g)) (canonical_groups g).
Proof.
  intros [_ [Hn1 Hl1] [Hlen Hl2] [Hn3 Hl3] Htld Hpath].
  pose proof (index_ok_below_1000 _ (parseInt10_below_1000 (m2 g) ltac:(lia) Hl2)) as Hidx.
  unfold index_ok in Hidx. cbn zeta in Hidx.
  apply andb_true_iff in Hidx as [[[H2%Nat.leb_le H3%Nat.leb_le]%andb_true_iff Hd]%andb_true_iff _].
  split; cbn [canonical_groups m1 m2 m3 m4 m5].
  - exists ("https" : str). split; [by right|].
    unfold render, render_url, render_base, address_of. cbn [prefix number root tld path].
    by rewrite <- !app_assoc.
  - split; [by destruct (m1 g)|].
    apply forallb_toLowerCase; [|done].
    intros c Hc. by apply lower_is_letter, lower_char_letter.
  - split; [lia | done].
  - split; [by destruct (m3 g)|].
    apply forallb_toLowerCase; [|done]. intros c Hc. by apply lower_char_root.
  - by rewrite toLowerCase_idem.
  - done.
Qed.

Lemma address_of_canonical s g :
  re_shape 1 3 s g -> address_of (canonical_groups g) = address_of g.
Proof.
  intros [_ _ [Hlen Hl2] _ _ _].
  pose proof (index_ok_below_1000 _ (parseInt10_below_1000 (m2 g) ltac:(lia) Hl2)) as Hidx.
  unfold index_ok in Hidx. cbn zeta in Hidx.
  apply andb_true_iff in Hidx as [_ Hn%Nat.eqb_eq].
  unfold address_of, canonical_groups. cbn [m1 m2 m3 m4 m5].
  by rewrite !toLowerCase_idem, Hn.
Qed.

(** C5. For every address string that [parseSubdomain] accepts, parsing is
    a function of the string (two results are equal), and parsing the
    address rendered from the parsed fields, with the template of
    [generateCandidates]'s [add], gives the same fields back: [parse] is
    a left inverse of rendering.  The rendered string is the canonical form
    of the input (scheme [https], host in lower case, index padded to two
    digits, path verbatim), and rendering what it parses to reproduces
    it. *)
Theorem parse_render_inverse (s : str) (a : Address) :
  parseSubdomain s = Some a ->
  (forall b, parseSubdomain s = Some b -> b = a) /\
  parseSubdomain (render a) = Some a /\
  (exists g, re_shape 1 3 s g /\
     render a = "https://" ++ toLowerCase (m1 g)
                  ++ padStart0 2 (String_of (parseInt10 (m2 g))) ++ "."
                  ++ toLowerCase (m3 g) ++ "." ++ toLowerCase (m4 g) ++ m5 g) /\
  render <$> parseSubdomain (render a) = Some (render a).
Proof.
  intros H. assert (parseSubdomain (render a) = Some a) as Hinv.
  { apply parseSubdomain_Some in H as (g & Hg & ->).
    apply parseSubdomain_Some. exists (canonical_groups g). split.
    - by apply (render_shape s).
    - symmetry. by apply (address_of_canonical s). }
  split; [congruence|]. split; [done|]. split; [|by rewrite Hinv].
  apply parseSubdomain_Some in H as (g & Hg & ->). exists g. split; [done|].
  unfold render, render_url, render_base, address_of. cbn [prefix number root tld path].
  by rewrite <- !app_assoc.
Qed.

Lemma parse_render_inverse_witness :
  parseSubdomain (render (mkAddress "k" 3 "mbdny" "org" "/a/b/c/1.jpg"))
  = Some (mkAddress "k" 3 "mbdny" "org" "/a/b/c/1.jpg").
Proof.
  apply (parse_render_inverse "HTTP://K003.MBDNY.ORG/a/b/c/1.jpg"). reflexivity.
Defined.

(** The design document's pattern asks for an index of two or three
    digits; the script's pattern takes one to three. *)
Lemma parse_one_digit_index :
  parseSubdomain "https://k3.mbdny.org/a/b/c/1.jpg"
    = Some (mkAddress "k" 3 "mbdny" "org" "/a/b/c/1.jpg") /\
  ~ (exists g, re_shape 2 3 "https://k3.mbdny.org/a/b/c/1.jpg" g).
Proof.
  split; [reflexivity|]. intros [g Hg%re_exec_complete]. by vm_compute in Hg.
Qed.

(** C6, amended. [parseSubdomain] returns an Address exactly for the
    strings of the shape [scheme://<letters><1-3 digit index>.<root>.<suffix><path>]
    (case-insensitive), the Address being built from the five parts, and
    returns [null] for every other string.  An index of one digit is
    accepted; an index of no digit, or of more than three, is not. *)
Theorem parseSubdomain_pattern (s : str) :
  (forall a, parseSubdomain s = Some a <-> exists g, re_shape 1 3 s g /\ a = address_of g) /\
  (parseSubdomain s = None <-> forall g, ~ re_shape 1 3 s g) /\
  (forall a g, parseSubdomain s = Some a -> re_shape 1 3 s g ->
     1 <= length (m2 g) <= 3 /\ number a = parseInt10 (m2 g) /\ path a = m5 g).
Proof.
  split; [intros a; apply parseSubdomain_Some|].
  split; [apply parseSubdomain_None|].
  intros a g Ha Hg. pose proof Hg as [_ _ [Hlen _] _ _ _]. split; [done|].
  apply re_exec_complete in Hg. unfold parseSubdomain, SUBDOMAIN_RE in Ha.
  rewrite Hg in Ha. by injection Ha as <-.
Qed.

(** ** Sorting, deduplication, truncation *)

Lemma insert_sorted_elem (x y : Candidate) l :
  y ∈ insert_sorted by_priority x l <-> y = x \/ y ∈ l.
Proof.
  induction l as [|z l IH]; simpl.
  - set_solver.
  - destruct (by_priority x z <=? 0)%Z; set_solver.
Qed.

Lemma array_sort_elem (y : Candidate) l : y ∈ array_sort by_priority l <-> y ∈ l.
Proof.
  induction l as [|x l IH]; simpl; [done|].
  rewrite insert_sorted_elem, IH. set_solver.
Qed.

Lemma insert_sorted_sorted x l :
  StronglySorted prio_le l -> StronglySorted prio_le (insert_sorted by_priority x l).
Proof.
  induction 1 as [|z l Hl IH Hz]; simpl.
  - repeat constructor.
  - destruct (by_priority x z <=? 0)%Z eqn:Hc.
    + apply Z.leb_le in Hc. unfold by_priority in Hc.
      constructor; [by constructor|]. constructor; [unfold prio_le; lia|].
      eapply Forall_impl; [exact Hz|]. unfold prio_le. intros; lia.
    + apply Z.leb_gt in Hc. unfold by_priority in Hc.
      constructor; [done|]. apply Forall_forall. intros y [->|Hy]%insert_sorted_elem.
      * unfold prio_le. lia.
      * rewrite Forall_forall in Hz. by apply Hz.
Qed.

Lemma array_sort_sorted l : StronglySorted prio_le (array_sort by_priority l).
Proof.
  induction l as [|x l IH]; simpl; [constructor | by apply insert_sorted_sorted].
Qed.

Lemma set_spread_from_elem seen l x :
  x ∈ set_spread_from seen l <-> x ∈ l /\ x ∉ seen.
Proof.
  revert seen. induction l as [|y l IH]; intros seen; simpl.
  - set_solver.
  - case_bool_decide as Hy.
    + rewrite IH. set_solver.
    + rewrite elem_of_cons, IH. destruct (decide (x = y)); set_solver.
Qed.

Lemma set_spread_from_NoDup seen l : NoDup (set_spread_from seen l).
Proof.
  revert seen. induction l as [|y l IH]; intros seen; simpl.
  - constructor.
  - case_bool_decide; [done|]. constructor; [|done].
    rewrite set_spread_from_elem. set_solver.
Qed.

(** If [u] comes before [v] in the deduplicated list, the first [u] of
    the original list comes before every [v]. *)
Lemma set_spread_from_before seen l d1 u d2 v :
  set_spread_from seen l = d1 ++ u :: d2 -> v ∈ d2 ->
  exists l1 l2, l = l1 ++ u :: l2 /\ (v ∉ l1) /\ v <> u.
Proof.
  revert seen d1. induction l as [|x l IH]; intros seen d1; simpl.
  - by destruct d1.
  - case_bool_decide as Hx.
    + intros Hd Hv. destruct (IH _ _ Hd Hv) as (l1 & l2 & -> & Hv1 & Hvu).
      exists (x :: l1), l2. split; [done|]. split; [|done].
      assert (v ∈ set_spread_from seen (l1 ++ u :: l2)) as [_ Hvs]%set_spread_from_elem
        by (rewrite Hd; set_solver).
      set_solver.
    + destruct d1 as [|y d1]; simpl.
      * intros [= <- Hd] Hv. exists [], l. split; [done|]. split; [set_solver|].
        rewrite <- Hd in Hv. apply set_spread_from_elem in Hv. set_solver.
      * intros [= <- Hd] Hv. destruct (IH _ _ Hd Hv) as (l1 & l2 & -> & Hv1 & Hvu).
        exists (x :: l1), l2. split; [done|]. split; [|done].
        assert (v ∈ set_spread_from (x :: seen) (l1 ++ u :: l2))
          as [_ Hvs]%set_spread_from_elem by (rewrite Hd; set_solver).
        set_solver.
Qed.

Lemma priority_class_spec pushed u p :
  priority_class pushed u = Some p ->
  (exists c, c ∈ pushed /\ url c = u /\ priority c = p) /\
  (forall c, c ∈ pushed -> url c = u -> p <= priority c).
Proof.
  revert p. induction pushed as [|c l IH]; intros p; simpl; [done|].
  unfold str_eqb. case_bool_decide as Hc.
  - destruct (priority_class l u) as [b|] eqn:Hb; simpl; intros [= <-].
    + destruct (IH b eq_refl) as [(c' & Hc' & Hu & Hp) Hmin]. split.
      * destruct (Nat.min_spec (priority c) b) as [[_ ->]|[_ ->]]; set_solver.
      * intros c0 [->|H0]%elem_of_cons Hu0; [lia|]. specialize (Hmin c0 H0 Hu0). lia.
    + split; [set_solver|]. intros c0 [->|H0]%elem_of_cons Hu0; [lia|].
      exfalso. clear IH. induction l as [|z l IHl]; [set_solver|].
      simpl in Hb. unfold str_eqb in Hb. case_bool_decide; [done|].
      apply elem_of_cons in H0 as [->|H0]; [done | by apply IHl].
  - intros Hp. destruct (IH p Hp) as [(c' & Hc' & Hu & Hp') Hmin]. split; [set_solver|].
    intros c0 [->|H0]%elem_of_cons Hu0; [done | by apply Hmin].
Qed.

Lemma priority_class_pushed pushed c :
  c ∈ pushed -> is_Some (priority_class pushed (url c)).
Proof.
  induction pushed as [|z l IH]; [set_solver|]. simpl. unfold str_eqb.
  intros [->|H]%elem_of_cons.
  - by rewrite bool_decide_eq_true_2.
  - case_bool_decide; [done | by apply IH].
Qed.

(** A URL that comes before another in the sorted, deduplicated list has
    a class at least as good. *)
Lemma spread_sorted_before pushed d1 u d2 v pu c :
  set_spread (url <$> array_sort by_priority pushed) = d1 ++ u :: d2 ->
  v ∈ d2 -> priority_class pushed u = Some pu ->
  c ∈ pushed -> url c = v -> pu <= priority c.
Proof.
  intros Hd Hv Hpu Hc Hcv.
  destruct (set_spread_from_before _ _ _ _ _ _ Hd Hv) as (l1 & l2 & Hl & Hv1 & Hvu).
  apply fmap_app_inv in Hl as (s1 & s2' & -> & Hs2 & Hs).
  symmetry in Hs2. apply fmap_cons_inv in Hs2 as (cu & s2 & -> & _ & ->).
  pose proof (array_sort_sorted pushed) as Hsorted. rewrite Hs in Hsorted.
  apply StronglySorted_app_1_r in Hsorted. apply StronglySorted_inv in Hsorted as [_ Hall].
  assert (c ∈ s2) as Hc2.
  { apply array_sort_elem in Hc. rewrite Hs in Hc.
    apply elem_of_app in Hc as [Hc|[->|Hc]%elem_of_cons]; [|congruence|done].
    exfalso. apply Hv1. rewrite <- Hcv. by apply list_elem_of_fmap_2. }
  rewrite Forall_forall in Hall. specialize (Hall c Hc2). unfold prio_le in Hall.
  apply priority_class_spec in Hpu as [_ Hmin].
  assert (cu ∈ pushed) as Hcup by (apply array_sort_elem; rewrite Hs; set_solver).
  specialize (Hmin cu Hcup eq_refl). lia.
Qed.

Lemma lookup_before {A} (l : list A) i j u v :
  i < j -> l !! i = Some u -> l !! j = Some v ->
  exists d1 d2, l = d1 ++ u :: d2 /\ v ∈ d2.
Proof.
  intros Hij Hi Hj. exists (take i l), (drop (S i) l).
  split; [by rewrite take_drop_middle|].
  apply list_elem_of_lookup. exists (j - S i). rewrite lookup_drop. rewrite <- Hj. f_equal. lia.
Qed.

(** What sorting, deduplicating and truncating give, for any array of
    candidates and any bound. *)
Lemma finish_candidates_spec (max_attempts : nat) (pushed : list Candidate) :
  length (finish_candidates max_attempts pushed) <= max_attempts /\
  NoDup (finish_candidates max_attempts pushed) /\
  (forall u, u ∈ finish_candidates max_attempts pushed ->
     exists c, c ∈ pushed /\ url c = u) /\
  (forall i j u v pu pv,
     i < j ->
     finish_candidates max_attempts pushed !! i = Some u ->
     finish_candidates max_attempts pushed !! j = Some v ->
     priority_class pushed u = Some pu -> priority_class pushed v = Some pv ->
     pu <= pv) /\
  (forall u c pu,
     u ∈ finish_candidates max_attempts pushed -> c ∈ pushed ->
     url c ∉ finish_candidates max_attempts pushed ->
     priority_class pushed u = Some pu -> pu <= priority c).
Proof.
  unfold finish_candidates, slice0.
  set (D := set_spread (url <$> array_sort by_priority pushed)).
  assert (forall u, u ∈ D <-> exists c, c ∈ pushed /\ url c = u) as HD.
  { intros u. unfold D, set_spread. rewrite set_spread_from_elem, list_elem_of_fmap.
    split.
    - intros [(c & -> & Hc) _]. apply (proj1 (array_sort_elem _ _)) in Hc.
      exists c. by split.
    - intros (c & Hc & <-). split; [|set_solver].
      exists c. split; [done | by apply array_sort_elem]. }
  split; [rewrite length_take; lia|].
  split; [apply (sublist_NoDup _ D); [apply set_spread_from_NoDup | apply sublist_take]|].
  split.
  { intros u (i & Hi%list_elem_of_lookup_2 & _)%elem_of_take. by apply HD. }
  split.
  - intros i j u v pu pv Hij [Hi _]%lookup_take_Some [Hj _]%lookup_take_Some Hpu Hpv.
    destruct (lookup_before D i j u v Hij Hi Hj) as (d1 & d2 & Hd & Hv).
    apply priority_class_spec in Hpv as [(c & Hc & Hcv & <-) _].
    by apply (spread_sorted_before pushed d1 u d2 v pu c).
  - intros u c pu (i & Hi & Himax)%elem_of_take Hc Hout Hpu.
    assert (url c ∈ D) as (j & Hj)%list_elem_of_lookup_1 by (apply HD; by exists c).
    assert (max_attempts <= j) as Hmax.
    { destruct (decide (j < max_attempts)); [|lia].
      exfalso. apply Hout, elem_of_take. by exists j. }
    destruct (lookup_before D i j u (url c) ltac:(lia) Hi Hj) as (d1 & d2 & Hd & Hv).
    by apply (spread_sorted_before pushed d1 u d2 (url c) pu c).
Qed.

(** C1. For every parsed Address and every state of the success cache,
    the list that [generateCandidates] returns has at most [MAX_ATTEMPTS]
    entries and no two equal URLs; every entry is the URL of a pushed
    candidate; an entry never comes before an entry of a better
    (numerically smaller) priority class; and a pushed candidate that is
    left out has a class no better than any entry's, the list being cut
    after the sort. *)
Theorem generateCandidates_bounded_unique_ordered
    (serverCache : gmap str CacheEntry) (parsed : Address) :
  length (Strict.generateCandidates serverCache parsed) <= Strict.MAX_ATTEMPTS /\
  NoDup (Strict.generateCandidates serverCache parsed) /\
  (forall u, u ∈ Strict.generateCandidates serverCache parsed ->
     exists c, c ∈ Strict.candidates serverCache parsed /\ url c = u) /\
  (forall i j u v pu pv,
     i < j ->
     Strict.generateCandidates serverCache parsed !! i = Some u ->
     Strict.generateCandidates serverCache parsed !! j = Some v ->
     priority_class (Strict.candidates serverCache parsed) u = Some pu ->
     priority_class (Strict.candidates serverCache parsed) v = Some pv ->
     pu <= pv) /\
  (forall u c pu,
     u ∈ Strict.generateCandidates serverCache parsed ->
     c ∈ Strict.candidates serverCache parsed ->
     url c ∉ Strict.generateCandidates serverCache parsed ->
     priority_class (Strict.candidates serverCache parsed) u = Some pu ->
     pu <= priority c) /\
  Strict.generateCandidates serverCache parsed =
    take Strict.MAX_ATTEMPTS
      (set_spread (url <$> array_sort by_priority (Strict.candidates serverCache parsed))).
Proof.
  pose proof (finish_candidates_spec Strict.MAX_ATTEMPTS (Strict.candidates serverCache parsed))
    as (H1 & H2 & H3 & H4 & H5).
  repeat split; done.
Qed.

(** The same holds of the revision with every prefix letter. *)
Lemma Smart_generateCandidates_bounded_unique_ordered
    (serverCache : gmap str CacheEntry) (parsed : Address) :
  length (Smart.generateCandidates serverCache parsed) <= Smart.MAX_ATTEMPTS /\
  NoDup (Smart.generateCandidates serverCache parsed) /\
  (forall i j u v pu pv,
     i < j ->
     Smart.generateCandidates serverCache parsed !! i = Some u ->
     Smart.generateCandidates serverCache parsed !! j = Some v ->
     priority_class (Smart.candidates serverCache parsed) u = Some pu ->
     priority_class (Smart.candidates serverCache parsed) v = Some pv ->
     pu <= pv) /\
  (forall u c pu,
     u ∈ Smart.generateCandidates serverCache parsed ->
     c ∈ Smart.candidates serverCache parsed ->
     url c ∉ Smart.generateCandidates serverCache parsed ->
     priority_class (Smart.candidates serverCache parsed) u = Some pu ->
     pu <= priority c).
Proof.
  pose proof (finish_candidates_spec Smart.MAX_ATTEMPTS (Smart.candidates serverCache parsed))
    as (H1 & H2 & H3 & H4 & H5).
  repeat split; done.
Qed.

(** ** The worked example *)

(** In the revision restricted to [k] and [n], the entry after the
    reliable-prefix substitution is an index variant, not another prefix
    letter: the list does not have the shape of the example. *)
Lemma Strict_k03_not_example_shape :
  parseSubdomain k03_src = Some k03 /\
  ~ example_shape k03 (Strict.generateCandidates ∅ k03).
Proof.
  split; [reflexivity|].
  intros (others & sweep & mirrors & Heq & Ho & _ & _ & Hf & _).
  destruct others as [|o os]; [done|].
  assert (Strict.generateCandidates ∅ k03 !! 1
          = Some ("https://n00.mbdny.org/a/b/c/1.jpg" : str)) as H1 by (by vm_compute).
  rewrite Heq in H1. injection H1 as ->.
  by vm_compute in Hf.
Qed.

(** C7, amended. For the address [https://k03.mbdny.org/a/b/c/1.jpg] and an
    empty success cache, the revision with every prefix letter returns
    [https://n03.mbdny.org/a/b/c/1.jpg] first, then the other prefixes at
    index 03, then the index variants of [k], then mirror roots, up to 30
    entries; the revision restricted to [k] and [n] returns
    [https://n03.mbdny.org/a/b/c/1.jpg] and then only the index variants
    [n00] to [n14], 15 entries. *)
Theorem generateCandidates_k03 :
  parseSubdomain k03_src = Some k03 /\
  example_shape k03 (Smart.generateCandidates ∅ k03) /\
  Smart.generateCandidates ∅ k03 =
    render_url "n" 3 "mbdny" "org" (path k03)
    :: ((fun p : string => render_url p 3 "mbdny" "org" (path k03))
          <$> ["x"; "t"; "s"; "w"; "m"; "c"; "u"]%string)
    ++ ((fun i => render_url "k" i "mbdny" "org" (path k03)) <$> [0; 1; 2; 4; 5])
    ++ mjoin ((fun rt : string * string =>
                 [render_url "k" 3 rt.1 rt.2 (path k03);
                  render_url "n" 3 rt.1 rt.2 (path k03)])
              <$> [("mbrtz", "org"); ("bato", "to"); ("mbwbm", "org"); ("mbznp", "org");
                   ("mbqgu", "org"); ("mpfip", "org"); ("mpizz", "org");
                   ("mpmok", "org")]%string)
    ++ [render_url "k" 3 "mpqom" "org" (path k03)] /\
  Strict.generateCandidates ∅ k03 =
    render_url "n" 3 "mbdny" "org" (path k03)
    :: ((fun i => render_url "n" i "mbdny" "org" (path k03))
          <$> [0; 1; 2; 4; 5; 6; 7; 8; 9; 10; 11; 12; 13; 14]).
Proof.
  split; [reflexivity|]. split; [|split; by vm_compute].
  exists ((fun p : string => render_url p 3 "mbdny" "org" (path k03))
            <$> ["x"; "t"; "s"; "w"; "m"; "c"; "u"]%string),
         ((fun i => render_url "k" i "mbdny" "org" (path k03)) <$> [0; 1; 2; 4; 5]),
         (drop 13 (Smart.generateCandidates ∅ k03)).
  by vm_compute.
Qed.

(** ** Only [k] and [n] hosts in the restricted revision *)

Lemma String_of_head n :
  exists d rest, String_of n = d :: rest /\ is_digit d = true.
Proof.
  unfold String_of.
  assert (Nat.to_uint n <> Decimal.Nil) as Hn.
  { rewrite <- (Unsigned.of_to n) at 1.
    rewrite Unsigned.to_of. apply unorm_nonnil. }
  destruct (Nat.to_uint n); [done|..]; simpl; eexists _, _; split; reflexivity.
Qed.

Lemma render_url_head p n r t pth :
  exists d rest, is_digit d = true /\ render_url p n r t pth = "https://" ++ p ++ d :: rest.
Proof.
  destruct (String_of_head n) as (d & rest & Hs & Hd).
  unfold render_url, render_base, padStart0. rewrite Hs.
  destruct (2 - length (d :: rest)) as [|k] eqn:Hk; simpl replicate.
  - exists d. eexists. split; [done|]. rewrite <- !app_assoc. reflexivity.
  - exists "0"%char. eexists. split; [done|]. rewrite <- !app_assoc. reflexivity.
Qed.

Lemma Strict_add_dropped parsed (p : str) n r t prio c :
  p <> "k" -> p <> "n" -> Strict.add parsed p n r t prio c = c.
Proof.
  intros Hk Hn. unfold Strict.add, str_eqb. by rewrite !bool_decide_eq_false_2.
Qed.

Lemma Strict_add_k_or_n parsed p n r t prio c :
  Forall (fun x => k_or_n_url (path parsed) (url x)) c ->
  Forall (fun x => k_or_n_url (path parsed) (url x)) (Strict.add parsed p n r t prio c).
Proof.
  intros Hc. unfold Strict.add, str_eqb.
  destruct (decide (p = "k")) as [Hk|Hk], (decide (p = "n")) as [Hn|Hn];
    rewrite ?(bool_decide_eq_true_2 _ Hk), ?(bool_decide_eq_true_2 _ Hn),
            ?(bool_decide_eq_false_2 _ Hk), ?(bool_decide_eq_false_2 _ Hn);
    cbn [negb andb]; try done;
    (apply Forall_app; split; [done|]; apply Forall_singleton; cbn [url];
     destruct (render_url_head p n r t (path parsed)) as (d & rest & Hd & Hr);
     exists p, n, r, t, d, rest; tauto).
Qed.

Lemma fold_left_invariant {A T} (P : T -> Prop) (f : T -> A -> T) (l : list A) (s : T) :
  P s -> (forall s x, P s -> P (f s x)) -> P (fold_left f l s).
Proof. intros Hs Hf. revert s Hs. induction l; simpl; auto. Qed.

Lemma Strict_candidates_k_or_n cache parsed :
  Forall (fun x => k_or_n_url (path parsed) (url x)) (Strict.candidates cache parsed).
Proof.
  unfold Strict.candidates, forEach, for_range.
  apply fold_left_invariant.
  2:{ intros s x Hs. destruct (_ && _); [by apply Strict_add_k_or_n | done]. }
  apply fold_left_invariant.
  2:{ intros s x Hs. destruct (negb _); [by apply Strict_add_k_or_n | done]. }
  destruct (str_eqb (prefix parsed) "k"); apply Strict_add_k_or_n;
    (destruct (cache !! group_key parsed); [apply Strict_add_k_or_n|]; constructor).
Qed.

Lemma src_apply_srcset u i :
  src (apply_srcset u i) = src i /\ originalSrc (apply_srcset u i) = originalSrc i /\
  batoFixing (apply_srcset u i) = batoFixing i.
Proof.
  unfold apply_srcset. destruct (truthy (srcset i)); [|done].
  destruct (rewriteSrcset _ _) as [ns|]; [|done]. by destruct (truthy ns).
Qed.

Lemma apply_swap_fields newUrl img :
  src (apply_swap newUrl img) = newUrl /\
  originalSrc (apply_swap newUrl img) = Some (src img).
Proof.
  unfold apply_swap. cbn [src originalSrc set_batoPreemptive].
  destruct (truthy _); [|done].
  destruct (src_apply_srcset newUrl
              (set_originalSrcset (srcset (set_src newUrl (set_referrerPolicy "no-referrer"
                 (set_originalSrc (src img) img))))
                 (set_src newUrl (set_referrerPolicy "no-referrer"
                    (set_originalSrc (src img) img))))) as (-> & -> & _).
  done.
Qed.

(** C10. In the revision of lines 1-364, every URL that
    [generateCandidates] returns is rendered with the prefix [k] or [n] (the
    letters after the scheme, up to the first digit, are [k] or [n]); [add]
    pushes nothing for any other prefix, so that a success-cache entry with
    another prefix leaves the list as it is without the entry; and a swap
    by [preemptiveFix] sets an address with prefix [k] or [n], a cached
    prefix other than these being replaced by [n], the other cached fields
    being kept. *)
Theorem Strict_only_k_and_n (cache : gmap str CacheEntry) (parsed : Address) :
  (forall u, u ∈ Strict.generateCandidates cache parsed -> k_or_n_url (path parsed) u) /\
  (forall (p : str) n r t prio c,
     p <> "k" -> p <> "n" -> Strict.add parsed p n r t prio c = c) /\
  (forall cached,
     cache !! group_key parsed = Some cached ->
     c_prefix cached <> "k" -> c_prefix cached <> "n" ->
     Strict.generateCandidates cache parsed
     = Strict.generateCandidates (delete (group_key parsed) cache) parsed) /\
  (forall img w img',
     Strict.preemptiveFix img w = (img', true) ->
     exists a (p : str) n r t,
       parseSubdomain (src img) = Some a /\ prefix a = "k" /\
       (p = "k" \/ p = "n") /\
       src img' = render_url p n r t (path a) /\
       originalSrc img' = Some (src img) /\
       match serverCache w !! group_key a with
       | Some cached =>
           n = c_number cached /\ r = c_root cached /\ t = c_tld cached /\
           (p = c_prefix cached \/
            (c_prefix cached <> "k" /\ c_prefix cached <> "n" /\ p = "n"))
       | None => p = "n" /\ n = number a /\ r = root a /\ t = tld a
       end).
Proof.
  split; [|split; [|split]].
  - intros u Hu.
    destruct (finish_candidates_spec Strict.MAX_ATTEMPTS (Strict.candidates cache parsed))
      as (_ & _ & Hin & _).
    destruct (Hin u Hu) as (c & Hc & <-).
    pose proof (Strict_candidates_k_or_n cache parsed) as Hall.
    rewrite Forall_forall in Hall. by apply Hall.
  - intros. by apply Strict_add_dropped.
  - intros cached Hc Hk Hn. unfold Strict.generateCandidates, Strict.candidates.
    cbv zeta. rewrite Hc, lookup_delete_eq.
    by rewrite (Strict_add_dropped parsed (c_prefix cached) _ _ _ 0 []).
  - intros img w img'. unfold Strict.preemptiveFix, preemptiveFix.
    destruct (parseSubdomain (src img)) as [a|] eqn:Ha; [|done].
    unfold str_eqb at 1. case_bool_decide as Hpk; [|done]. cbn [negb].
    destruct (serverCache w !! group_key a) as [cached|] eqn:Hc.
    + cbn [andb]. unfold str_eqb.
      destruct (decide (c_prefix cached = "k")) as [Hk|Hk],
               (decide (c_prefix cached = "n")) as [Hn|Hn];
        rewrite ?(bool_decide_eq_true_2 _ Hk), ?(bool_decide_eq_true_2 _ Hn),
                ?(bool_decide_eq_false_2 _ Hk), ?(bool_decide_eq_false_2 _ Hn);
        cbn [negb andb]; intros [= <-].
      1,2,3: exists a, (c_prefix cached), (c_number cached), (c_root cached), (c_tld cached);
        (split; [done|]); (split; [done|]); (split; [tauto|]);
        (split; [apply apply_swap_fields|split; [apply apply_swap_fields|]]).
      1,2,3: rewrite Hc; repeat split; by left.
      exists a, ("n" : str), (c_number cached), (c_root cached), (c_tld cached).
      (split; [done|]); (split; [done|]); (split; [by right|]).
      (split; [apply apply_swap_fields|split; [apply apply_swap_fields|]]).
      rewrite Hc. repeat split. by right.
    + cbn [andb negb str_eqb]. intros [= <-].
      exists a, ("n" : str), (number a), (root a), (tld a).
      (split; [done|]); (split; [done|]). split; [by right|].
      split; [apply apply_swap_fields|]. split; [apply apply_swap_fields|].
      rewrite Hc. by repeat split.
Qed.

(** ** The host cluster of a URL *)

Lemma split_app_sep sep (a b : str) :
  sep ∉ a -> split sep (a ++ sep :: b) = a :: split sep b.
Proof.
  induction a as [|c a IH]; intros Ha; cbn [split app].
  - by rewrite bool_decide_eq_true_2.
  - rewrite bool_decide_eq_false_2 by set_solver. rewrite IH by set_solver. done.
Qed.

Lemma string_of_uint_digits d :
  forallb is_digit (list_ascii_of_string (NilEmpty.string_of_uint d)) = true.
Proof. induction d; cbn; done. Qed.

Lemma padded_index_digits n : forallb is_digit (padStart0 2 (String_of n)) = true.
Proof.
  unfold padStart0. rewrite forallb_app. apply andb_true_iff. split.
  - induction (2 - length (String_of n)) as [|k IH]; [done | by cbn].
  - apply string_of_uint_digits.
Qed.

Lemma no_slash_class (p : ascii -> bool) (s : str) :
  p "/"%char = false -> forallb p s = true -> "/"%char ∉ s.
Proof.
  intros Hp Hs Hin. rewrite forallb_forall in Hs.
  apply list_elem_of_In in Hin. apply Hs in Hin. congruence.
Qed.

(** [url.split('/').slice(0, 3).join('/')] of a rendered URL is its
    scheme and host. *)
Lemma first3_render_url (p : str) n (r t rest : str) :
  "/"%char ∉ p -> "/"%char ∉ r -> "/"%char ∉ t ->
  first3 (render_url p n r t ("/"%char :: rest)) = render_base p n r t.
Proof.
  intros Hp Hr Ht. unfold first3, render_url, render_base.
  set (host := p ++ padStart0 2 (String_of n) ++ "." ++ r ++ "." ++ t).
  assert ("/"%char ∉ host) as Hhost.
  { unfold host. rewrite !elem_of_app. intros [?|[Hd|[Hd|[?|[Hd|?]]]]]; try done.
    - by apply (no_slash_class is_digit _ eq_refl (padded_index_digits n)) in Hd.
    - by apply list_elem_of_singleton in Hd.
    - by apply list_elem_of_singleton in Hd. }
  replace (("https://" : str) ++ p ++ padStart0 2 (String_of n) ++ "." ++ r ++ "." ++ t)
    with (("https://" : str) ++ host) by done.
  replace ((("https://" : str) ++ host) ++ "/"%char :: rest)
    with (("https:" : str) ++ "/"%char :: ([] ++ "/"%char :: (host ++ "/"%char :: rest))).
  2:{ reflexivity. }
  rewrite split_app_sep by compute_done.
  rewrite split_app_sep by set_solver.
  rewrite split_app_sep by done.
  done.
Qed.

Lemma first3_render s a :
  parseSubdomain s = Some a ->
  first3 (render a) = render_base (prefix a) (number a) (root a) (tld a).
Proof.
  intros (g & [_ [_ Hl1] _ [_ Hl3] Htld (rest & Hp & _)] & ->)%parseSubdomain_Some.
  unfold render, address_of. cbn [prefix number root tld path]. rewrite Hp.
  apply first3_render_url.
  - apply (no_slash_class is_letter _ eq_refl).
    apply forallb_toLowerCase; [|done]. intros c Hc. by apply lower_is_letter, lower_char_letter.
  - apply (no_slash_class is_root_char _ eq_refl).
    apply forallb_toLowerCase; [|done]. intros c Hc. by apply lower_char_root.
  - unfold TLDS in Htld. rewrite !elem_of_cons, elem_of_nil in Htld.
    destruct Htld as [->|[->|[->|[]]]]; compute_done.
Qed.

(** ** The fuel of the replacement in srcset *)

Lemma strip_ci_length lit s r : strip_ci lit s = Some r -> length s = length lit + length r.
Proof.
  intros (t & -> & <-)%strip_ci_sound. by rewrite length_app, toLowerCase_length.
Qed.

Lemma span_length p s a b : span p s = (a, b) -> length s = length a + length b.
Proof. intros (-> & _)%span_spec. apply length_app. Qed.

(** A match of the host pattern is not empty. *)
Lemma re_host_shorter lo hi s g rest :
  re_host lo hi s = Some (g, rest) -> length rest < length s.
Proof.
  unfold re_host. intros H.
  destruct (strip_ci "http" s) as [s1|] eqn:E1; [|done]. cbn [mbind option_bind] in H.
  apply strip_ci_length in E1. cbn [length list_ascii_of_string] in E1.
  assert (length (default s1 (strip_ci "s" s1)) <= length s1) as E2.
  { destruct (strip_ci "s" s1) as [s1'|] eqn:Es; cbn; [|lia].
    apply strip_ci_length in Es. lia. }
  destruct (strip_ci "://" _) as [s3|] eqn:E3; [|done]. cbn [mbind option_bind] in H.
  apply strip_ci_length in E3.
  destruct (span is_letter s3) as [g1 s4] eqn:E4. apply span_length in E4.
  case_bool_decide as Eg1; [done|].
  destruct (span is_digit s4) as [g2 s5] eqn:E5. apply span_length in E5.
  destruct (negb _); [done|].
  destruct (strip_ci "." s5) as [s6|] eqn:E6; [|done]. cbn [mbind option_bind] in H.
  apply strip_ci_length in E6.
  destruct (span is_root_char s6) as [g3 s7] eqn:E7. apply span_length in E7.
  case_bool_decide as Eg3; [done|].
  destruct (strip_ci "." s7) as [s8|] eqn:E8; [|done]. cbn [mbind option_bind] in H.
  apply strip_ci_length in E8.
  destruct (strip_alt TLDS s8) as [[g4 s9]|] eqn:E9; [|done]. cbn [mbind option_bind] in H.
  apply strip_alt_sound in E9 as [-> _]. rewrite length_app in E8.
  injection H as _ <-. lia.
Qed.

(** Any fuel from the length of the string on gives the same result: the
    replacement is never cut short. *)
Lemma replace_hosts_fuel n newBase s f1 f2 :
  length s <= n -> length s <= f1 -> length s <= f2 ->
  replace_hosts f1 newBase s = replace_hosts f2 newBase s.
Proof.
  revert s f1 f2. induction n as [|n IH]; intros s f1 f2 Hn H1 H2.
  - destruct s; [|cbn in Hn; lia]. by destruct f1, f2.
  - destruct s as [|c r]; [by destruct f1, f2|].
    destruct f1 as [|f1]; [cbn in H1; lia|]. destruct f2 as [|f2]; [cbn in H2; lia|].
    cbn [replace_hosts]. cbn [length] in *.
    destruct (re_host 1 3 (c :: r)) as [[g rest]|] eqn:Hm.
    + apply re_host_shorter in Hm. cbn [length] in Hm. f_equal. apply IH; lia.
    + f_equal. apply IH; lia.
Qed.

(** ** probeUrl and the failure cache *)

Lemma probeUrl_cached u timeout w :
  first3 u ∈ failedCache w -> probeUrl u timeout w = (w, inl (Rejected r_cached_fail)).
Proof. intros H. unfold probeUrl. by rewrite bool_decide_eq_true_2. Qed.

Lemma probeUrl_fresh u timeout w :
  first3 u ∉ failedCache w ->
  probeUrl u timeout w
  = (set_net (net w ++ [u]) w, inr (mkProbe u (first3 u) timeout false false)).
Proof. intros H. unfold probeUrl. by rewrite bool_decide_eq_false_2. Qed.

Lemma probe_event_settled ev p w p' w' s :
  probe_event ev p w = (p', w', Some s) ->
  net w' = net w /\ serverCache w' = serverCache w /\
  processingImages w' = processingImages w /\ timers w' = timers w /\
  p_url p' = p_url p /\
  match s with
  | Resolved =>
      failedCache w' = failedCache w /\
      exists width height, ev = Loaded width height /\ (1 < width \/ 1 < height)
  | Rejected e =>
      failedCache w' = {[p_cacheKey p]} ∪ failedCache w /\
      match e with
      | r_timeout => ev = TimerFired
      | r_error => ev = Errored
      | r_empty => exists width height, ev = Loaded width height /\ width <= 1 /\ height <= 1
      | r_cached_fail => False
      end
  end.
Proof.
  unfold probe_event. destruct ev as [|width height|].
  - destruct (timerCleared p); [done|]. intros [= <- <- <-]. by repeat split.
  - destruct (timedOut p); [done|].
    destruct ((1 <? width) || (1 <? height)) eqn:Hd; intros [= <- <- <-]; repeat split.
    + exists width, height. split; [done|].
      apply orb_true_iff in Hd as [?%Nat.ltb_lt|?%Nat.ltb_lt]; lia.
    + exists width, height. split; [done|].
      apply orb_false_iff in Hd as [?%Nat.ltb_ge ?%Nat.ltb_ge]. lia.
  - destruct (timedOut p); [done|]. intros [= <- <- <-]. by repeat split.
Qed.

Lemma probe_event_unsettled ev p w p' w' :
  probe_event ev p w = (p', w', None) -> w' = w /\ p' = p.
Proof.
  unfold probe_event. destruct ev as [|width height|].
  - by destruct (timerCleared p); intros [= <- <-].
  - destruct (timedOut p); [by intros [= <- <-]|]. by destruct (_ || _).
  - by destruct (timedOut p); intros [= <- <-].
Qed.

(** On a probe that has just been started, every event settles the
    promise. *)
Lemma probe_event_fresh ev u key timeout w :
  probe_event ev (mkProbe u key timeout false false) w =
  match ev with
  | TimerFired =>
      (mkProbe u key timeout true true, set_failedCache ({[key]} ∪ failedCache w) w,
       Some (Rejected r_timeout))
  | Loaded width height =>
      if (1 <? width) || (1 <? height)
      then (mkProbe u key timeout false true, w, Some Resolved)
      else (mkProbe u key timeout false true, set_failedCache ({[key]} ∪ failedCache w) w,
            Some (Rejected r_empty))
  | Errored =>
      (mkProbe u key timeout false true, set_failedCache ({[key]} ∪ failedCache w) w,
       Some (Rejected r_error))
  end.
Proof. by destruct ev. Qed.

(** After the timer has run, the handlers of the abandoned image do
    nothing. *)
Lemma probe_event_after_timeout ev p w :
  timedOut p = true -> timerCleared p = true -> probe_event ev p w = (p, w, None).
Proof. intros H1 H2. unfold probe_event. rewrite H1, H2. by destruct ev. Qed.

Lemma probe_event_failedCache_mono ev p w :
  failedCache w ⊆ failedCache (probe_event ev p w).1.2.
Proof.
  unfold probe_event.
  destruct ev as [|width height|], (timerCleared p), (timedOut p);
    try destruct (_ || _); simpl; set_solver.
Qed.

(** ** The loop of fixImage *)

Section ResolverFacts.

Variable generateCandidates : gmap str CacheEntry -> Address -> list str.
Variable probe_timeout : nat -> nat.
Variable abort_after : nat.

Lemma fail_pass_spec id isRetry how le img w img' w' st :
  fail_pass id isRetry how le img w = (img', w', st) ->
  st = Return (ExitUnresolved how le) /\
  failedCache w' = failedCache w /\ serverCache w' = serverCache w /\
  net w' = net w /\ processingImages w' = processingImages w ∖ {[id]} /\
  src img' = src img /\ srcset img' = srcset img /\
  (if negb isRetry && bool_decide (le = Some r_timeout)
   then timers w' = timers w ++ [id] /\ batoFixing img' = Some ("retry" : str)
   else timers w' = timers w /\ batoFixing img' = Some ("failed" : str)).
Proof.
  unfold fail_pass. destruct (negb isRetry && bool_decide (le = Some r_timeout));
    intros [= <- <- <-]; by repeat split.
Qed.

(** The loop, entered at index [i] with [rest] the candidates from [i]
    on: it skips the candidates whose host is in the failure cache, and
    either starts the probe of the first other one, or, when there is
    none, goes to the failure handling with [lastError] as it was. *)
Lemma fix_loop_spec id isRetry parsed cands rest i le img w img' w' st :
  fix_loop probe_timeout abort_after id isRetry parsed cands rest i le img w
    = (img', w', st) ->
  (exists skipped u later,
     rest = skipped ++ u :: later /\
     Forall (fun x => first3 x ∈ failedCache w) skipped /\
     (first3 u ∉ failedCache w) /\
     img' = img /\ w' = set_net (net w ++ [u]) w /\
     st = Await (mkTask id isRetry parsed cands (i + length skipped) le
                   (mkProbe u (first3 u) (probe_timeout (i + length skipped)) false false)))
  \/
  (Forall (fun x => first3 x ∈ failedCache w) rest /\
   fail_pass id isRetry Exhausted le img w = (img', w', st)).
Proof.
  revert i. induction rest as [|u rest IH]; intros i; cbn [fix_loop].
  - intros H. right. by split.
  - case_bool_decide as Hu.
    + intros [(skipped & u' & later & -> & Hs & Hu' & -> & -> & ->)|[Hall Hf]]%IH.
      * left. exists (u :: skipped), u', later.
        replace (i + length (u :: skipped)) with (S i + length skipped) by (simpl; lia).
        repeat split; try done. by constructor.
      * right. split; [by constructor | done].
    + rewrite (probeUrl_fresh _ _ _ Hu). intros [= <- <- <-].
      left. exists [], u, rest. cbn [length]. rewrite Nat.add_0_r.
      by repeat split.
Qed.

End ResolverFacts.

Lemma retry_rule_timers id isRetry w1 w r :
  timers w1 = timers w -> retry_rule id isRetry w1 r -> retry_rule id isRetry w r.
Proof.
  intros Htm. destruct r as [[img' w'] [[| | |how le]|t]]; cbn; rewrite ?Htm; done.
Qed.

Section StepFacts.

Variable generateCandidates : gmap str CacheEntry -> Address -> list str.
Variable probe_timeout : nat -> nat.
Variable abort_after : nat.

Local Abbreviation fix_loop_ := (fix_loop probe_timeout abort_after).
Local Abbreviation fixImage_ := (fixImage generateCandidates probe_timeout abort_after).
Local Abbreviation deliver_ := (deliver probe_timeout abort_after).
Local Abbreviation resume_ := (resume probe_timeout abort_after).
Local Abbreviation retry_callback_ := (retry_callback generateCandidates probe_timeout abort_after).

(** What a run of the loop leaves behind. *)
Lemma fix_loop_summary id isRetry parsed cands rest i le img w img' w' st :
  fix_loop_ id isRetry parsed cands rest i le img w = (img', w', st) ->
  failedCache w' = failedCache w /\ serverCache w' = serverCache w /\
  src img' = src img /\ srcset img' = srcset img /\
  retry_rule id isRetry w (img', w', st) /\
  match st with
  | Await t =>
      img' = img /\ processingImages w' = processingImages w /\
      t_img t = id /\ t_parsed t = parsed /\ t_candidates t = cands /\
      t_lastError t = le /\ i <= t_i t /\
      rest !! (t_i t - i) = Some (p_url (t_probe t)) /\
      net w' = net w ++ [p_url (t_probe t)] /\
      (p_cacheKey (t_probe t) ∉ failedCache w) /\
      t_probe t = mkProbe (p_url (t_probe t)) (first3 (p_url (t_probe t)))
                    (probe_timeout (t_i t)) false false
  | Return e =>
      e = ExitUnresolved Exhausted le /\ net w' = net w /\
      processingImages w' = processingImages w ∖ {[id]} /\
      Forall (fun x => first3 x ∈ failedCache w) rest
  end.
Proof.
  intros [(skipped & u & later & -> & Hs & Hu & -> & -> & ->)|[Hall Hf]]%fix_loop_spec.
  - repeat split; try done; cbn.
    + lia.
    + replace (i + length skipped - i) with (length skipped) by lia.
      by rewrite list_lookup_middle.
  - pose proof (fail_pass_spec _ _ _ _ _ _ _ _ _ Hf)
      as (-> & H1 & H2 & H3 & H4 & H5 & H6 & H7).
    repeat split; try done.
Qed.

Lemma succeed_summary id parsed u img w img' w' st :
  succeed id parsed u img w = (img', w', st) ->
  st = Return (ExitSuccess u) /\ failedCache w' = failedCache w /\
  timers w' = timers w /\ net w' = net w /\
  processingImages w' = processingImages w ∖ {[id]} /\
  src img' = u /\ batoFixing img' = Some ("done" : str).
Proof.
  unfold succeed. intros [= <- <- <-].
  split; [done|]. split; [by destruct (parseSubdomain u)|].
  split; [by destruct (parseSubdomain u)|]. split; [by destruct (parseSubdomain u)|].
  split; [by destruct (parseSubdomain u)|].
  cbn [src batoFixing set_batoFixed set_batoFixing].
  split; [|done]. by rewrite (proj1 (src_apply_srcset _ _)).
Qed.

(** The three ways through the entry of [fixImage]. *)
Lemma fixImage_cases id isRetry img w :
  (fixImage_ id isRetry img w = (img, w, Return ExitGuard) /\
   (id ∈ processingImages w \/ batoFixing img = Some ("done" : str) \/
    (batoFixing img = Some ("true" : str) /\ isRetry = false)))
  \/
  ((id ∉ processingImages w) /\ parseSubdomain (src img) = None /\
   fixImage_ id isRetry img w
   = (set_batoFixing "true" img,
      set_processingImages (({[id]} ∪ processingImages w) ∖ {[id]})
        (set_processingImages ({[id]} ∪ processingImages w) w),
      Return ExitNoParse))
  \/
  ((id ∉ processingImages w) /\
   exists parsed, parseSubdomain (src img) = Some parsed /\
     fixImage_ id isRetry img w
     = fix_loop_ id isRetry parsed
         (generateCandidates (serverCache w) parsed)
         (generateCandidates (serverCache w) parsed) 0 None
         (set_batoFixing "true" img)
         (set_processingImages ({[id]} ∪ processingImages w) w)).
Proof.
  unfold fixImage.
  case_bool_decide as Hin; [left; split; [done | by left]|].
  unfold is_str.
  destruct (bool_decide (batoFixing img = Some ("done" : str))) eqn:Hd.
  { apply bool_decide_eq_true in Hd. left. split; [done|]. right. by left. }
  destruct (bool_decide (batoFixing img = Some ("true" : str))) eqn:Ht, isRetry;
    cbn [orb andb negb].
  2:{ apply bool_decide_eq_true in Ht. left. split; [done|]. right. by right. }
  all: cbn [src set_batoFixing];
    destruct (parseSubdomain (src img)) as [parsed|] eqn:Hp;
    [right; right; split; [done|]; by exists parsed | right; left; by repeat split].
Qed.

(** What any step of a suspended call leaves behind. *)
Lemma deliver_summary ev t img w img' w' st :
  deliver_ ev t img w = (img', w', st) ->
  failedCache w ⊆ failedCache w' /\
  retry_rule (t_img t) (t_isRetry t) w (img', w', st) /\
  match st with
  | Await t' => t_img t' = t_img t /\ processingImages w' = processingImages w
  | Return e => e <> ExitGuard /\ processingImages w' = processingImages w ∖ {[t_img t]}
  end /\
  (forall i le, st = Return (ExitUnresolved (Broke i) le) ->
     i = t_i t /\ abort_after < i /\ le = Some r_timeout /\ ev = TimerFired).
Proof.
  unfold deliver.
  destruct (probe_event ev (t_probe t) w) as [[p w1] [s|]] eqn:He.
  - apply probe_event_settled in He as (Hnet & Hsc & Hpi & Htm & Hurl & Hs).
    destruct s as [|e]; cbn [resume].
    + destruct Hs as [Hfc _].
      intros (-> & Hfc' & Htm' & _ & Hpi' & _)%succeed_summary.
      split; [set_solver|]. split; [cbn; congruence|]. split; [|done].
      split; [done | by rewrite Hpi', Hpi].
    + destruct Hs as [Hfc He]. unfold catch_error.
      destruct (bool_decide (e = r_timeout) && (abort_after <? t_i t)) eqn:Hc.
      * apply andb_true_iff in Hc as [->%bool_decide_eq_true Hi%Nat.ltb_lt].
        intros (-> & Hfc' & _ & _ & Hpi' & _ & _ & Hr)%fail_pass_spec.
        split; [set_solver|]. split; [by apply (retry_rule_timers _ _ w1)|].
        split; [split; [done | by rewrite Hpi', Hpi]|].
        by intros i le [= <- <-].
      * intros (Hfc' & _ & _ & _ & Hr & Hst)%fix_loop_summary.
        split; [set_solver|]. split; [by apply (retry_rule_timers _ _ w1)|].
        destruct st as [ex|t'].
        -- destruct Hst as (-> & _ & Hpi' & _).
           split; [split; [done | by rewrite Hpi', Hpi]|]. by intros i le [=].
        -- destruct Hst as (_ & Hpi' & Hid & _).
           split; [split; [done | by rewrite Hpi', Hpi]|]. done.
  - apply probe_event_unsettled in He as [-> ->]. intros [= <- <- <-].
    split; [done|]. split; [by cbn|]. split; [by cbn|]. done.
Qed.

(** What any entry into [fixImage] leaves behind. *)
Lemma fixImage_summary id isRetry img w img' w' st :
  fixImage_ id isRetry img w = (img', w', st) ->
  failedCache w' = failedCache w /\ serverCache w' = serverCache w /\
  src img' = src img /\ srcset img' = srcset img /\
  retry_rule id isRetry w (img', w', st) /\
  match st with
  | Await t =>
      (id ∉ processingImages w) /\ t_img t = id /\
      processingImages w' = {[id]} ∪ processingImages w
  | Return ExitGuard => img' = img /\ w' = w
  | Return e =>
      (id ∉ processingImages w) /\ processingImages w' = processingImages w /\
      forall i le, e <> ExitUnresolved (Broke i) le
  end.
Proof.
  destruct (fixImage_cases id isRetry img w)
    as [[-> _]|[(Hin & Hp & ->)|(Hin & parsed & Hp & ->)]].
  - intros [= <- <- <-]. by repeat split.
  - intros [= <- <- <-]. repeat split; try done; cbn. set_solver.
  - intros (Hfc & Hsc & Hsrc & Hss & Hr & Hst)%fix_loop_summary.
    repeat split; try done.
    destruct st as [ex|t'].
    + destruct Hst as (-> & _ & Hpi & _). cbn in Hpi.
      split; [done|]. split; [set_solver|]. by intros i le [=].
    + destruct Hst as (-> & Hpi & Hid & _). by repeat split.
Qed.

End StepFacts.

Section PageFacts.

Variable generateCandidates : gmap str CacheEntry -> Address -> list str.
Variable probe_timeout : nat -> nat.
Variable abort_after : nat.

Local Abbreviation fixImage_ := (fixImage generateCandidates probe_timeout abort_after).
Local Abbreviation deliver_ := (deliver probe_timeout abort_after).
Local Abbreviation retry_callback_ :=
  (retry_callback generateCandidates probe_timeout abort_after).
Local Abbreviation sys_step_ := (sys_step generateCandidates probe_timeout abort_after).
Local Abbreviation sys_run_ := (sys_run generateCandidates probe_timeout abort_after).
Local Abbreviation run_ := (run probe_timeout abort_after).

(** The retry rule holds of a call followed through any events of its
    probes. *)
Lemma run_retry_rule evs id isRetry w r :
  retry_rule id isRetry w r -> retry_rule id isRetry w (run_ evs r).
Proof.
  revert r. induction evs as [|ev evs IH]; intros [[img' w'] st] Hr; [done|].
  destruct st as [e|t]; [done|]. cbn [run].
  apply IH. destruct Hr as (Htm & <- & <-).
  destruct (deliver_ ev t img' w') as [[img2 w2] st2] eqn:Hd.
  apply deliver_summary in Hd as (_ & Hr & _).
  by apply (retry_rule_timers _ _ w').
Qed.

Lemma run_failedCache_mono evs img w st :
  failedCache w ⊆ failedCache (run_ evs (img, w, st)).1.2.
Proof.
  revert img w st. induction evs as [|ev evs IH]; intros img w st; [done|].
  destruct st as [e|t]; [done|]. cbn [run].
  destruct (deliver_ ev t img w) as [[img2 w2] st2] eqn:Hd.
  apply deliver_summary in Hd as (Hfc & _). specialize (IH img2 w2 st2). set_solver.
Qed.

Lemma commit_fixImage_inv s id isRetry img :
  sys_inv s ->
  sys_inv (commit id (fixImage_ id isRetry img (world s)) s (tasks s)).
Proof.
  intros [Hnd Hpi].
  destruct (fixImage_ id isRetry img (world s)) as [[img' w'] st] eqn:Hf.
  apply fixImage_summary in Hf as (_ & _ & _ & _ & _ & Hst).
  unfold commit, sys_inv. cbn [tasks world]. destruct st as [e|t].
  - assert (processingImages w' = processingImages (world s)) as Hpi'.
    { destruct e; [by destruct Hst as [_ ->] | by destruct Hst as (_ & -> & _)..]. }
    split; [done|]. intros t Ht. rewrite Hpi'. by apply Hpi.
  - destruct Hst as (Hin & Hid & Hpi'). split.
    + rewrite fmap_app. apply NoDup_app. split; [done|]. split; [|apply NoDup_singleton].
      intros x (t' & -> & Ht')%list_elem_of_fmap. cbn. rewrite Hid.
      intros Heq%list_elem_of_singleton. apply Hin. rewrite <- Heq. by apply Hpi.
    + intros t' [Ht'|Ht']%elem_of_app; rewrite Hpi'.
      * apply elem_of_union_r. by apply Hpi.
      * apply list_elem_of_singleton in Ht'. rewrite Ht', Hid. set_solver.
Qed.

Lemma tasks_find_split (l : list Task) id k t :
  list_find (fun t => t_img t = id) l = Some (k, t) ->
  NoDup (t_img <$> l) ->
  t_img t = id /\ t ∈ l /\ NoDup (t_img <$> delete k l) /\
  (forall t', t' ∈ delete k l -> t' ∈ l /\ t_img t' <> id).
Proof.
  intros (Hk & Hid & _)%list_find_Some Hnd.
  split; [done|]. split; [by eapply list_elem_of_lookup_2|].
  rewrite delete_take_drop.
  pose proof (take_drop_middle l k t Hk) as Hl.
  remember (take k l) as l1 eqn:E1. remember (drop (S k) l) as l2 eqn:E2.
  clear E1 E2 Hk. subst l.
  rewrite fmap_app, fmap_cons in Hnd.
  apply NoDup_app in Hnd as (Hn1 & Hdisj & [Hnt Hn2]%NoDup_cons).
  split.
  - rewrite fmap_app. apply NoDup_app. split; [done|]. split; [|done].
    intros x Hx Hx2. apply (Hdisj x Hx). by right.
  - intros t' [Ht'|Ht']%elem_of_app; (split; [set_solver|]); intros Heq.
    + apply (Hdisj (t_img t')); [by apply list_elem_of_fmap_2|].
      rewrite Heq, <- Hid. left.
    + apply Hnt. rewrite Hid, <- Heq. by apply list_elem_of_fmap_2.
Qed.

Lemma sys_step_inv e s : sys_inv s -> sys_inv (sys_step_ e s).
Proof.
  intros Hinv. destruct e as [id isRetry|id ev|k|id f]; cbn [sys_step].
  - destruct (imgs s !! id) as [img|]; [|done]. by apply commit_fixImage_inv.
  - destruct (list_find _ (tasks s)) as [[k t]|] eqn:Hfind; [|done].
    destruct (imgs s !! id) as [img|]; [|done].
    destruct Hinv as [Hnd Hpi].
    destruct (tasks_find_split _ _ _ _ Hfind Hnd) as (Hid & Ht & Hnd' & Hothers).
    destruct (deliver_ ev t img (world s)) as [[img' w'] st] eqn:Hd.
    apply deliver_summary in Hd as (_ & _ & Hst & _).
    unfold commit, sys_inv. cbn [tasks world]. destruct st as [e|t'].
    + destruct Hst as [_ Hpi']. split; [done|]. intros t' Ht'.
      destruct (Hothers t' Ht') as [Hin Hne]. rewrite Hpi'.
      apply elem_of_difference. split; [by apply Hpi|]. rewrite Hid. set_solver.
    + destruct Hst as [Hid' Hpi']. split.
      * rewrite fmap_app. apply NoDup_app. split; [done|]. split; [|apply NoDup_singleton].
        intros x (t2 & -> & Ht2)%list_elem_of_fmap. cbn. rewrite Hid', Hid.
        intros Heq%list_elem_of_singleton. by destruct (Hothers t2 Ht2).
      * intros t2 [Ht2|Ht2]%elem_of_app; rewrite Hpi'.
        -- apply Hpi. by destruct (Hothers t2 Ht2).
        -- apply list_elem_of_singleton in Ht2. rewrite Ht2, Hid'. by apply Hpi.
  - destruct (timers (world s) !! k) as [id|]; [|done].
    set (w := set_timers _ _).
    assert (sys_inv (mkSys w (imgs s) (tasks s))) as Hinv' by done.
    destruct (imgs s !! id) as [img|]; [|done].
    unfold retry_callback. destruct (complete img && _).
    + apply (commit_fixImage_inv (mkSys w (imgs s) (tasks s)) id true img Hinv').
    + done.
  - done.
Qed.

Lemma foldl_sys_step_inv events s :
  sys_inv s -> sys_inv (foldl (fun s e => sys_step_ e s) s events).
Proof.
  revert s. induction events as [|e events IH]; intros s Hs; [done|].
  cbn [foldl]. by apply IH, sys_step_inv.
Qed.

Lemma sys_run_inv events dom : sys_inv (sys_run_ events dom).
Proof.
  apply foldl_sys_step_inv. split; [constructor|]. by intros t ?%elem_of_nil.
Qed.

(** A call that the entry guard turns away changes nothing. *)
Lemma sys_step_guarded s id isRetry :
  (forall img, imgs s !! id = Some img ->
     id ∈ processingImages (world s) \/ batoFixing img = Some ("done" : str)) ->
  sys_step_ (Call id isRetry) s = s.
Proof.
  intros Hg. cbn [sys_step]. destruct (imgs s !! id) as [img|] eqn:Hi; [|done].
  assert (fixImage_ id isRetry img (world s) = (img, world s, Return ExitGuard)) as ->.
  { unfold fixImage. destruct (Hg img eq_refl) as [Hin|Hdone].
    - by rewrite bool_decide_eq_true_2.
    - case_bool_decide; [done|]. unfold is_str. by rewrite (bool_decide_eq_true_2 _ Hdone). }
  unfold commit. rewrite insert_id by done. by destruct s.
Qed.

Lemma sys_step_failedCache_mono e s :
  failedCache (world s) ⊆ failedCache (world (sys_step_ e s)).
Proof.
  destruct e as [id isRetry|id ev|k|id f]; cbn [sys_step].
  - destruct (imgs s !! id) as [img|]; [|done].
    destruct (fixImage_ id isRetry img (world s)) as [[img' w'] st] eqn:Hf.
    apply fixImage_summary in Hf as (Hfc & _). cbn. by rewrite Hfc.
  - destruct (list_find _ (tasks s)) as [[k t]|]; [|done].
    destruct (imgs s !! id) as [img|]; [|done].
    destruct (deliver_ ev t img (world s)) as [[img' w'] st] eqn:Hd.
    by apply deliver_summary in Hd as (Hfc & _).
  - destruct (timers (world s) !! k) as [id|]; [|done].
    destruct (imgs s !! id) as [img|]; [|done].
    unfold retry_callback. destruct (complete img && _); [|done].
    destruct (fixImage_ id true img _) as [[img' w'] st] eqn:Hf.
    apply fixImage_summary in Hf as (Hfc & _). cbn. by rewrite Hfc.
  - done.
Qed.

End PageFacts.

(** ** The claims about probing and resolving, on the revision of lines 1-364 *)

(** C4. [probeUrl] looks the host cluster of the candidate up in the
    failure cache first.  If it is there, the promise is rejected with
    ['cached-fail'] and the world is as it was: no image load is started and
    the failure cache is not touched.  If it is not, a load of the
    candidate is started; when the probe then ends in a timeout, a
    transport error or an image of at most 1x1, the host cluster is added
    to the failure cache, and when it ends in a success the cache is left as
    it is.  No step of the page ever takes an entry out of the failure
    cache.  The host cluster of an address of the family, as rendered for a
    candidate, is its scheme and host. *)
Theorem probeUrl_failure_cache (u : str) (timeout : nat) (w : World) :
  (first3 u ∈ failedCache w ->
     probeUrl u timeout w = (w, inl (Rejected r_cached_fail))) /\
  (first3 u ∉ failedCache w ->
     probeUrl u timeout w
     = (set_net (net w ++ [u]) w, inr (mkProbe u (first3 u) timeout false false))) /\
  (forall ev w0 p' w' s,
     probe_event ev (mkProbe u (first3 u) timeout false false) w0 = (p', w', Some s) ->
     net w' = net w0 /\
     match s with
     | Resolved => failedCache w' = failedCache w0
     | Rejected e => e <> r_cached_fail /\ failedCache w' = {[first3 u]} ∪ failedCache w0
     end) /\
  (forall w0,
     (probe_event TimerFired (mkProbe u (first3 u) timeout false false) w0).2
       = Some (Rejected r_timeout) /\
     (probe_event Errored (mkProbe u (first3 u) timeout false false) w0).2
       = Some (Rejected r_error) /\
     (forall width height,
        (probe_event (Loaded width height) (mkProbe u (first3 u) timeout false false) w0).2
        = Some (if (1 <? width) || (1 <? height) then Resolved else Rejected r_empty))) /\
  (forall ev p w0, failedCache w0 ⊆ failedCache (probe_event ev p w0).1.2) /\
  (forall e s, failedCache (world s) ⊆ failedCache (world (Strict.sys_step e s))) /\
  (forall s a, parseSubdomain s = Some a ->
     first3 (render a) = render_base (prefix a) (number a) (root a) (tld a)).
Proof.
  split; [apply probeUrl_cached|]. split; [apply probeUrl_fresh|].
  split; [|split; [|split; [|split; [|apply first3_render]]]].
  - intros ev w0 p' w' s (Hnet & _ & _ & _ & _ & Hs)%probe_event_settled.
    split; [done|]. destruct s as [|e]; [by destruct Hs|].
    destruct Hs as [Hfc He]. split; [|done]. by destruct e.
  - intros w0. repeat split. intros width height. rewrite probe_event_fresh.
    by destruct (_ || _).
  - apply probe_event_failedCache_mono.
  - intros e s. apply sys_step_failedCache_mono.
Qed.

(** ** A pass in which every probe fails *)

Lemma last_timeout (l : list ProbeEvent) :
  bool_decide (error_of <$> last l = Some r_timeout)
  = bool_decide (last l = Some TimerFired).
Proof. destruct (last l) as [[| |]|]; done. Qed.

Lemma failed_pass_more cands id isRetry w0 seen more img w e :
  failed_pass cands id isRetry w0 seen (img, w, Return e) ->
  failed_pass cands id isRetry w0 (seen ++ more) (img, w, Return e).
Proof.
  destruct e as [| |u|how le]; try done.
  intros (n & Hn & Hc & Hnet & Hle & Hrule). exists n.
  rewrite take_app_le by done. rewrite length_app. repeat split; try done. lia.
Qed.

Section RetryFacts.

Variable generateCandidates : gmap str CacheEntry -> Address -> list str.
Variable probe_timeout : nat -> nat.
Variable abort_after : nat.

Local Abbreviation fix_loop_ := (fix_loop probe_timeout abort_after).
Local Abbreviation fixImage_ := (fixImage generateCandidates probe_timeout abort_after).
Local Abbreviation deliver_ := (deliver probe_timeout abort_after).
Local Abbreviation resume_ := (resume probe_timeout abort_after).
Local Abbreviation run_ := (run probe_timeout abort_after).

(** The loop, entered at index [i] when the events [seen] have been
    consumed. *)
Lemma fix_loop_failed_pass id isRetry parsed cands i img w w0 seen :
  length seen <= i -> i <= length cands -> timers w = timers w0 ->
  length (net w) = length (net w0) + length seen ->
  failed_pass cands id isRetry w0 seen
    (fix_loop_ id isRetry parsed cands (drop i cands) i (error_of <$> last seen) img w).
Proof.
  intros Hseen Hi Htm Hnet.
  destruct (fix_loop_ id isRetry parsed cands (drop i cands) i (error_of <$> last seen) img w)
    as [[img' w'] st] eqn:Hf.
  apply fix_loop_summary in Hf as (_ & _ & _ & _ & Hr & Hst).
  destruct st as [e|t].
  - destruct Hst as (-> & Hnet' & _). cbn [retry_rule] in Hr. cbn [failed_pass].
    exists (length seen). rewrite firstn_all, Hnet', <- last_timeout, <- Htm.
    repeat split; try done. lia.
  - destruct Hst as (_ & _ & Hid & _ & Hc & Hl & Hit & Hlook & Hnet' & _ & Hp).
    destruct Hr as (Htm' & _ & Hre).
    rewrite lookup_drop in Hlook. replace (i + (t_i t - i)) with (t_i t) in Hlook by lia.
    cbn [failed_pass]. split; [split|].
    + rewrite Hp at 1. cbn [p_url p_timeout]. by rewrite Hp.
    + by rewrite Hc.
    + rewrite Hnet', length_app, Htm', Htm, Hnet. cbn [length].
      repeat split; try done; lia.
Qed.

(** A call that passes the entry checks enters the loop. *)
Lemma fixImage_failed_pass id isRetry img w parsed :
  id ∉ processingImages w -> batoFixing img <> Some ("done" : str) ->
  (batoFixing img = Some ("true" : str) -> isRetry = true) ->
  parseSubdomain (src img) = Some parsed ->
  failed_pass (generateCandidates (serverCache w) parsed) id isRetry w []
    (fixImage_ id isRetry img w).
Proof.
  intros Hin Hdone Htrue Hp.
  destruct (fixImage_cases generateCandidates probe_timeout abort_after id isRetry img w)
    as [[_ [?|[?|[Ht ->]]]]|[(_ & Hnone & _)|(_ & parsed' & Hp' & ->)]].
  - done.
  - done.
  - by specialize (Htrue Ht).
  - congruence.
  - rewrite Hp in Hp'. injection Hp' as <-.
    apply (fix_loop_failed_pass id isRetry parsed _ 0 _ _ w []); cbn [length]; try lia; done.
Qed.

Lemma deliver_failed_pass cands id isRetry w0 seen ev t img w :
  failed_pass cands id isRetry w0 seen (img, w, Await t) -> failing ev = true ->
  failed_pass cands id isRetry w0 (seen ++ [ev]) (deliver_ ev t img w).
Proof.
  intros ([Hp Hlook] & Hc & Hid & Hre & Hle & Htm & Hnet & Hseen) Hev.
  pose proof (lookup_lt_Some _ _ _ Hlook) as Hlt. rewrite Hc in Hlt.
  assert (forall w1, timers w1 = timers w -> net w1 = net w ->
    failed_pass cands id isRetry w0 (seen ++ [ev])
      (resume_ t (Rejected (error_of ev)) img w1)) as Hrej.
  { intros w1 Htm1 Hnet1. cbn [resume]. rewrite Hid, Hre, Hc.
    destruct (catch_error abort_after (t_i t) (error_of ev)) as [how|] eqn:Hcatch.
    - destruct (fail_pass id isRetry how (Some (error_of ev)) img w1)
        as [[img' w'] st] eqn:Hf.
      apply fail_pass_spec in Hf as (-> & _ & _ & Hn' & _ & _ & _ & Hrule).
      cbn [failed_pass]. exists (length (seen ++ [ev])).
      rewrite firstn_all, last_snoc, length_app, Hn', Hnet1, Hnet, Htm1, Htm in *.
      cbn [length fmap option_fmap option_map].
      split; [lia|]. split; [lia|]. split; [lia|]. split; [done|].
      replace (bool_decide (Some ev = Some TimerFired))
        with (bool_decide (Some (error_of ev) = Some r_timeout)); [done|].
      by destruct ev.
    - replace (Some (error_of ev)) with (error_of <$> last (seen ++ [ev]))
        by (by rewrite last_snoc).
      apply fix_loop_failed_pass.
      + rewrite length_app. cbn [length]. lia.
      + lia.
      + by rewrite Htm1.
      + rewrite Hnet1, Hnet, length_app. cbn [length]. lia. }
  unfold deliver. rewrite Hp, probe_event_fresh.
  destruct ev as [|width height|].
  - by apply Hrej.
  - cbn [failing] in Hev. apply negb_true_iff in Hev. rewrite Hev. by apply Hrej.
  - by apply Hrej.
Qed.

Lemma run_failed_pass cands id isRetry w0 seen evs r :
  forallb failing evs = true ->
  failed_pass cands id isRetry w0 seen r ->
  failed_pass cands id isRetry w0 (seen ++ evs) (run_ evs r).
Proof.
  revert seen r. induction evs as [|ev evs IH]; intros seen [[img w] st] Hevs Hr.
  - by rewrite app_nil_r.
  - destruct st as [e|t]; [by apply failed_pass_more|]. cbn [run].
    cbn [forallb] in Hevs. apply andb_true_iff in Hevs as [Hev Hevs].
    replace (seen ++ ev :: evs) with ((seen ++ [ev]) ++ evs) by (by rewrite <- app_assoc).
    apply IH; [done|]. by apply deliver_failed_pass.
Qed.

End RetryFacts.

Lemma Strict_failed_pass evs id isRetry img w parsed :
  id ∉ processingImages w -> batoFixing img <> Some ("done" : str) ->
  (batoFixing img = Some ("true" : str) -> isRetry = true) ->
  parseSubdomain (src img) = Some parsed ->
  forallb failing evs = true ->
  failed_pass (Strict.generateCandidates (serverCache w) parsed) id isRetry w evs
    (Strict.run evs (Strict.fixImage id isRetry img w)).
Proof.
  intros Hin Hdone Htrue Hp Hevs.
  apply (run_failed_pass (fun _ => Strict.PROBE_TIMEOUT) 6 _ id isRetry w [] evs _ Hevs).
  by apply fixImage_failed_pass.
Qed.

(** C2. Follow a call of [fixImage] through the events of its probes.

    A call that passes the entry checks on an address that parses, and
    whose probes all fail, returns through the failure handling once its
    candidates are used up or the pass is cut short, at the latest after
    [MAX_ATTEMPTS] events; until then it is suspended with no callback
    added.  When it has returned, [n] probes have been started, its
    [lastError] is the error at the [n]-th event, and: a first pass
    ([isRetry] false) whose last event was the timer has added exactly one
    retry callback for the element and marked it ["retry"]; a first pass
    with any other last error, or with no probe at all, has added none
    and marked it ["failed"]; a retry pass has added none, whatever the
    last error, and marked it ["failed"].

    Whatever the events, successes included: a call adds one callback or
    none, and a retry pass none; the same holds step by step, whatever
    else happens between the steps, and relative to how the call ended;
    and the retry callback calls [fixImage] with [isRetry] true or does
    nothing. *)
Theorem retry_at_most_once (evs : list ProbeEvent) (id : ImgId) (isRetry : bool)
    (img : Img) (w : World) :
  (forall parsed,
     id ∉ processingImages w -> batoFixing img <> Some ("done" : str) ->
     (batoFixing img = Some ("true" : str) -> isRetry = true) ->
     parseSubdomain (src img) = Some parsed ->
     forallb failing evs = true ->
     (length evs < Strict.MAX_ATTEMPTS /\
      (exists t, (Strict.run evs (Strict.fixImage id isRetry img w)).2 = Await t) /\
      timers (Strict.run evs (Strict.fixImage id isRetry img w)).1.2 = timers w)
     \/
     exists img' w' how n,
       Strict.run evs (Strict.fixImage id isRetry img w)
         = (img', w', Return (ExitUnresolved how (error_of <$> last (take n evs)))) /\
       n <= length evs /\ n <= Strict.MAX_ATTEMPTS /\
       length (net w') = length (net w) + n /\
       (isRetry = false -> last (take n evs) = Some TimerFired ->
          timers w' = timers w ++ [id] /\ batoFixing img' = Some ("retry" : str)) /\
       (isRetry = false -> last (take n evs) <> Some TimerFired ->
          timers w' = timers w /\ batoFixing img' = Some ("failed" : str)) /\
       (isRetry = true ->
          timers w' = timers w /\ batoFixing img' = Some ("failed" : str))) /\
  (timers (Strict.run evs (Strict.fixImage id isRetry img w)).1.2 = timers w \/
   (isRetry = false /\
    timers (Strict.run evs (Strict.fixImage id isRetry img w)).1.2 = timers w ++ [id])) /\
  (forall img' w' how lastError,
     Strict.run evs (Strict.fixImage id isRetry img w)
       = (img', w', Return (ExitUnresolved how lastError)) ->
     (isRetry = false -> lastError = Some r_timeout ->
        timers w' = timers w ++ [id] /\ batoFixing img' = Some ("retry" : str)) /\
     (isRetry = false -> lastError <> Some r_timeout ->
        timers w' = timers w /\ batoFixing img' = Some ("failed" : str)) /\
     (isRetry = true ->
        timers w' = timers w /\ batoFixing img' = Some ("failed" : str))) /\
  (forall img' w' st,
     Strict.run evs (Strict.fixImage id isRetry img w) = (img', w', st) ->
     (forall how lastError, st <> Return (ExitUnresolved how lastError)) ->
     timers w' = timers w) /\
  (forall ev t, retry_rule (t_img t) (t_isRetry t) w (Strict.deliver ev t img w)) /\
  retry_rule id isRetry w (Strict.fixImage id isRetry img w) /\
  (Strict.retry_callback id img w = Strict.fixImage id true img w \/
   Strict.retry_callback id img w = (img, w, Return ExitGuard)).
Proof.
  assert (retry_rule id isRetry w (Strict.fixImage id isRetry img w)) as Hentry.
  { destruct (Strict.fixImage id isRetry img w) as [[img1 w1] st1] eqn:Hf.
    by apply fixImage_summary in Hf as (_ & _ & _ & _ & Hr & _). }
  pose proof (run_retry_rule (fun _ => Strict.PROBE_TIMEOUT) 6 evs _ _ _ _ Hentry) as Hrun.
  split; [|split; [|split; [|split; [|split; [|split]]]]].
  - intros parsed Hin Hdone Htrue Hp Hevs.
    pose proof (Strict_failed_pass evs id isRetry img w parsed Hin Hdone Htrue Hp Hevs) as Hs.
    pose proof (proj1 (finish_candidates_spec Strict.MAX_ATTEMPTS
                         (Strict.candidates (serverCache w) parsed))) as Hlen.
    fold (Strict.generateCandidates (serverCache w) parsed) in Hlen.
    destruct (Strict.run evs (Strict.fixImage id isRetry img w)) as [[img' w'] st].
    destruct st as [[| |u|how le]|t]; try done.
    + right. destruct Hs as (n & Hn & Hc & Hnet & -> & Hrule).
      exists img', w', how, n. split; [done|]. split; [done|]. split; [lia|].
      split; [done|]. split; [|split].
      * intros -> Hl. by rewrite (bool_decide_eq_true_2 _ Hl) in Hrule.
      * intros -> Hl. by rewrite (bool_decide_eq_false_2 _ Hl) in Hrule.
      * intros ->. done.
    + left. destruct Hs as ([_ Hlook] & Hc & _ & _ & _ & Htm & _ & Hseen).
      apply lookup_lt_Some in Hlook. rewrite Hc in Hlook. cbn [fst snd].
      split; [lia|]. split; [by exists t | done].
  - unfold Strict.run in *.
    destruct (run (fun _ => Strict.PROBE_TIMEOUT) 6 evs (Strict.fixImage id isRetry img w))
      as [[img' w'] st].
    cbn [fst snd]. destruct st as [[| | |how le]|t]; cbn [retry_rule] in Hrun.
    + by left.
    + by left.
    + by left.
    + destruct isRetry; cbn [negb andb] in Hrun; [left; tauto|].
      destruct (bool_decide (le = Some r_timeout)); [right | left]; tauto.
    + left. tauto.
  - intros img' w' how le Heq. unfold Strict.run in Heq. rewrite Heq in Hrun. cbn in Hrun.
    split; [|split].
    + intros -> Hle. by rewrite (bool_decide_eq_true_2 _ Hle) in Hrun.
    + intros -> Hle. by rewrite (bool_decide_eq_false_2 _ Hle) in Hrun.
    + intros ->. done.
  - intros img' w' st Heq Hst. unfold Strict.run in Heq. rewrite Heq in Hrun.
    destruct st as [[| | |how le]|t]; cbn in Hrun; try done; [|tauto].
    by destruct (Hst how le).
  - intros ev t. destruct (Strict.deliver ev t img w) as [[img1 w1] st1] eqn:Hd.
    by apply deliver_summary in Hd as (_ & Hr & _).
  - done.
  - unfold Strict.retry_callback, retry_callback. destruct (complete img && _); tauto.
Qed.

(** Fifteen timers in a row on the element of the example: the call has
    returned, by the rule of the failure handling. *)
Lemma retry_at_most_once_witness :
  exists img' w' how n,
    Strict.run (replicate 15 TimerFired) (Strict.fixImage 0 false img0 initial_world)
      = (img', w',
         Return (ExitUnresolved how
                   (error_of <$> last (take n (replicate 15 TimerFired))))) /\
    n <= length (replicate 15 TimerFired) /\ n <= Strict.MAX_ATTEMPTS /\
    length (net w') = length (net initial_world) + n /\
    (false = false -> last (take n (replicate 15 TimerFired)) = Some TimerFired ->
       timers w' = timers initial_world ++ [0] /\ batoFixing img' = Some ("retry" : str)) /\
    (false = false -> last (take n (replicate 15 TimerFired)) <> Some TimerFired ->
       timers w' = timers initial_world /\ batoFixing img' = Some ("failed" : str)) /\
    (false = true ->
       timers w' = timers initial_world /\ batoFixing img' = Some ("failed" : str)).
Proof.
  destruct (proj1 (retry_at_most_once (replicate 15 TimerFired) 0 false img0 initial_world)
              k03) as [(Hlt & _)|H].
  - apply not_elem_of_empty.
  - discriminate.
  - discriminate.
  - reflexivity.
  - reflexivity.
  - exfalso. revert Hlt. vm_compute. lia.
  - exact H.
Defined.

(** The same pass computed: eight probes, the eighth timer cuts the pass
    short at index 7, one callback, the element marked for the retry. *)
Lemma retry_first_pass_computed :
  let r := Strict.run (replicate 15 TimerFired) (Strict.fixImage 0 false img0 initial_world) in
  r.2 = Return (ExitUnresolved (Broke 7) (Some r_timeout)) /\
  timers r.1.2 = [0] /\ length (net r.1.2) = 8 /\
  batoFixing r.1.1 = Some ("retry" : str).
Proof. by vm_compute. Qed.

(** An example of C2: every probe of the first pass times out, the eighth
    timeout stops the pass and one retry is scheduled; the retry pass
    skips the hosts known to be dead, its first probe times out, and the
    element is marked failed with no callback left. *)
Lemma retry_example :
  let first := Call 0 false :: replicate 8 (Deliver 0 TimerFired) in
  let s1 := Strict.sys_run first {[0 := img0]} in
  let s2 := Strict.sys_run (first ++ [Fire 0; Deliver 0 TimerFired]) {[0 := img0]} in
  timers (world s1) = [0] /\ tasks s1 = [] /\
  batoFixing <$> imgs s1 !! 0 = Some (Some ("retry" : str)) /\
  timers (world s2) = [] /\ tasks s2 = [] /\
  batoFixing <$> imgs s2 !! 0 = Some (Some ("failed" : str)) /\
  length (net (world s1)) = 8 /\ length (net (world s2)) = 9.
Proof. by vm_compute. Qed.


Lemma catch_error_spec abort_after i e :
  catch_error abort_after i e
  = if bool_decide (e = r_timeout) && (abort_after <? i) then Some (Broke i) else None.
Proof. done. Qed.

(** A call followed through the events of its probes is stopped by
    [break] only by a timeout at an index beyond the threshold. *)
Lemma run_broke probe_timeout abort_after evs r img' w' i le :
  run probe_timeout abort_after evs r = (img', w', Return (ExitUnresolved (Broke i) le)) ->
  r = (img', w', Return (ExitUnresolved (Broke i) le)) \/
  (TimerFired ∈ evs /\ abort_after < i /\ le = Some r_timeout).
Proof.
  revert r. induction evs as [|ev evs IH]; intros [[img1 w1] st1]; [by left|].
  destruct st1 as [e|t]; [by left|]. cbn [run].
  intros [Heq|(Hin & Hi & Hle)]%IH.
  - apply deliver_summary in Heq as (_ & _ & _ & Hb).
    destruct (Hb i le eq_refl) as (-> & Hi & -> & ->). right. split; [left | done].
  - right. split; [by right | done].
Qed.


(** The other revision has the same rule with the threshold 10. *)
Lemma Smart_early_abort_rule (ev : ProbeEvent) (t : Task) (img : Img) (w : World) :
  (forall img' w' i le,
     Smart.deliver ev t img w = (img', w', Return (ExitUnresolved (Broke i) le)) ->
     ev = TimerFired /\ i = t_i t /\ 10 < i /\ le = Some r_timeout) /\
  (forall e i, e <> r_timeout -> catch_error 10 i e = None).
Proof.
  split.
  - intros img' w' i le Hd. apply deliver_summary in Hd as (_ & _ & _ & Hb).
    by destruct (Hb i le eq_refl) as (-> & Hi & -> & ->).
  - intros e i He. rewrite catch_error_spec. by rewrite bool_decide_eq_false_2.
Qed.

Lemma sys_run_snoc gen pt aa events e dom :
  sys_run gen pt aa (events ++ [e]) dom = sys_step gen pt aa e (sys_run gen pt aa events dom).
Proof. unfold sys_run. by rewrite foldl_app. Qed.

(** C3. After any sequence of events of the page, no two suspended calls
    of [fixImage] are for the same element; and a further call of
    [fixImage] for an element that has a suspended call, or that is marked
    ["done"], leaves the page exactly as it is: no probe is started, nothing
    is written.  The same at the level of the function: with the element in
    [processingImages] or marked ["done"], [fixImage] returns at once with
    the element and the world unchanged. *)
Theorem fixImage_idempotent (events : list Event) (dom : gmap ImgId Img)
    (id : ImgId) (isRetry : bool) :
  NoDup (t_img <$> tasks (Strict.sys_run events dom)) /\
  ((exists t, t ∈ tasks (Strict.sys_run events dom) /\ t_img t = id) ->
     Strict.sys_run (events ++ [Call id isRetry]) dom = Strict.sys_run events dom) /\
  (batoFixing <$> imgs (Strict.sys_run events dom) !! id = Some (Some ("done" : str)) ->
     Strict.sys_run (events ++ [Call id isRetry]) dom = Strict.sys_run events dom) /\
  (forall img w,
     id ∈ processingImages w \/ batoFixing img = Some ("done" : str) ->
     Strict.fixImage id isRetry img w = (img, w, Return ExitGuard)).
Proof.
  pose proof (sys_run_inv Strict.generateCandidates (fun _ => Strict.PROBE_TIMEOUT) 6 events dom)
    as [Hnd Hpi].
  split; [done|]. split; [|split].
  - intros (t & Ht & <-). unfold Strict.sys_run. rewrite sys_run_snoc.
    apply sys_step_guarded. intros img _. left. by apply Hpi.
  - intros Hdone. unfold Strict.sys_run. rewrite sys_run_snoc.
    apply sys_step_guarded. intros img Himg. right.
    unfold Strict.sys_run in Hdone. rewrite Himg in Hdone. by injection Hdone.
  - intros img w Hg. unfold Strict.fixImage, fixImage. destruct Hg as [Hin|Hdone].
    + by rewrite bool_decide_eq_true_2.
    + case_bool_decide; [done|]. unfold is_str. by rewrite (bool_decide_eq_true_2 _ Hdone).
Qed.

(** C9 on the code. When the address of the element does not parse,
    [fixImage] leaves the address and [srcset] as they are and takes the
    element out of [processingImages] again, but the flag it set on entry
    stays: [dataset.batoFixing] is ["true"].  A later call of [fixImage]
    for the same element (not a retry) is turned away by the entry guard,
    whatever the address of the element has become in between. *)
Theorem fixImage_unparsed_blocks_later (id : ImgId) (img : Img) (w : World)
    (later_src : str) :
  id ∉ processingImages w ->
  batoFixing img = None ->
  parseSubdomain (src img) = None ->
  Strict.fixImage id false img w = (set_batoFixing "true" img, w, Return ExitNoParse) /\
  Strict.fixImage id false (set_src later_src (set_batoFixing "true" img)) w
    = (set_src later_src (set_batoFixing "true" img), w, Return ExitGuard).
Proof.
  intros Hin Hflag Hparse. unfold Strict.fixImage. split.
  - destruct (fixImage_cases Strict.generateCandidates (fun _ => Strict.PROBE_TIMEOUT) 6
                id false img w) as [[_ [?|[Hd|[Ht _]]]]|[(_ & _ & ->)|(_ & p & Hp & _)]];
      try congruence; try done.
    f_equal. f_equal. destruct w as [sc fc pi tm nt]. unfold set_processingImages. cbn.
    f_equal. cbn in Hin. set_solver.
  - unfold fixImage. rewrite bool_decide_eq_false_2 by done.
    cbn [batoFixing set_src set_batoFixing]. unfold is_str.
    rewrite (bool_decide_eq_true_2 (Some ("true" : str) = Some ("true" : str))) by done.
    cbn [negb andb]. by rewrite orb_true_r.
Qed.

Lemma fixImage_unparsed_blocks_later_witness :
  Strict.fixImage 0 false img_other initial_world
    = (set_batoFixing "true" img_other, initial_world, Return ExitNoParse) /\
  Strict.fixImage 0 false (set_src k03_src (set_batoFixing "true" img_other)) initial_world
    = (set_src k03_src (set_batoFixing "true" img_other), initial_world, Return ExitGuard).
Proof.
  apply (fixImage_unparsed_blocks_later 0 img_other initial_world k03_src).
  - apply (bool_decide_unpack _). by vm_compute.
  - reflexivity.
  - by vm_compute.
Defined.

(** * Further properties of the script *)

(** ** Addresses *)

Lemma lower_char_not_upper c : is_upper c = false -> lower_char c = c.
Proof. unfold lower_char. by intros ->. Qed.

Lemma lower_not_upper c : is_lower c = true -> is_upper c = false.
Proof. ascii_cases c. Qed.

Lemma toLowerCase_fixed (p : ascii -> bool) s :
  (forall c, p c = true -> is_upper c = false) ->
  forallb p s = true -> toLowerCase s = s.
Proof.
  intros Hp. induction s as [|c s IH]; cbn [forallb toLowerCase map]; [done|].
  intros [Hc Hs]%andb_true_iff. f_equal; [by apply lower_char_not_upper, Hp | by apply IH].
Qed.

Lemma lower_root_char_spec c :
  is_lower_root_char c = true -> is_root_char c = true /\ is_upper c = false.
Proof. ascii_cases c. Qed.

Lemma forallb_impl (p q : ascii -> bool) s :
  (forall c, p c = true -> q c = true) -> forallb p s = true -> forallb q s = true.
Proof.
  intros Hpq. induction s as [|c s IH]; cbn [forallb]; [done|].
  intros [Hc Hs]%andb_true_iff. by rewrite (Hpq c Hc), (IH Hs).
Qed.

Lemma forallb_toLowerCase' (p q : ascii -> bool) s :
  (forall c, p c = true -> q (lower_char c) = true) ->
  forallb p s = true -> forallb q (toLowerCase s) = true.
Proof.
  intros Hp. induction s as [|c s IH]; cbn [forallb toLowerCase map]; [done|].
  intros [Hc Hs]%andb_true_iff. rewrite (Hp c Hc). by apply IH.
Qed.

Lemma tld_fixed t : t ∈ TLDS -> toLowerCase t = t.
Proof.
  unfold TLDS. rewrite !elem_of_cons, elem_of_nil. by intros [->|[->|[->|[]]]].
Qed.

Lemma parse_fields (s : str) (a : Address) :
  parseSubdomain s = Some a ->
  wf_address a /\ exists before : str, s = before ++ path a.
Proof.
  intros (g & Hg & ->)%parseSubdomain_Some.
  pose proof Hg as [(scheme & _ & Hs) [Hn1 Hl1] [Hlen Hl2] [Hn3 Hl3] Htld Hpath].
  split; [split; [|done]|].
  - unfold wf_fields, address_of. cbn [prefix number root tld].
    split; [by destruct (m1 g)|]. split.
    { apply (forallb_toLowerCase' is_letter); [|done]. apply lower_char_letter. }
    split; [apply parseInt10_below_1000; [lia | done]|].
    split; [by destruct (m3 g)|]. split; [|done].
    apply (forallb_toLowerCase' is_root_char); [|done].
    intros c Hc. unfold is_lower_root_char.
    destruct (lower_char_root c Hc) as [-> ->]. done.
  - cbn [path address_of].
    exists (scheme ++ "://" ++ m1 g ++ m2 g ++ "." ++ m3 g ++ "." ++ m4 g).
    rewrite Hs. by rewrite <- !app_assoc.
Qed.

(** X1. Every Address that [parseSubdomain] returns is well formed: the
    prefix is a non-empty string of lower-case letters, the number is below
    1000, the root is a non-empty string of lower-case letters, digits and
    hyphens, the suffix is [org], [net] or [to], and the path starts with a
    slash, has no line terminator and is the end of the input, verbatim. *)
Theorem parseSubdomain_wf (s : str) (a : Address) :
  parseSubdomain s = Some a ->
  wf_address a /\ exists before : str, s = before ++ path a.
Proof.
  intros Ha. split.
  - by destruct (parse_fields s a Ha).
  - destruct (parse_fields s a Ha) as [_ [before Hb]]. by exists before.
Qed.

Lemma parseSubdomain_wf_witness :
  wf_address k03 /\ exists before : str, k03_src = before ++ path k03.
Proof. apply (parseSubdomain_wf k03_src k03). reflexivity. Defined.

(** Rendering well-formed fields and parsing the result gives the fields
    back. *)
Lemma parseSubdomain_render_url (p : str) n (r t pth : str) :
  wf_fields p n r t -> wf_path pth ->
  parseSubdomain (render_url p n r t pth) = Some (mkAddress p n r t pth).
Proof.
  intros (Hp & Hlp & Hn & Hr & Hlr & Ht) Hpth.
  pose proof (index_ok_below_1000 n Hn) as Hidx. unfold index_ok in Hidx. cbn zeta in Hidx.
  apply andb_true_iff in Hidx as [[[H2%Nat.leb_le H3%Nat.leb_le]%andb_true_iff Hd]%andb_true_iff
                                   Hv%Nat.eqb_eq].
  apply parseSubdomain_Some.
  exists (mkGroups p (padStart0 2 (String_of n)) r t pth). split.
  - split; cbn [m1 m2 m3 m4 m5].
    + exists ("https" : str). split; [by right|].
      unfold render_url, render_base. by rewrite <- !app_assoc.
    + split; [done|]. apply (forallb_impl is_lower is_letter); [|done].
      apply lower_is_letter.
    + split; [lia | done].
    + split; [done|]. apply (forallb_impl is_lower_root_char is_root_char); [|done].
      intros c Hc. by apply lower_root_char_spec.
    + by rewrite tld_fixed.
    + done.
  - unfold address_of. cbn [m1 m2 m3 m4 m5]. rewrite Hv.
    rewrite (toLowerCase_fixed is_lower p lower_not_upper Hlp).
    rewrite (toLowerCase_fixed is_lower_root_char r) by
      (done || (intros c Hc; by apply lower_root_char_spec)).
    by rewrite tld_fixed.
Qed.

Lemma parseSubdomain_scheme (x : str) :
  parseSubdomain ("http://" ++ x) = parseSubdomain ("https://" ++ x).
Proof. reflexivity. Qed.

Lemma digit_not_upper c : is_digit c = true -> is_upper c = false.
Proof. ascii_cases c. Qed.

(** X2. [parseSubdomain] does not look at the case of the scheme and
    host: an address that parses, with everything before its path put in
    lower case, parses to the same Address. *)
Theorem parseSubdomain_case_insensitive (s before : str) (a : Address) :
  parseSubdomain s = Some a -> s = before ++ path a ->
  parseSubdomain (toLowerCase before ++ path a) = Some a.
Proof.
  intros (g & Hg & ->)%parseSubdomain_Some Hs.
  pose proof Hg as [(scheme & Hsch & Hs') [Hn1 Hl1] [Hlen Hl2] [Hn3 Hl3] Htld Hpath].
  cbn [path address_of] in *.
  assert (before = scheme ++ "://" ++ m1 g ++ m2 g ++ "." ++ m3 g ++ "." ++ m4 g) as ->.
  { apply (app_inv_tail (m5 g)). rewrite <- Hs, Hs'. by rewrite <- !app_assoc. }
  apply parseSubdomain_Some.
  exists (mkGroups (toLowerCase (m1 g)) (m2 g) (toLowerCase (m3 g)) (toLowerCase (m4 g)) (m5 g)).
  split.
  - split; cbn [m1 m2 m3 m4 m5].
    + exists (toLowerCase scheme). split.
      * rewrite toLowerCase_idem. done.
      * rewrite !toLowerCase_app.
        rewrite (toLowerCase_fixed is_digit (m2 g) digit_not_upper Hl2).
        by rewrite <- !app_assoc.
    + split; [by destruct (m1 g)|].
      apply (forallb_toLowerCase' is_letter); [|done].
      intros c Hc. by apply lower_is_letter, lower_char_letter.
    + done.
    + split; [by destruct (m3 g)|].
      apply (forallb_toLowerCase' is_root_char); [|done]. intros c Hc. by apply lower_char_root.
    + by rewrite toLowerCase_idem.
    + done.
  - unfold address_of. cbn [m1 m2 m3 m4 m5]. by rewrite !toLowerCase_idem.
Qed.

Lemma parseSubdomain_case_insensitive_witness :
  parseSubdomain (toLowerCase "HTTPS://K03.MBDNY.ORG" ++ path k03) = Some k03.
Proof.
  apply (parseSubdomain_case_insensitive "HTTPS://K03.MBDNY.ORG/a/b/c/1.jpg"); reflexivity.
Defined.

(** ** Candidates *)

Lemma fold_left_invariant_in {A T} (P : T -> Prop) (f : T -> A -> T) (l : list A) (s : T) :
  P s -> (forall s x, x ∈ l -> P s -> P (f s x)) -> P (fold_left f l s).
Proof.
  revert s. induction l as [|a l IH]; intros s Hs Hf; cbn [fold_left]; [done|].
  apply IH; [apply Hf; [left | done]|]. intros s' x Hx. apply Hf. by right.
Qed.

Lemma wf_fields_k_n (p : str) n r t :
  p = "k" \/ p = "n" -> n < 1000 -> r <> [] -> forallb is_lower_root_char r = true ->
  t ∈ TLDS -> wf_fields p n r t.
Proof. intros [-> | ->] Hn Hr Hlr Ht; by repeat split. Qed.

Lemma Strict_add_wf parsed (p : str) n r t prio c :
  (p = "k" \/ p = "n" -> wf_fields p n r t) ->
  Forall (wf_candidate (path parsed)) c ->
  Forall (wf_candidate (path parsed)) (Strict.add parsed p n r t prio c).
Proof.
  intros Hwf Hc. unfold Strict.add, str_eqb.
  destruct (decide (p = "k")) as [Hk|Hk], (decide (p = "n")) as [Hn|Hn];
    rewrite ?(bool_decide_eq_true_2 _ Hk), ?(bool_decide_eq_true_2 _ Hn),
            ?(bool_decide_eq_false_2 _ Hk), ?(bool_decide_eq_false_2 _ Hn);
    cbn [negb andb]; try done;
    (apply Forall_app; split; [done|]; apply Forall_singleton;
     exists p, n, r, t; cbn [url]; tauto).
Qed.

Lemma Strict_fallback_roots_ok : forallb fallback_ok Strict.FALLBACK_ROOTS = true.
Proof. by vm_compute. Qed.

Lemma Strict_candidates_wf cache parsed :
  wf_address parsed ->
  (forall c, cache !! group_key parsed = Some c -> wf_entry c) ->
  Forall (wf_candidate (path parsed)) (Strict.candidates cache parsed).
Proof.
  intros [(Hp & Hlp & Hn & Hr & Hlr & Ht) Hpath] Hcache.
  unfold Strict.candidates, forEach, for_range. cbv zeta.
  apply fold_left_invariant_in.
  2:{ intros s fb Hfb Hs.
      pose proof Strict_fallback_roots_ok as Hok. rewrite forallb_forall in Hok.
      apply list_elem_of_In, Hok in Hfb. unfold fallback_ok in Hfb. cbv zeta in Hfb.
      apply andb_true_iff in Hfb as [[[_ Hne]%andb_true_iff Hl]%andb_true_iff Htl%bool_decide_eq_true].
      destruct (_ && _); [|done]. apply Strict_add_wf; [|done]. intros Hkn.
      apply wf_fields_k_n; try done. unfold str_eqb in Hne.
      by apply negb_true_iff, bool_decide_eq_false in Hne. }
  apply fold_left_invariant_in.
  2:{ intros s i Hi Hs. apply list_elem_of_In, in_seq in Hi. destruct (negb _); [|done].
      apply Strict_add_wf; [|done]. intros Hkn. apply wf_fields_k_n; try done.
      unfold Strict.MAX_SERVER_NUM in Hi. lia. }
  assert (Forall (wf_candidate (path parsed))
            (match cache !! group_key parsed with
             | Some cached =>
                 Strict.add parsed (c_prefix cached) (c_number cached) (c_root cached)
                   (c_tld cached) 0 []
             | None => []
             end)) as H0.
  { destruct (cache !! group_key parsed) as [cached|] eqn:Hc; [|constructor].
    apply Strict_add_wf; [|constructor]. intros _. by apply Hcache. }
  destruct (str_eqb (prefix parsed) "k"); (apply Strict_add_wf; [|done]);
    intros Hkn; by apply wf_fields_k_n.
Qed.

(** X3. In the revision of lines 1-364, for an Address as [parseSubdomain]
    returns it and a success cache whose entry for the group, if any, is
    well formed: every URL that [generateCandidates] returns parses again,
    to an Address on the [k] or [n] host with the path of the original,
    unchanged. *)
Theorem Strict_candidates_parse (cache : gmap str CacheEntry) (parsed : Address) (u : str) :
  wf_address parsed ->
  (forall c, cache !! group_key parsed = Some c -> wf_entry c) ->
  u ∈ Strict.generateCandidates cache parsed ->
  exists a, parseSubdomain u = Some a /\ path a = path parsed /\
            (prefix a = "k" \/ prefix a = "n") /\ u = render a.
Proof.
  intros Hwf Hcache Hu.
  destruct (finish_candidates_spec Strict.MAX_ATTEMPTS (Strict.candidates cache parsed))
    as (_ & _ & Hin & _).
  destruct (Hin u Hu) as (c & Hc & <-).
  pose proof (Strict_candidates_wf cache parsed Hwf Hcache) as Hall.
  rewrite Forall_forall in Hall. destruct (Hall c Hc) as (p & n & r & t & Hf & Hkn & Hurl).
  exists (mkAddress p n r t (path parsed)). rewrite Hurl.
  split; [apply parseSubdomain_render_url; [done | by destruct Hwf]|]. by repeat split.
Qed.

Lemma Strict_candidates_parse_witness :
  exists a, parseSubdomain "https://n07.mbdny.org/a/b/c/1.jpg" = Some a /\
            path a = path k03 /\ (prefix a = "k" \/ prefix a = "n") /\
            ("https://n07.mbdny.org/a/b/c/1.jpg" : str) = render a.
Proof.
  apply (Strict_candidates_parse ∅ k03).
  - apply (parse_fields k03_src). reflexivity.
  - intros c Hc. by rewrite lookup_empty in Hc.
  - apply (bool_decide_unpack _). by vm_compute.
Defined.

(** A candidate of priority 0 at the head of the array stays at the head
    through the sort, the deduplication and the truncation. *)
Lemma finish_candidates_head max_attempts (c0 : Candidate) ext :
  priority c0 = 0 -> 0 < max_attempts ->
  head (finish_candidates max_attempts (c0 :: ext)) = Some (url c0).
Proof.
  intros H0 Hmax. unfold finish_candidates, slice0, set_spread.
  assert (array_sort by_priority (c0 :: ext) = c0 :: array_sort by_priority ext) as ->.
  { change (array_sort by_priority (c0 :: ext))
      with (insert_sorted by_priority c0 (array_sort by_priority ext)).
    destruct (array_sort by_priority ext) as [|y l]; [done|].
    cbn [insert_sorted]. unfold by_priority at 1. rewrite H0.
    by destruct (Z.leb_spec (Z.of_nat 0 - Z.of_nat (priority y)) 0); [|lia]. }
  cbn [fmap list_fmap set_spread_from].
  rewrite bool_decide_eq_false_2 by apply not_elem_of_nil.
  destruct max_attempts; [lia | done].
Qed.

Lemma Strict_add_extends parsed p n r t prio c0 ext :
  exists ext', Strict.add parsed p n r t prio (c0 :: ext) = c0 :: ext'.
Proof. unfold Strict.add. destruct (_ && _); by eexists. Qed.

Lemma Smart_add_extends parsed p n r t prio c0 ext :
  exists ext', Smart.add parsed p n r t prio (c0 :: ext) = c0 :: ext'.
Proof. unfold Smart.add. by eexists. Qed.

Lemma Strict_cached_head (cache : gmap str CacheEntry) (parsed : Address)
    (cached : CacheEntry) :
  cache !! group_key parsed = Some cached ->
  c_prefix cached = "k" \/ c_prefix cached = "n" ->
  head (Strict.generateCandidates cache parsed)
  = Some (render_url (c_prefix cached) (c_number cached) (c_root cached) (c_tld cached)
            (path parsed)).
Proof.
  intros Hc.
  set (c0 := mkCandidate (render_url (c_prefix cached) (c_number cached) (c_root cached)
                            (c_tld cached) (path parsed)) 0).
  intros Hkn.
  assert (exists ext, Strict.candidates cache parsed = c0 :: ext) as [ext Hext].
  { unfold Strict.candidates, forEach, for_range. cbv zeta. rewrite Hc.
    apply (fold_left_invariant (fun s => exists ext, s = c0 :: ext)).
    2:{ intros s x [ext ->]. destruct (_ && _); [apply Strict_add_extends | by eexists]. }
    apply (fold_left_invariant (fun s => exists ext, s = c0 :: ext)).
    2:{ intros s x [ext ->]. destruct (negb _); [apply Strict_add_extends | by eexists]. }
    assert (Strict.add parsed (c_prefix cached) (c_number cached) (c_root cached)
              (c_tld cached) 0 [] = [c0]) as ->.
    { unfold Strict.add, str_eqb.
      destruct Hkn as [Hk|Hn]; [rewrite (bool_decide_eq_true_2 _ Hk)
                               |rewrite (bool_decide_eq_true_2 _ Hn), andb_false_r]; done. }
    destruct (str_eqb (prefix parsed) "k"); apply Strict_add_extends. }
  unfold Strict.generateCandidates. rewrite Hext.
  apply finish_candidates_head; [done | unfold Strict.MAX_ATTEMPTS; lia].
Qed.

Lemma Smart_cached_head (cache : gmap str CacheEntry) (parsed : Address)
    (cached : CacheEntry) :
  cache !! group_key parsed = Some cached ->
  head (Smart.generateCandidates cache parsed)
  = Some (render_url (c_prefix cached) (c_number cached) (c_root cached) (c_tld cached)
            (path parsed)).
Proof.
  intros Hc.
  set (c0 := mkCandidate (render_url (c_prefix cached) (c_number cached) (c_root cached)
                            (c_tld cached) (path parsed)) 0).
  assert (exists ext, Smart.candidates cache parsed = c0 :: ext) as [ext Hext].
  { unfold Smart.candidates, forEach, for_range. cbv zeta. rewrite Hc.
    apply (fold_left_invariant (fun s => exists ext, s = c0 :: ext)).
    2:{ intros s x [ext ->]. destruct (negb _); [apply Smart_add_extends | by eexists]. }
    apply (fold_left_invariant (fun s => exists ext, s = c0 :: ext)).
    2:{ intros s x [ext ->]. destruct (_ && _); [|by eexists].
        destruct (Smart_add_extends parsed (prefix parsed) (number parsed)
                    (split "." x !!! 0) (split "." x !!! 1) 4 c0 ext) as [e1 ->].
        destruct (str_eqb (prefix parsed) "k"); [apply Smart_add_extends | by eexists]. }
    apply (fold_left_invariant (fun s => exists ext, s = c0 :: ext)).
    2:{ intros s x [ext ->]. destruct (negb _); [apply Smart_add_extends | by eexists]. }
    apply (fold_left_invariant (fun s => exists ext, s = c0 :: ext)).
    2:{ intros s x [ext ->]. destruct (_ && _); [apply Smart_add_extends | by eexists]. }
    assert (Smart.add parsed (c_prefix cached) (c_number cached) (c_root cached)
              (c_tld cached) 0 [] = [c0]) as -> by done.
    destruct (str_eqb (prefix parsed) "k"); [|by eexists].
    destruct (Smart_add_extends parsed "n" (number parsed) (root parsed) (tld parsed) 1 c0 [])
      as [e1 ->].
    destruct (Smart_add_extends parsed "x" (number parsed) (root parsed) (tld parsed) 1 c0 e1)
      as [e2 ->].
    apply Smart_add_extends. }
  unfold Smart.generateCandidates. rewrite Hext.
  apply finish_candidates_head; [done | unfold Smart.MAX_ATTEMPTS; lia].
Qed.

(** X4. When the success cache has an entry for the group of the address,
    the first URL that [generateCandidates] returns is the cached host
    with the path of the address: in the revision of lines 1-364 if the
    cached prefix is [k] or [n], in the revision of lines 1121-1512
    always. *)
Theorem cached_candidate_first (cache : gmap str CacheEntry) (parsed : Address)
    (cached : CacheEntry) :
  cache !! group_key parsed = Some cached ->
  (c_prefix cached = "k" \/ c_prefix cached = "n" ->
   head (Strict.generateCandidates cache parsed)
   = Some (render_url (c_prefix cached) (c_number cached) (c_root cached) (c_tld cached)
             (path parsed))) /\
  head (Smart.generateCandidates cache parsed)
  = Some (render_url (c_prefix cached) (c_number cached) (c_root cached) (c_tld cached)
            (path parsed)).
Proof.
  intros Hc. split.
  - intros Hkn. by apply Strict_cached_head.
  - by apply Smart_cached_head.
Qed.

Lemma cached_candidate_first_witness :
  (c_prefix (mkCacheEntry "n" 7 "mbdny" "org") = "k" \/
   c_prefix (mkCacheEntry "n" 7 "mbdny" "org") = "n" ->
   head (Strict.generateCandidates {[group_key k03 := mkCacheEntry "n" 7 "mbdny" "org"]} k03)
   = Some (render_url "n" 7 "mbdny" "org" (path k03))) /\
  head (Smart.generateCandidates {[group_key k03 := mkCacheEntry "n" 7 "mbdny" "org"]} k03)
  = Some (render_url "n" 7 "mbdny" "org" (path k03)).
Proof.
  apply (cached_candidate_first {[group_key k03 := mkCacheEntry "n" 7 "mbdny" "org"]} k03
           (mkCacheEntry "n" 7 "mbdny" "org")).
  by vm_compute.
Defined.

(** ** The group of a resource *)

Lemma first3_path (s1 s2 rest : str) :
  "/"%char ∉ s1 -> "/"%char ∉ s2 ->
  first3 ("/"%char :: s1 ++ "/"%char :: s2 ++ "/"%char :: rest) = "/"%char :: s1 ++ "/"%char :: s2.
Proof.
  intros H1 H2. unfold first3.
  change ("/"%char :: s1 ++ "/"%char :: s2 ++ "/"%char :: rest)
    with ([] ++ "/"%char :: (s1 ++ "/"%char :: (s2 ++ "/"%char :: rest))).
  rewrite split_app_sep by apply not_elem_of_nil.
  rewrite split_app_sep by done. rewrite split_app_sep by done.
  done.
Qed.

(** X5. The key under which [fixImage] caches a success and
    [generateCandidates] and [preemptiveFix] look it up is made of the root
    of the address and the first two segments of its path: prefix, number,
    suffix and the rest of the path do not enter it, so that two addresses
    with the same root and the same first two path segments share their
    cache entry. *)
Theorem group_key_two_segments (a b : Address) (s1 s2 rest rest' : str) :
  "/"%char ∉ s1 -> "/"%char ∉ s2 ->
  path a = "/"%char :: s1 ++ "/"%char :: s2 ++ "/"%char :: rest ->
  group_key a = root a ++ "-" ++ "/"%char :: s1 ++ "/"%char :: s2 /\
  (root b = root a ->
   path b = "/"%char :: s1 ++ "/"%char :: s2 ++ "/"%char :: rest' ->
   group_key b = group_key a).
Proof.
  intros H1 H2 Ha. unfold group_key. rewrite Ha, first3_path by done.
  split; [done|]. intros -> ->. by rewrite first3_path.
Qed.

Lemma group_key_two_segments_witness :
  group_key k03 = root k03 ++ "-" ++ "/"%char :: "a" ++ "/"%char :: "b" /\
  (root (mkAddress "n" 7 "mbdny" "net" "/a/b/d/9.png") = root k03 ->
   path (mkAddress "n" 7 "mbdny" "net" "/a/b/d/9.png")
     = "/"%char :: "a" ++ "/"%char :: "b" ++ "/"%char :: "d/9.png" ->
   group_key (mkAddress "n" 7 "mbdny" "net" "/a/b/d/9.png") = group_key k03).
Proof.
  apply (group_key_two_segments k03 (mkAddress "n" 7 "mbdny" "net" "/a/b/d/9.png")
           "a" "b" "c/1.jpg" "d/9.png").
  - apply (bool_decide_unpack _). by vm_compute.
  - apply (bool_decide_unpack _). by vm_compute.
  - reflexivity.
Defined.

(** ** A pass, followed through the events of its probes *)

Section PassFacts.

Variable generateCandidates : gmap str CacheEntry -> Address -> list str.
Variable probe_timeout : nat -> nat.
Variable abort_after : nat.

Local Abbreviation fix_loop_ := (fix_loop probe_timeout abort_after).
Local Abbreviation fixImage_ := (fixImage generateCandidates probe_timeout abort_after).
Local Abbreviation deliver_ := (deliver probe_timeout abort_after).
Local Abbreviation resume_ := (resume probe_timeout abort_after).
Local Abbreviation run_ := (run probe_timeout abort_after).

Lemma pass_state_more cands n0 evs more img w e :
  pass_state cands n0 evs (img, w, Return e) ->
  pass_state cands n0 (evs ++ more) (img, w, Return e).
Proof.
  destruct e as [| |u|how le]; cbn; try done.
  intros [Hn Hle]. split; [done|]. intros H. apply elem_of_app. left. by apply Hle.
Qed.

(** The loop, entered after index [i], keeps the state of the pass. *)
Lemma fix_loop_pass_state id isRetry parsed cands i le img w n0 evs :
  length evs <= i -> length (net w) <= n0 + i -> i <= length cands ->
  (le = Some r_timeout -> TimerFired ∈ evs) ->
  pass_state cands n0 evs
    (fix_loop_ id isRetry parsed cands (drop i cands) i le img w).
Proof.
  intros Hevs Hnet Hi Hle.
  destruct (fix_loop_ id isRetry parsed cands (drop i cands) i le img w)
    as [[img' w'] st] eqn:Hf.
  apply fix_loop_summary in Hf as (_ & _ & _ & _ & _ & Hst).
  destruct st as [e|t].
  - destruct Hst as (-> & Hnet' & _). cbn. rewrite Hnet'. split; [lia | done].
  - destruct Hst as (_ & _ & _ & _ & Hc & Hl & Hit & Hlook & Hnet' & _ & Hp).
    rewrite lookup_drop in Hlook. replace (i + (t_i t - i)) with (t_i t) in Hlook by lia.
    cbn. split; [split|].
    + rewrite Hp at 1. cbn. by rewrite Hp.
    + by rewrite Hc.
    + split; [done|]. split; [lia|]. rewrite Hnet', length_app. cbn [length].
      split; [lia|]. by rewrite Hl.
Qed.

Lemma fixImage_pass_state id isRetry img w :
  exists cands,
    (cands = [] \/
     exists parsed, parseSubdomain (src img) = Some parsed /\
                    cands = generateCandidates (serverCache w) parsed) /\
    pass_state cands (length (net w)) [] (fixImage_ id isRetry img w).
Proof.
  destruct (fixImage_cases generateCandidates probe_timeout abort_after id isRetry img w)
    as [[-> _]|[(Hin & Hp & ->)|(Hin & parsed & Hp & ->)]].
  - exists []. split; [by left | done].
  - exists []. split; [by left | done].
  - exists (generateCandidates (serverCache w) parsed). split; [right; by exists parsed|].
    apply (fix_loop_pass_state id isRetry parsed _ 0); cbn; try lia. done.
Qed.

Lemma deliver_pass_state cands n0 evs ev t img w :
  pass_state cands n0 evs (img, w, Await t) ->
  pass_state cands n0 (evs ++ [ev]) (deliver_ ev t img w).
Proof.
  intros ([Hp Hlook] & <- & Hevs & Hnet & Hle).
  pose proof (lookup_lt_Some _ _ _ Hlook) as Hlt.
  assert (forall e w1,
    net w1 = net w -> (e = r_timeout -> ev = TimerFired) ->
    pass_state (t_candidates t) n0 (evs ++ [ev]) (resume_ t (Rejected e) img w1)) as Hrej.
  { intros e w1 Hn1 He. cbn [resume]. unfold catch_error.
    destruct (bool_decide (e = r_timeout) && (abort_after <? t_i t)) eqn:Hc.
    - unfold fail_pass. destruct (negb (t_isRetry t) && _); cbn; rewrite Hn1;
        (split; [lia|]); intros [= ->]; rewrite (He eq_refl); set_solver.
    - apply fix_loop_pass_state.
      + rewrite length_app. cbn. lia.
      + rewrite Hn1. lia.
      + lia.
      + intros [= ->]. rewrite (He eq_refl). set_solver. }
  unfold deliver. rewrite Hp, probe_event_fresh.
  destruct ev as [|width height|].
  - apply Hrej; done.
  - destruct ((1 <? width) || (1 <? height)).
    + cbn [resume t_probe p_url].
      destruct (succeed (t_img t) (t_parsed t) (p_url (t_probe t)) img w)
        as [[img' w'] st] eqn:Hs.
      apply succeed_summary in Hs as (-> & _ & _ & Hn & _ & Hsrc & Hdone).
      cbn. split; [by eapply list_elem_of_lookup_2|]. rewrite Hn. repeat split; try done. lia.
    + apply Hrej; done.
  - apply Hrej; done.
Qed.

Lemma run_pass_state cands n0 evs0 evs r :
  pass_state cands n0 evs0 r -> pass_state cands n0 (evs0 ++ evs) (run_ evs r).
Proof.
  revert evs0 r. induction evs as [|ev evs IH]; intros evs0 [[img w] st] Hr.
  - by rewrite app_nil_r.
  - destruct st as [e|t]; [by apply pass_state_more|]. cbn [run].
    replace (evs0 ++ ev :: evs) with ((evs0 ++ [ev]) ++ evs) by (by rewrite <- app_assoc).
    apply IH. by apply deliver_pass_state.
Qed.

End PassFacts.

Lemma Strict_pass_state evs id isRetry img w :
  exists cands,
    length cands <= Strict.MAX_ATTEMPTS /\
    (cands = [] \/
     exists parsed, parseSubdomain (src img) = Some parsed /\
                    cands = Strict.generateCandidates (serverCache w) parsed) /\
    pass_state cands (length (net w)) evs (Strict.run evs (Strict.fixImage id isRetry img w)).
Proof.
  destruct (fixImage_pass_state Strict.generateCandidates (fun _ => Strict.PROBE_TIMEOUT) 6
              id isRetry img w) as (cands & Hc & Hs).
  exists cands. split; [|split; [done|]].
  - destruct Hc as [->|(parsed & _ & ->)]; [cbn; lia|].
    apply (finish_candidates_spec Strict.MAX_ATTEMPTS).
  - apply (run_pass_state (fun _ => Strict.PROBE_TIMEOUT) 6 cands _ [] evs _ Hs).
Qed.

(** X6. A pass of [fixImage], followed through any events of its probes,
    starts at most [MAX_ATTEMPTS] (15) image loads, and after 15 events
    it has returned: a pass ends, whatever the network does. *)
Theorem pass_bounded (evs : list ProbeEvent) (id : ImgId) (isRetry : bool)
    (img : Img) (w : World) :
  length (net (Strict.run evs (Strict.fixImage id isRetry img w)).1.2)
    <= length (net w) + Strict.MAX_ATTEMPTS /\
  (Strict.MAX_ATTEMPTS <= length evs ->
   exists e, (Strict.run evs (Strict.fixImage id isRetry img w)).2 = Return e).
Proof.
  destruct (Strict_pass_state evs id isRetry img w) as (cands & Hlen & _ & Hs).
  destruct (Strict.run evs (Strict.fixImage id isRetry img w)) as [[img' w'] st].
  cbn [fst snd]. destruct st as [e|t].
  - split; [|by exists e]. destruct e as [| |u|how le]; cbn in Hs.
    + lia.
    + lia.
    + destruct Hs as (_ & _ & _ & Hn). lia.
    + destruct Hs as [Hn _]. lia.
  - destruct Hs as ([_ Hlook] & Hc & Hevs & Hnet & _).
    apply lookup_lt_Some in Hlook. rewrite Hc in Hlook. split; [lia|]. lia.
Qed.

(** X7. When a pass ends with a success, the address it has written to
    the element is one of the candidates generated from the address the
    element had when the pass began, and the element is marked ["done"]. *)
Theorem success_is_candidate (evs : list ProbeEvent) (id : ImgId) (isRetry : bool)
    (img img' : Img) (w w' : World) (u : str) :
  Strict.run evs (Strict.fixImage id isRetry img w) = (img', w', Return (ExitSuccess u)) ->
  exists parsed,
    parseSubdomain (src img) = Some parsed /\
    u ∈ Strict.generateCandidates (serverCache w) parsed /\
    src img' = u /\ batoFixing img' = Some ("done" : str).
Proof.
  intros Hrun. destruct (Strict_pass_state evs id isRetry img w) as (cands & _ & Hc & Hs).
  rewrite Hrun in Hs. destruct Hs as (Hu & Hsrc & Hdone & _).
  destruct Hc as [->|(parsed & Hp & ->)]; [by apply elem_of_nil in Hu|].
  by exists parsed.
Qed.

Lemma success_is_candidate_witness :
  exists parsed,
    parseSubdomain (src img0) = Some parsed /\
    ("https://n01.mbdny.org/a/b/c/1.jpg" : str)
      ∈ Strict.generateCandidates (serverCache initial_world) parsed /\
    src (Strict.run [Errored; Loaded 1 1; Loaded 1 2]
           (Strict.fixImage 0 false img0 initial_world)).1.1
      = "https://n01.mbdny.org/a/b/c/1.jpg" /\
    batoFixing (Strict.run [Errored; Loaded 1 1; Loaded 1 2]
                  (Strict.fixImage 0 false img0 initial_world)).1.1
      = Some ("done" : str).
Proof.
  apply (success_is_candidate [Errored; Loaded 1 1; Loaded 1 2] 0 false img0 _
           initial_world
           (Strict.run [Errored; Loaded 1 1; Loaded 1 2]
              (Strict.fixImage 0 false img0 initial_world)).1.2).
  by vm_compute.
Defined.

(** X8. A pass in which no probe timer runs out never schedules a retry:
    whatever its probes report otherwise (transport errors, degenerate
    images), no callback is added, and if it ends without success the
    element is marked ["failed"]. *)
Theorem no_timeout_no_retry (evs : list ProbeEvent) (id : ImgId) (isRetry : bool)
    (img : Img) (w : World) :
  TimerFired ∉ evs ->
  timers (Strict.run evs (Strict.fixImage id isRetry img w)).1.2 = timers w /\
  (forall how lastError,
     (Strict.run evs (Strict.fixImage id isRetry img w)).2
       = Return (ExitUnresolved how lastError) ->
     how = Exhausted /\ lastError <> Some r_timeout /\
     batoFixing (Strict.run evs (Strict.fixImage id isRetry img w)).1.1
       = Some ("failed" : str)).
Proof.
  intros Hno. destruct (Strict_pass_state evs id isRetry img w) as (cands & _ & _ & Hs).
  assert (retry_rule id isRetry w (Strict.run evs (Strict.fixImage id isRetry img w))) as Hr.
  { apply run_retry_rule.
    destruct (Strict.fixImage id isRetry img w) as [[img1 w1] st1] eqn:Hf.
    by apply fixImage_summary in Hf as (_ & _ & _ & _ & Hr & _). }
  destruct (Strict.run evs (Strict.fixImage id isRetry img w)) as [[img' w'] st] eqn:Hrun.
  cbn [fst snd]. destruct st as [[| |u|how le]|t]; cbn in Hr, Hs; try (split; [tauto|done]).
  destruct Hs as [_ Hle].
  assert (le <> Some r_timeout) as Hne by (intros Heq; by apply Hno, Hle).
  rewrite (bool_decide_eq_false_2 _ Hne), andb_false_r in Hr. destruct Hr as [Htm Hflag].
  split; [done|]. intros how' le' [= <- <-]. split; [|done].
  destruct how as [|i]; [done|]. exfalso.
  unfold Strict.run in Hrun. apply run_broke in Hrun as [Heq|(Hin & _)]; [|done].
  apply fixImage_summary in Heq as (_ & _ & _ & _ & _ & _ & _ & Hb). by destruct (Hb i le).
Qed.

Lemma no_timeout_no_retry_witness :
  timers (Strict.run (replicate 15 Errored) (Strict.fixImage 0 false img0 initial_world)).1.2
    = timers initial_world /\
  (forall how lastError,
     (Strict.run (replicate 15 Errored) (Strict.fixImage 0 false img0 initial_world)).2
       = Return (ExitUnresolved how lastError) ->
     how = Exhausted /\ lastError <> Some r_timeout /\
     batoFixing (Strict.run (replicate 15 Errored)
                   (Strict.fixImage 0 false img0 initial_world)).1.1
       = Some ("failed" : str)).
Proof.
  apply (no_timeout_no_retry (replicate 15 Errored) 0 false img0 initial_world).
  apply (bool_decide_unpack _). by vm_compute.
Defined.

(** ** A success and the resources of the same group *)

Lemma apply_srcset_cases u i :
  apply_srcset u i = i \/ exists ns, apply_srcset u i = set_srcset ns i.
Proof.
  unfold apply_srcset. destruct (truthy (srcset i)); [|by left].
  destruct (rewriteSrcset _ _) as [ns|]; [|by left].
  destruct (truthy ns); [right; by exists ns | by left].
Qed.

(** X9. When the image of a probe loads with a width or a height above 1,
    the call that waits for it ends with a success: the element gets the
    probed address and [no-referrer], is marked ["done"] and fixed and
    leaves [processingImages]; nothing is added to the failure cache and no
    load is started; and if the probed address parses, its host is stored
    in the success cache under the group of the address the pass began
    with.  From then on, for every address of the same group, the first
    candidate is that host with the path of that address (in the revision
    of lines 1-364, the host being a [k] or [n] host). *)
Theorem success_seeds_group (t : Task) (img : Img) (w : World) (width height : nat)
    (sp : Address) :
  timedOut (t_probe t) = false ->
  1 < width \/ 1 < height ->
  parseSubdomain (p_url (t_probe t)) = Some sp ->
  exists img' w',
    Strict.deliver (Loaded width height) t img w
      = (img', w', Return (ExitSuccess (p_url (t_probe t)))) /\
    src img' = p_url (t_probe t) /\ referrerPolicy img' = "no-referrer" /\
    batoFixing img' = Some ("done" : str) /\ batoFixed img' = Some ("true" : str) /\
    processingImages w' = processingImages w ∖ {[t_img t]} /\
    failedCache w' = failedCache w /\ net w' = net w /\ timers w' = timers w /\
    serverCache w'
      = <[group_key (t_parsed t) :=
            mkCacheEntry (prefix sp) (number sp) (root sp) (tld sp)]> (serverCache w) /\
    (forall sibling,
       group_key sibling = group_key (t_parsed t) ->
       prefix sp = "k" \/ prefix sp = "n" ->
       head (Strict.generateCandidates (serverCache w') sibling)
       = Some (render_url (prefix sp) (number sp) (root sp) (tld sp) (path sibling))).
Proof.
  intros Hto Hdim Hsp.
  assert ((1 <? width) || (1 <? height) = true) as Hb.
  { apply orb_true_iff. destruct Hdim; [left | right]; by apply Nat.ltb_lt. }
  unfold Strict.deliver, deliver, probe_event. rewrite Hto, Hb. cbn [resume].
  unfold succeed. rewrite Hsp. eexists _, _. split; [reflexivity|].
  cbn [src referrerPolicy batoFixing batoFixed set_batoFixed set_batoFixing
       processingImages failedCache net timers serverCache
       set_processingImages set_serverCache].
  destruct (apply_srcset_cases (p_url (t_probe t))
              (set_src (p_url (t_probe t)) (set_referrerPolicy "no-referrer" img)))
    as [->|[ns ->]]; (repeat (split; [done|])).
  all: intros sibling Hk Hkn;
    apply (Strict_cached_head _ sibling
             (mkCacheEntry (prefix sp) (number sp) (root sp) (tld sp))); [|done];
    rewrite Hk; apply lookup_insert_eq.
Qed.

Lemma success_seeds_group_witness :
  exists img' w',
    Strict.deliver (Loaded 800 1200)
      (mkTask 0 false k03 (Strict.generateCandidates ∅ k03) 0 None
         (mkProbe "https://n03.mbdny.org/a/b/c/1.jpg" "https://n03.mbdny.org" 3000 false false))
      img0 initial_world
      = (img', w', Return (ExitSuccess "https://n03.mbdny.org/a/b/c/1.jpg")) /\
    src img' = "https://n03.mbdny.org/a/b/c/1.jpg" /\ referrerPolicy img' = "no-referrer" /\
    batoFixing img' = Some ("done" : str) /\ batoFixed img' = Some ("true" : str) /\
    processingImages w' = processingImages initial_world ∖ {[0]} /\
    failedCache w' = failedCache initial_world /\ net w' = net initial_world /\
    timers w' = timers initial_world /\
    serverCache w'
      = <[group_key k03 := mkCacheEntry "n" 3 "mbdny" "org"]> (serverCache initial_world) /\
    (forall sibling,
       group_key sibling = group_key k03 ->
       ("n" : str) = "k" \/ ("n" : str) = "n" ->
       head (Strict.generateCandidates (serverCache w') sibling)
       = Some (render_url "n" 3 "mbdny" "org" (path sibling))).
Proof.
  apply (success_seeds_group
           (mkTask 0 false k03 (Strict.generateCandidates ∅ k03) 0 None
              (mkProbe "https://n03.mbdny.org/a/b/c/1.jpg" "https://n03.mbdny.org" 3000
                 false false))
           img0 initial_world 800 1200 (mkAddress "n" 3 "mbdny" "org" "/a/b/c/1.jpg")).
  - reflexivity.
  - left. lia.
  - reflexivity.
Defined.

(** ** The fast path and its check *)

(** X10. [preemptiveFix] acts on [k] addresses only: when the address of
    the element does not parse, or parses with another prefix ([n]
    included), it returns false and leaves the element as it is; and it
    returns true only for an address that parses with the prefix [k], the
    element then being marked and its address kept in [originalSrc]. *)
Theorem preemptiveFix_only_k (img : Img) (w : World) :
  ((forall a, parseSubdomain (src img) = Some a -> prefix a <> "k") ->
   Strict.preemptiveFix img w = (img, false)) /\
  (forall img', Strict.preemptiveFix img w = (img', true) ->
     (exists a, parseSubdomain (src img) = Some a /\ prefix a = "k") /\
     batoPreemptive img' = Some ("true" : str) /\
     originalSrc img' = Some (src img) /\
     referrerPolicy img' = "no-referrer" /\
     complete img' = complete img /\ batoFixing img' = batoFixing img).
Proof.
  unfold Strict.preemptiveFix, preemptiveFix. split.
  - intros Hno. destruct (parseSubdomain (src img)) as [a|] eqn:Ha; [|done].
    unfold str_eqb. by rewrite (bool_decide_eq_false_2 _ (Hno a eq_refl)).
  - intros img'. destruct (parseSubdomain (src img)) as [a|] eqn:Ha; [|done].
    unfold str_eqb at 1. case_bool_decide as Hk; [|done]. cbn [negb].
    destruct (serverCache w !! group_key a) as [cached|]; intros [= <-];
      (split; [by exists a|]); unfold apply_swap;
      cbn [batoPreemptive set_batoPreemptive originalSrc referrerPolicy complete batoFixing];
      destruct (truthy _);
      try (match goal with
           | |- context [apply_srcset ?u ?i] =>
               destruct (apply_srcset_cases u i) as [->|[ns ->]]
           end); done.
Qed.

Lemma revert_swap_fields newUrl img :
  truthy (src img) = true -> originalSrcset img = None ->
  src (revert_swap (apply_swap newUrl img)) = src img /\
  srcset (revert_swap (apply_swap newUrl img)) = srcset img /\
  batoPreemptive (revert_swap (apply_swap newUrl img)) = Some ("failed" : str) /\
  batoFixing (revert_swap (apply_swap newUrl img)) = batoFixing img.
Proof.
  intros Hsrc Hos. unfold apply_swap.
  cbn [srcset set_src set_referrerPolicy set_originalSrc].
  destruct (truthy (srcset img)) eqn:Hss.
  - destruct (apply_srcset_cases newUrl
                (set_originalSrcset (srcset img)
                   (set_src newUrl (set_referrerPolicy "no-referrer"
                      (set_originalSrc (src img) img))))) as [->|[ns ->]];
      unfold revert_swap;
      cbn [originalSrc originalSrcset set_batoPreemptive set_srcset set_originalSrcset
           set_src set_referrerPolicy set_originalSrc truthy_opt default from_option id];
      rewrite Hsrc;
      cbn [originalSrc originalSrcset set_batoPreemptive set_srcset set_originalSrcset
           set_src set_referrerPolicy set_originalSrc truthy_opt default from_option id];
      rewrite Hss; done.
  - unfold revert_swap;
      cbn [originalSrc originalSrcset set_batoPreemptive set_srcset set_originalSrcset
           set_src set_referrerPolicy set_originalSrc truthy_opt default from_option id];
      rewrite Hsrc;
      cbn [originalSrc originalSrcset set_batoPreemptive set_srcset set_originalSrcset
           set_src set_referrerPolicy set_originalSrc truthy_opt default from_option id];
      rewrite Hos. done.
Qed.

Lemma revert_swap_load_state c nw i :
  revert_swap (set_load_state c nw i) = set_load_state c nw (revert_swap i).
Proof.
  destruct i as [s ss rp cm nwd bf bfd bp os oss]. unfold revert_swap, set_load_state.
  cbn [originalSrc originalSrcset src srcset referrerPolicy complete naturalWidth batoFixing
       batoFixed batoPreemptive].
  destruct (truthy_opt os); [|done].
  cbn [originalSrcset set_src]. destruct (truthy_opt oss); done.
Qed.

Lemma parsed_src_truthy s a : parseSubdomain s = Some a -> truthy s = true.
Proof. destruct s; [done|]. intros _. unfold truthy, str_eqb. by rewrite bool_decide_eq_false_2. Qed.

(** X11. The fast path can be undone: after [preemptiveFix] has swapped
    the address of an element that had not been swapped before, if the
    element is then found complete with no width, [checkImage] runs
    [fixImage] on an element that has its original address and its original
    [srcset] again, verbatim, marked as a failed swap. *)
Theorem checkImage_restores (id : ImgId) (img : Img) (w w' : World) (a : Address) :
  parseSubdomain (src img) = Some a -> prefix a = "k" ->
  originalSrcset img = None ->
  exists img1 img2,
    Strict.preemptiveFix img w = (img1, true) /\
    checkImage Strict.fixImage id (set_load_state true 0 img1) w'
      = Strict.fixImage id false img2 w' /\
    src img2 = src img /\ srcset img2 = srcset img /\
    batoPreemptive img2 = Some ("failed" : str) /\ batoFixing img2 = batoFixing img.
Proof.
  intros Ha Hk Hos. unfold Strict.preemptiveFix, preemptiveFix. rewrite Ha.
  unfold str_eqb at 1. rewrite (bool_decide_eq_true_2 _ Hk). cbn [negb].
  destruct (serverCache w !! group_key a) as [cached|].
  all: eexists _, _; split; [reflexivity|].
  all: match goal with
       | |- context [apply_swap ?u ?i] =>
           destruct (revert_swap_fields u i (parsed_src_truthy _ _ Ha) Hos)
             as (H1 & H2 & H3 & H4);
           assert (batoPreemptive (apply_swap u i) = Some ("true" : str)) as Hbp by done
       end.
  all: split;
    [unfold checkImage; cbn [batoPreemptive complete naturalWidth set_load_state];
     rewrite Hbp; unfold is_str; rewrite bool_decide_eq_true_2 by done; reflexivity|].
  all: rewrite revert_swap_load_state;
    by cbn [src srcset batoPreemptive batoFixing set_load_state].
Qed.

Lemma checkImage_restores_witness :
  exists img1 img2,
    Strict.preemptiveFix img0 initial_world = (img1, true) /\
    checkImage Strict.fixImage 0 (set_load_state true 0 img1) initial_world
      = Strict.fixImage 0 false img2 initial_world /\
    src img2 = src img0 /\ srcset img2 = srcset img0 /\
    batoPreemptive img2 = Some ("failed" : str) /\ batoFixing img2 = batoFixing img0.
Proof.
  apply (checkImage_restores 0 img0 initial_world initial_world k03); reflexivity.
Defined.

(** ** rewriteSrcset *)

Lemma replace_hosts_no_http fuel newBase s :
  no_http s -> replace_hosts fuel newBase s = s.
Proof.
  revert s. induction fuel as [|fuel IH]; intros s Hs; [done|].
  destruct s as [|c r]; [done|]. cbn [replace_hosts].
  assert (re_host 1 3 (c :: r) = None) as ->.
  { pose proof (Hs 0) as H0. rewrite drop_0 in H0. unfold re_host. by rewrite H0. }
  f_equal. apply IH. intros k. apply (Hs (S k)).
Qed.

Lemma parse_re_host s a :
  parseSubdomain s = Some a -> exists g, re_host 1 3 s = Some (g, path a).
Proof.
  unfold parseSubdomain, SUBDOMAIN_RE, re_exec.
  destruct (re_host 1 3 s) as [[[[[g1 g2] g3] g4] s9]|]; [|done]. cbn [mbind option_bind].
  destruct s9 as [|c rest]; [done|].
  destruct (bool_decide (c = "/"%char)) eqn:Hc.
  2:{ apply bool_decide_eq_false in Hc. intros H. exfalso. revert H Hc. clear. ascii_cases c. }
  apply bool_decide_eq_true in Hc as ->.
  destruct (forallb is_dot_char rest); [|done]. intros [= <-]. by eexists.
Qed.

(** [rewriteSrcset] returns [null] exactly when the [srcset] is empty or
    the working address does not parse. *)
Lemma rewriteSrcset_null (ss workingUrl : str) :
  rewriteSrcset ss workingUrl = None <-> ss = [] \/ parseSubdomain workingUrl = None.
Proof.
  unfold rewriteSrcset, truthy, str_eqb. split.
  - case_bool_decide as Hs; [by left|]. cbn [negb].
    destruct (parseSubdomain workingUrl); [done | by right].
  - intros [-> | ->]; [done|]. by destruct (negb _).
Qed.

(** X12. For a [srcset] that is one address of the family, whose path has
    no further occurrence of [http], [rewriteSrcset] gives the scheme and
    host of the working address followed by the path of the [srcset]
    address, unchanged. *)
Theorem rewriteSrcset_single (ss workingUrl : str) (a wa : Address) :
  parseSubdomain ss = Some a -> parseSubdomain workingUrl = Some wa ->
  no_http (path a) ->
  rewriteSrcset ss workingUrl
  = Some (render_base (prefix wa) (number wa) (root wa) (tld wa) ++ path a).
Proof.
  intros Ha Hwa Hno. unfold rewriteSrcset.
  rewrite (parsed_src_truthy _ _ Ha), Hwa. cbn [negb]. f_equal.
  destruct (parse_re_host ss a Ha) as [g Hg].
  destruct ss as [|c r]; [done|]. cbn [length replace_hosts]. rewrite Hg.
  f_equal. by apply replace_hosts_no_http.
Qed.

Lemma no_http_example : no_http "/a/b/c/1.jpg 2x".
Proof.
  intros k. do 16 (destruct k as [|k]; [reflexivity|]). by rewrite drop_ge by (cbn; lia).
Qed.

Lemma rewriteSrcset_single_witness :
  rewriteSrcset "https://k03.mbdny.org/a/b/c/1.jpg 2x" "https://n07.mbrtz.org/x/y.jpg"
  = Some (render_base "n" 7 "mbrtz" "org" ++ "/a/b/c/1.jpg 2x").
Proof.
  apply (rewriteSrcset_single "https://k03.mbdny.org/a/b/c/1.jpg 2x"
           "https://n07.mbrtz.org/x/y.jpg"
           (mkAddress "k" 3 "mbdny" "org" "/a/b/c/1.jpg 2x")
           (mkAddress "n" 7 "mbrtz" "org" "/x/y.jpg")).
  - reflexivity.
  - reflexivity.
  - apply no_http_example.
Defined.

(** ** The broken address is not tried again *)

Lemma Strict_add_other (orig parsed : Address) (p : str) n r t prio c :
  (p = "k" \/ p = "n" -> parseSubdomain (render_url p n r t (path parsed)) <> Some orig) ->
  Forall (fun x => parseSubdomain (url x) <> Some orig) c ->
  Forall (fun x => parseSubdomain (url x) <> Some orig) (Strict.add parsed p n r t prio c).
Proof.
  intros Hne Hc. unfold Strict.add, str_eqb.
  destruct (decide (p = "k")) as [Hk|Hk], (decide (p = "n")) as [Hn|Hn];
    rewrite ?(bool_decide_eq_true_2 _ Hk), ?(bool_decide_eq_true_2 _ Hn),
            ?(bool_decide_eq_false_2 _ Hk), ?(bool_decide_eq_false_2 _ Hn);
    cbn [negb andb]; try done;
    (apply Forall_app; split; [done|]; apply Forall_singleton; cbn [url]; tauto).
Qed.

Lemma render_url_other (parsed : Address) (p : str) n r t :
  wf_fields p n r t -> wf_path (path parsed) ->
  p <> prefix parsed \/ n <> number parsed \/ r <> root parsed \/ t <> tld parsed ->
  parseSubdomain (render_url p n r t (path parsed)) <> Some parsed.
Proof.
  intros Hf Hp Hd. rewrite (parseSubdomain_render_url p n r t (path parsed) Hf Hp).
  intros [= Heq]. rewrite <- Heq in Hd. cbn [prefix number root tld] in Hd. tauto.
Qed.

Lemma Strict_candidates_other cache parsed :
  wf_address parsed ->
  (forall c, cache !! group_key parsed = Some c ->
     wf_entry c /\
     (c_prefix c <> prefix parsed \/ c_number c <> number parsed \/
      c_root c <> root parsed \/ c_tld c <> tld parsed)) ->
  Forall (fun x => parseSubdomain (url x) <> Some parsed) (Strict.candidates cache parsed).
Proof.
  intros [(Hp & Hlp & Hn & Hr & Hlr & Ht) Hpath] Hcache.
  unfold Strict.candidates, forEach, for_range. cbv zeta.
  apply fold_left_invariant_in.
  2:{ intros s fb Hfb Hs.
      pose proof Strict_fallback_roots_ok as Hok. rewrite forallb_forall in Hok.
      apply list_elem_of_In, Hok in Hfb. unfold fallback_ok in Hfb. cbv zeta in Hfb.
      apply andb_true_iff in Hfb as [[[_ Hne]%andb_true_iff Hl]%andb_true_iff Htl%bool_decide_eq_true].
      destruct (_ && _) eqn:Hg; [|done]. apply Strict_add_other; [|done]. intros Hkn.
      apply andb_true_iff in Hg as [_ Hg]. unfold str_eqb in Hg, Hne.
      apply negb_true_iff, bool_decide_eq_false in Hg, Hne.
      apply render_url_other; [apply wf_fields_k_n; by try done | done | tauto]. }
  apply fold_left_invariant_in.
  2:{ intros s i Hi Hs. apply list_elem_of_In, in_seq in Hi.
      destruct (negb _) eqn:Hg; [|done].
      apply negb_true_iff, Nat.eqb_neq in Hg.
      apply Strict_add_other; [|done]. intros Hkn.
      apply render_url_other; [apply wf_fields_k_n; try done | done | tauto].
      unfold Strict.MAX_SERVER_NUM in Hi. lia. }
  assert (Forall (fun x => parseSubdomain (url x) <> Some parsed)
            (match cache !! group_key parsed with
             | Some cached =>
                 Strict.add parsed (c_prefix cached) (c_number cached) (c_root cached)
                   (c_tld cached) 0 []
             | None => []
             end)) as H0.
  { destruct (cache !! group_key parsed) as [cached|] eqn:Hc; [|constructor].
    destruct (Hcache cached eq_refl) as [Hwf Hd].
    apply Strict_add_other; [|constructor]. intros _. by apply render_url_other. }
  unfold str_eqb. case_bool_decide as Hk; (apply Strict_add_other; [|done]); intros Hkn;
    (apply render_url_other; [by apply wf_fields_k_n | done |]).
  - left. by rewrite Hk.
  - left. congruence.
Qed.

(** X13. In the revision of lines 1-364, the address that failed is not
    among the candidates: when the success cache has no entry for the
    group, or one that differs from the host of the address, no URL that
    [generateCandidates] returns is the address of the element. *)
Theorem Strict_candidates_exclude_original (cache : gmap str CacheEntry) (s : str)
    (parsed : Address) :
  parseSubdomain s = Some parsed ->
  (forall c, cache !! group_key parsed = Some c ->
     wf_entry c /\
     (c_prefix c <> prefix parsed \/ c_number c <> number parsed \/
      c_root c <> root parsed \/ c_tld c <> tld parsed)) ->
  s ∉ Strict.generateCandidates cache parsed.
Proof.
  intros Hs Hcache Hin.
  destruct (finish_candidates_spec Strict.MAX_ATTEMPTS (Strict.candidates cache parsed))
    as (_ & _ & Hfrom & _).
  destruct (Hfrom s Hin) as (c & Hc & Hu).
  pose proof (Strict_candidates_other cache parsed (proj1 (parse_fields s parsed Hs)) Hcache)
    as Hall.
  rewrite Forall_forall in Hall. apply (Hall c Hc). by rewrite Hu.
Qed.

Lemma Strict_candidates_exclude_original_witness :
  k03_src ∉ Strict.generateCandidates ∅ k03.
Proof.
  apply (Strict_candidates_exclude_original ∅ k03_src k03).
  - reflexivity.
  - intros c Hc. by rewrite lookup_empty in Hc.
Defined.

Lemma Smart_add_other parsed (p : str) n r t prio c :
  wf_fields p n r t ->
  p <> prefix parsed \/ n <> number parsed \/ r <> root parsed \/ t <> tld parsed ->
  Forall (other_candidate parsed) c ->
  Forall (other_candidate parsed) (Smart.add parsed p n r t prio c).
Proof.
  intros Hwf Hd Hc. unfold Smart.add. apply Forall_app. split; [done|].
  apply Forall_singleton. by exists p, n, r, t.
Qed.

Lemma Smart_fallback_roots_ok : forallb fallback_ok Smart.FALLBACK_ROOTS = true.
Proof. by vm_compute. Qed.

Lemma Smart_fallback_prefixes_ok :
  forallb (fun p => negb (str_eqb p []) && forallb is_lower p) Smart.FALLBACK_PREFIXES = true.
Proof. by vm_compute. Qed.

Lemma Smart_candidates_other cache parsed :
  wf_address parsed ->
  (forall c, cache !! group_key parsed = Some c ->
     wf_entry c /\
     (c_prefix c <> prefix parsed \/ c_number c <> number parsed \/
      c_root c <> root parsed \/ c_tld c <> tld parsed)) ->
  Forall (other_candidate parsed) (Smart.candidates cache parsed).
Proof.
  intros [(Hp & Hlp & Hn & Hr & Hlr & Ht) Hpath] Hcache.
  unfold Smart.candidates, forEach, for_range. cbv zeta.
  apply fold_left_invariant_in.
  2:{ intros s i Hi Hs. apply list_elem_of_In, in_seq in Hi.
      destruct (negb _) eqn:Hg; [|done].
      apply negb_true_iff, Nat.eqb_neq in Hg.
      apply Smart_add_other; [|tauto|done]. repeat split; try done.
      unfold Smart.MAX_SERVER_NUM in Hi. lia. }
  apply fold_left_invariant_in.
  2:{ intros s fb Hfb Hs.
      pose proof Smart_fallback_roots_ok as Hok. rewrite forallb_forall in Hok.
      apply list_elem_of_In, Hok in Hfb. unfold fallback_ok in Hfb. cbv zeta in Hfb.
      apply andb_true_iff in Hfb as [[[_ Hne]%andb_true_iff Hl]%andb_true_iff Htl%bool_decide_eq_true].
      destruct (_ && _) eqn:Hg; [|done].
      apply andb_true_iff in Hg as [_ Hg]. unfold str_eqb in Hg, Hne.
      apply negb_true_iff, bool_decide_eq_false in Hg, Hne.
      assert (Forall (other_candidate parsed)
                (Smart.add parsed (prefix parsed) (number parsed) (split "." fb !!! 0)
                   (split "." fb !!! 1) 4 s)) as H1.
      { apply Smart_add_other; [|tauto|done]. by repeat split. }
      destruct (str_eqb (prefix parsed) "k"); [|done].
      apply Smart_add_other; [|tauto|done]. by repeat split. }
  apply fold_left_invariant_in.
  2:{ intros s i Hi Hs. apply list_elem_of_In, in_seq in Hi.
      destruct (negb _) eqn:Hg; [|done].
      apply negb_true_iff, Nat.eqb_neq in Hg.
      apply Smart_add_other; [|tauto|done]. repeat split; try done.
      unfold Smart.MAX_SERVER_NUM in Hi. lia. }
  apply fold_left_invariant_in.
  2:{ intros s letter Hl Hs.
      pose proof Smart_fallback_prefixes_ok as Hok. rewrite forallb_forall in Hok.
      apply list_elem_of_In, Hok in Hl.
      apply andb_true_iff in Hl as [Hne Hlow]. unfold str_eqb in Hne.
      apply negb_true_iff, bool_decide_eq_false in Hne.
      destruct (_ && _) eqn:Hg; [|done].
      apply andb_true_iff in Hg as [[Hg _]%andb_true_iff _]. unfold str_eqb in Hg.
      apply negb_true_iff, bool_decide_eq_false in Hg.
      apply Smart_add_other; [|tauto|done]. by repeat split. }
  assert (Forall (other_candidate parsed)
            (match cache !! group_key parsed with
             | Some cached =>
                 Smart.add parsed (c_prefix cached) (c_number cached) (c_root cached)
                   (c_tld cached) 0 []
             | None => []
             end)) as H0.
  { destruct (cache !! group_key parsed) as [cached|] eqn:Hc; [|constructor].
    destruct (Hcache cached eq_refl) as [Hwf Hd].
    by apply Smart_add_other; [| |constructor]. }
  unfold str_eqb. case_bool_decide as Hk; [|done].
  repeat (apply Smart_add_other; [by repeat split | left; by rewrite Hk |]). done.
Qed.

(** X14. In the revision of lines 1121-1512, for the Address of an element
    and a success cache whose entry for the group, if any, is well formed
    and on another host than the address: every URL that
    [generateCandidates] returns parses again, with the path of the
    original, is the rendering of what it parses to, and is on another
    host than the address of the element, which is therefore not among
    them. *)
Theorem Smart_candidates_parse (cache : gmap str CacheEntry) (s u : str)
    (parsed : Address) :
  parseSubdomain s = Some parsed ->
  (forall c, cache !! group_key parsed = Some c ->
     wf_entry c /\
     (c_prefix c <> prefix parsed \/ c_number c <> number parsed \/
      c_root c <> root parsed \/ c_tld c <> tld parsed)) ->
  u ∈ Smart.generateCandidates cache parsed ->
  exists a, parseSubdomain u = Some a /\ path a = path parsed /\ u = render a /\
            a <> parsed /\ u <> s.
Proof.
  intros Hs Hcache Hu.
  destruct (finish_candidates_spec Smart.MAX_ATTEMPTS (Smart.candidates cache parsed))
    as (_ & _ & Hfrom & _).
  destruct (Hfrom u Hu) as (c & Hc & <-).
  destruct (parse_fields s parsed Hs) as [Hwf _].
  pose proof (Smart_candidates_other cache parsed Hwf Hcache) as Hall.
  rewrite Forall_forall in Hall. destruct (Hall c Hc) as (p & n & r & t & Hf & Hurl & Hd).
  assert (parseSubdomain (url c) = Some (mkAddress p n r t (path parsed))) as Hparse.
  { rewrite Hurl. apply parseSubdomain_render_url; [done | by destruct Hwf]. }
  assert (mkAddress p n r t (path parsed) <> parsed) as Hne.
  { intros Heq. rewrite <- Heq in Hd. cbn [prefix number root tld] in Hd. tauto. }
  exists (mkAddress p n r t (path parsed)). repeat split; try done.
  intros Heq. rewrite Heq in Hparse. congruence.
Qed.

Lemma Smart_candidates_parse_witness :
  exists a, parseSubdomain "https://n03.mbdny.org/a/b/c/1.jpg" = Some a /\
            path a = path k03 /\ ("https://n03.mbdny.org/a/b/c/1.jpg" : str) = render a /\
            a <> k03 /\ ("https://n03.mbdny.org/a/b/c/1.jpg" : str) <> k03_src.
Proof.
  apply (Smart_candidates_parse ∅ k03_src "https://n03.mbdny.org/a/b/c/1.jpg" k03).
  - reflexivity.
  - intros c Hc. by rewrite lookup_empty in Hc.
  - apply (bool_decide_unpack _). by vm_compute.
Defined.

(** ** The revision of lines 783-1120 *)

Lemma render_url_inj (p p' : str) n n' r r' t t' pth :
  wf_fields p n r t -> wf_fields p' n' r' t' -> wf_path pth ->
  render_url p n r t pth = render_url p' n' r' t' pth ->
  p = p' /\ n = n' /\ r = r' /\ t = t'.
Proof.
  intros Hf Hf' Hp Heq.
  pose proof (parseSubdomain_render_url p n r t pth Hf Hp) as H1.
  pose proof (parseSubdomain_render_url p' n' r' t' pth Hf' Hp) as H2.
  rewrite Heq, H2 in H1. by injection H1 as -> -> -> ->.
Qed.

Lemma isProblematicKServer_spec s :
  Background.isProblematicKServer s = true
  <-> exists a, parseSubdomain s = Some a /\ prefix a = "k".
Proof.
  unfold Background.isProblematicKServer, str_eqb. split.
  - destruct (parseSubdomain s) as [a|]; [|done].
    intros H%bool_decide_eq_true. by exists a.
  - intros (a & -> & ->). done.
Qed.

(** X15. [generateFixedUrl] gives an address exactly for the prefix [k];
    for the Address that [parseSubdomain] returns for a [k] address, what
    it gives parses to the same Address with the prefix [n], so that it is
    no problematic [k] server and [generateFixedUrl] has no address for
    it. *)
Theorem generateFixedUrl_n (s : str) (parsed : Address) :
  parseSubdomain s = Some parsed ->
  (Background.generateFixedUrl parsed = None <-> prefix parsed <> "k") /\
  forall u, Background.generateFixedUrl parsed = Some u ->
    Background.isProblematicKServer s = true /\
    parseSubdomain u
    = Some (mkAddress "n" (number parsed) (root parsed) (tld parsed) (path parsed)) /\
    Background.isProblematicKServer u = false /\
    Background.generateFixedUrl
      (mkAddress "n" (number parsed) (root parsed) (tld parsed) (path parsed)) = None.
Proof.
  intros Hs. destruct (parse_fields s parsed Hs) as [[Hf Hp] _].
  unfold Background.generateFixedUrl, str_eqb. split.
  - case_bool_decide; split; done.
  - intros u. case_bool_decide as Hk; [|done]. intros [= <-].
    assert (parseSubdomain (render_url "n" (number parsed) (root parsed) (tld parsed)
                              (path parsed))
            = Some (mkAddress "n" (number parsed) (root parsed) (tld parsed) (path parsed)))
      as Hn.
    { apply parseSubdomain_render_url; [|done].
      destruct Hf as (_ & _ & ? & ? & ? & ?). by repeat split. }
    split; [apply isProblematicKServer_spec; by exists parsed|].
    split; [done|]. split; [|done].
    unfold Background.isProblematicKServer.
    by rewrite (Hn : parseSubdomain (render_url ["n"%char] _ _ _ _) = _).
Qed.

Lemma generateFixedUrl_n_witness :
  (Background.generateFixedUrl k03 = None <-> prefix k03 <> "k") /\
  forall u, Background.generateFixedUrl k03 = Some u ->
    Background.isProblematicKServer k03_src = true /\
    parseSubdomain u
    = Some (mkAddress "n" (number k03) (root k03) (tld k03) (path k03)) /\
    Background.isProblematicKServer u = false /\
    Background.generateFixedUrl
      (mkAddress "n" (number k03) (root k03) (tld k03) (path k03)) = None.
Proof. apply (generateFixedUrl_n k03_src k03). reflexivity. Defined.

Lemma forEach_push {A} (l : list A) (cond : A -> bool) (h : A -> str) (c0 : list str) :
  fold_left (fun acc x => if cond x then acc ++ [h x] else acc) l c0
  = c0 ++ (h <$> List.filter cond l).
Proof.
  revert c0. induction l as [|a l IH]; intros c0; cbn [fold_left List.filter].
  - by rewrite app_nil_r.
  - rewrite IH. destruct (cond a); [|done]. by rewrite <- app_assoc.
Qed.

Lemma set_spread_from_fresh seen l1 l2 :
  NoDup l1 -> (forall x, x ∈ l1 -> x ∉ seen) ->
  set_spread_from seen (l1 ++ l2) = l1 ++ set_spread_from (rev l1 ++ seen) l2.
Proof.
  revert seen. induction l1 as [|x l1 IH]; intros seen Hnd Hfresh; [done|].
  apply NoDup_cons in Hnd as [Hx Hnd]. cbn [app set_spread_from].
  rewrite bool_decide_eq_false_2 by (apply Hfresh; left).
  f_equal. rewrite IH; [|done|].
  - cbn [rev]. by rewrite <- app_assoc.
  - intros y Hy [->|Hin]%elem_of_cons; [done|]. apply (Hfresh y); [by right | done].
Qed.

Lemma forEach_push_all {A} (l : list A) (h : A -> str) (c0 : list str) :
  fold_left (fun acc x => acc ++ [h x]) l c0 = c0 ++ (h <$> l).
Proof.
  revert c0. induction l as [|a l IH]; intros c0; cbn [fold_left].
  - by rewrite app_nil_r.
  - rewrite IH. by rewrite <- app_assoc.
Qed.

Lemma filter_elem_of {A} (f : A -> bool) (l : list A) x :
  x ∈ List.filter f l <-> x ∈ l /\ f x = true.
Proof. rewrite !list_elem_of_In. apply filter_In. Qed.

Lemma NoDup_fmap_filter {A B} (g : A -> B) (f : A -> bool) (l : list A) :
  NoDup (g <$> l) -> NoDup (g <$> List.filter f l).
Proof.
  induction l as [|a l IH]; [done|]. cbn [fmap list_fmap List.filter].
  intros [Ha Hl]%NoDup_cons. destruct (f a); [|by apply IH].
  cbn [fmap list_fmap]. apply NoDup_cons. split; [|by apply IH].
  intros (x & Hx & [Hin _]%filter_elem_of)%list_elem_of_fmap.
  apply Ha, list_elem_of_fmap. by exists x.
Qed.

Lemma NoDup_List_filter {A} (f : A -> bool) (l : list A) :
  NoDup l -> NoDup (List.filter f l).
Proof.
  intros Hnd. rewrite <- (list_fmap_id (List.filter f l)).
  apply NoDup_fmap_filter. by rewrite list_fmap_id.
Qed.

(** A filter over a list without duplicates drops at most as many
    elements as there are values it rejects. *)
Lemma filter_out_length {A B} (g : A -> B) (f : A -> bool) (l : list A) (removed : list B) :
  NoDup (g <$> l) ->
  (forall x, x ∈ l -> f x = false -> g x ∈ removed) ->
  length l <= length (List.filter f l) + length removed.
Proof.
  intros Hnd Hrem. rewrite <- (filter_length f l).
  apply Nat.add_le_mono_l.
  rewrite <- (length_fmap g (List.filter (fun x => negb (f x)) l)).
  apply submseteq_length, NoDup_submseteq; [by apply NoDup_fmap_filter|].
  intros y (x & -> & [Hin Hf]%filter_elem_of)%list_elem_of_fmap.
  apply Hrem; [done|]. by apply negb_true_iff.
Qed.

Lemma Background_prefixes_ok :
  forallb (fun p => negb (str_eqb p []) && forallb is_lower p)
    Background.FALLBACK_PREFIXES = true.
Proof. by vm_compute. Qed.

Lemma Background_prefixes_NoDup : NoDup Background.FALLBACK_PREFIXES.
Proof. apply (bool_decide_unpack _). by vm_compute. Qed.

Lemma Background_roots_ok : forallb fallback_ok Background.FALLBACK_ROOTS = true.
Proof. by vm_compute. Qed.

Lemma Background_roots_NoDup :
  NoDup ((fun fb => split "." fb !!! 0) <$> Background.FALLBACK_ROOTS).
Proof. apply (bool_decide_unpack _). by vm_compute. Qed.

Lemma Background_roots_inj (x y : str) :
  x ∈ Background.FALLBACK_ROOTS -> y ∈ Background.FALLBACK_ROOTS ->
  split "." x !!! 0 = split "." y !!! 0 -> x = y.
Proof.
  unfold Background.FALLBACK_ROOTS. intros Hx Hy.
  repeat (apply elem_of_cons in Hx as [->|Hx]); try (by apply elem_of_nil in Hx);
    repeat (apply elem_of_cons in Hy as [->|Hy]); try (by apply elem_of_nil in Hy);
    intros H; first [reflexivity | by vm_compute in H].
Qed.

Lemma Background_candidates_split parsed :
  exists rest,
    Background.candidates parsed
    = (((fun letter =>
           render_url letter (number parsed) (root parsed) (tld parsed) (path parsed))
        <$> Background.otherPrefixes parsed)
       ++ ((fun fb =>
              render_url (prefix parsed) (number parsed) (split "." fb !!! 0)
                (split "." fb !!! 1) (path parsed))
           <$> List.filter
                 (fun fb => (length (split "." fb) =? 2)
                            && negb (str_eqb (split "." fb !!! 0) (root parsed)))
                 Background.FALLBACK_ROOTS))
      ++ rest.
Proof.
  unfold Background.candidates, forEach, for_range, Background.add. cbv zeta.
  rewrite (forEach_push_all (Background.otherPrefixes parsed)
             (fun letter =>
                render_url letter (number parsed) (root parsed) (tld parsed) (path parsed))).
  rewrite (forEach_push Background.FALLBACK_ROOTS
             (fun fb => (length (split "." fb) =? 2)
                        && negb (str_eqb (split "." fb !!! 0) (root parsed)))
             (fun fb =>
                render_url (prefix parsed) (number parsed) (split "." fb !!! 0)
                  (split "." fb !!! 1) (path parsed))).
  rewrite (forEach_push _ (fun i => negb (i =? number parsed))
             (fun i => render_url (prefix parsed) i (root parsed) (tld parsed) (path parsed))).
  cbn [app]. by eexists.
Qed.

Section FallbackCandidates.

Variable parsed : Address.
Hypothesis Hwf : wf_address parsed.

Lemma letter_wf letter :
  letter ∈ Background.otherPrefixes parsed ->
  wf_fields letter (number parsed) (root parsed) (tld parsed) /\ letter <> prefix parsed.
Proof.
  intros [Hin Hc]%filter_elem_of.
  pose proof Background_prefixes_ok as Hok. rewrite forallb_forall in Hok.
  apply list_elem_of_In, Hok in Hin. apply andb_true_iff in Hin as [Hne Hlow], Hc as [_ Hc].
  unfold str_eqb in Hne, Hc. apply negb_true_iff, bool_decide_eq_false in Hne, Hc.
  destruct Hwf as [(_ & _ & ? & ? & ? & ?) _]. by repeat split.
Qed.

Lemma root_wf fb :
  fb ∈ List.filter (root_cond parsed) Background.FALLBACK_ROOTS ->
  wf_fields (prefix parsed) (number parsed) (split "." fb !!! 0) (split "." fb !!! 1) /\
  split "." fb !!! 0 <> root parsed.
Proof.
  intros [Hin Hc]%filter_elem_of.
  pose proof Background_roots_ok as Hok. rewrite forallb_forall in Hok.
  apply list_elem_of_In, Hok in Hin. unfold fallback_ok in Hin. cbv zeta in Hin.
  apply andb_true_iff in Hin as [[[_ Hne]%andb_true_iff Hl]%andb_true_iff Htl%bool_decide_eq_true].
  apply andb_true_iff in Hc as [_ Hc].
  unfold str_eqb in Hne, Hc. apply negb_true_iff, bool_decide_eq_false in Hne, Hc.
  destruct Hwf as [(? & ? & ? & _) _]. by repeat split.
Qed.

Lemma letters_roots_other :
  Forall (other_host parsed)
    (((letter_url parsed) <$> Background.otherPrefixes parsed)
     ++ ((root_url parsed) <$> List.filter (root_cond parsed) Background.FALLBACK_ROOTS)).
Proof.
  apply Forall_app. split; apply Forall_fmap, Forall_forall.
  - intros letter [Hf Hne]%letter_wf. exists letter, (root parsed), (tld parsed). tauto.
  - intros fb [Hf Hne]%root_wf.
    exists (prefix parsed), (split "." fb !!! 0), (split "." fb !!! 1). tauto.
Qed.

Lemma letters_roots_NoDup :
  NoDup (((letter_url parsed) <$> Background.otherPrefixes parsed)
         ++ ((root_url parsed) <$> List.filter (root_cond parsed) Background.FALLBACK_ROOTS)).
Proof.
  destruct Hwf as [_ Hpath]. apply NoDup_app. split; [|split].
  - apply NoDup_fmap_2_strong.
    + intros x y [Hx _]%letter_wf [Hy _]%letter_wf Heq.
      by destruct (render_url_inj _ _ _ _ _ _ _ _ _ Hx Hy Hpath Heq).
    + unfold Background.otherPrefixes.
      apply NoDup_List_filter, Background_prefixes_NoDup.
  - intros u (x & -> & [Hx _]%letter_wf)%list_elem_of_fmap
             (y & Heq & [Hy Hne]%root_wf)%list_elem_of_fmap.
    destruct (render_url_inj _ _ _ _ _ _ _ _ _ Hx Hy Hpath Heq) as (_ & _ & Hr & _).
    by apply Hne.
  - apply NoDup_fmap_2_strong.
    + intros x y Hx Hy Heq.
      destruct (root_wf x Hx) as [Hfx _], (root_wf y Hy) as [Hfy _].
      destruct (render_url_inj _ _ _ _ _ _ _ _ _ Hfx Hfy Hpath Heq) as (_ & _ & Hr & _).
      apply filter_elem_of in Hx as [Hx _], Hy as [Hy _].
      by apply Background_roots_inj.
    + apply NoDup_List_filter.
      pose proof Background_roots_NoDup as Hnd. by apply NoDup_fmap_1 in Hnd.
Qed.

Lemma letters_roots_length :
  Background.MAX_ATTEMPTS
  <= length (((letter_url parsed) <$> Background.otherPrefixes parsed)
             ++ ((root_url parsed) <$> List.filter (root_cond parsed) Background.FALLBACK_ROOTS)).
Proof.
  rewrite length_app, !length_fmap.
  pose proof (filter_out_length (fun p : str => p)
                (fun p => negb (str_eqb p "k") && negb (str_eqb p (prefix parsed)))
                Background.FALLBACK_PREFIXES ["k" : str; prefix parsed]) as HL.
  pose proof (filter_out_length (fun fb : str => split "." fb !!! 0) (root_cond parsed)
                Background.FALLBACK_ROOTS [root parsed]) as HR.
  unfold Background.otherPrefixes.
  cbn [length] in HL, HR.
  assert (length Background.FALLBACK_PREFIXES = 9) as E9 by done.
  assert (length Background.FALLBACK_ROOTS = 6) as E6 by done.
  rewrite E9 in HL. rewrite E6 in HR. unfold Background.MAX_ATTEMPTS.
  enough (9 <= length (List.filter
                         (fun p => negb (str_eqb p "k") && negb (str_eqb p (prefix parsed)))
                         Background.FALLBACK_PREFIXES) + 2 /\
          6 <= length (List.filter (root_cond parsed) Background.FALLBACK_ROOTS) + 1) by lia.
  split.
  - apply HL.
    + rewrite list_fmap_id. apply Background_prefixes_NoDup.
    + intros x _ Hx. unfold str_eqb in Hx.
      apply andb_false_iff in Hx as [Hx|Hx]; apply negb_false_iff, bool_decide_eq_true in Hx;
        rewrite Hx; [left | right; left].
  - apply HR; [apply Background_roots_NoDup|].
    intros x Hin Hx.
    pose proof Background_roots_ok as Hok. rewrite forallb_forall in Hok.
    apply list_elem_of_In, Hok in Hin. unfold fallback_ok in Hin. cbv zeta in Hin.
    apply andb_true_iff in Hin as [[[Hlen _]%andb_true_iff _]%andb_true_iff _].
    unfold root_cond in Hx. rewrite Hlen in Hx. cbn [andb] in Hx.
    unfold str_eqb in Hx. apply negb_false_iff, bool_decide_eq_true in Hx.
    rewrite Hx. left.
Qed.

Lemma generateFallbackCandidates_take :
  Background.generateFallbackCandidates parsed
  = take Background.MAX_ATTEMPTS
      (((letter_url parsed) <$> Background.otherPrefixes parsed)
       ++ ((root_url parsed) <$> List.filter (root_cond parsed) Background.FALLBACK_ROOTS)).
Proof.
  unfold Background.generateFallbackCandidates, slice0, set_spread.
  destruct (Background_candidates_split parsed) as [rest ->].
  fold (letter_url parsed) (root_url parsed) (root_cond parsed).
  rewrite set_spread_from_fresh.
  - apply take_app_le, letters_roots_length.
  - apply letters_roots_NoDup.
  - intros x _. apply not_elem_of_nil.
Qed.

End FallbackCandidates.

(** X16. Whatever address of the family the element has,
    [generateFallbackCandidates] returns exactly [MAX_ATTEMPTS] URLs,
    without duplicates, none of them the address itself: each has the
    number and the path of the address, on another prefix or another
    root.  What the loop over the numbers (lines 839-845) pushes is never
    returned. *)
Theorem generateFallbackCandidates_shape (s : str) (parsed : Address) :
  parseSubdomain s = Some parsed ->
  length (Background.generateFallbackCandidates parsed) = Background.MAX_ATTEMPTS /\
  NoDup (Background.generateFallbackCandidates parsed) /\
  forall u, u ∈ Background.generateFallbackCandidates parsed ->
    u <> s /\
    exists a, parseSubdomain u = Some a /\ path a = path parsed /\
              number a = number parsed /\
              (prefix a <> prefix parsed \/ root a <> root parsed).
Proof.
  intros Hs. destruct (parse_fields s parsed Hs) as [Hwf _].
  rewrite (generateFallbackCandidates_take parsed Hwf).
  pose proof (letters_roots_length parsed) as Hlen.
  pose proof (letters_roots_NoDup parsed Hwf) as Hnd.
  pose proof (letters_roots_other parsed Hwf) as Hall.
  split; [rewrite length_take; lia|].
  split; [eapply sublist_NoDup; [exact Hnd | apply sublist_take]|].
  intros u Hu%(subseteq_take _ _ u).
  rewrite Forall_forall in Hall. destruct (Hall u Hu) as (p & r & t & Hf & -> & Hd).
  assert (parseSubdomain (render_url p (number parsed) r t (path parsed))
          = Some (mkAddress p (number parsed) r t (path parsed))) as Hparse.
  { apply parseSubdomain_render_url; [done | by destruct Hwf]. }
  split.
  - intros Heq. rewrite Heq, Hs in Hparse. injection Hparse as Hparse.
    pose proof (f_equal prefix Hparse) as E1. pose proof (f_equal root Hparse) as E2.
    cbn [prefix root] in E1, E2. destruct Hd; congruence.
  - by exists (mkAddress p (number parsed) r t (path parsed)).
Qed.

Lemma generateFallbackCandidates_shape_witness :
  length (Background.generateFallbackCandidates k03) = Background.MAX_ATTEMPTS /\
  NoDup (Background.generateFallbackCandidates k03) /\
  forall u, u ∈ Background.generateFallbackCandidates k03 ->
    u <> k03_src /\
    exists a, parseSubdomain u = Some a /\ path a = path k03 /\
              number a = number k03 /\
              (prefix a <> prefix k03 \/ root a <> root k03).
Proof. apply (generateFallbackCandidates_shape k03_src k03). reflexivity. Defined.

Lemma host_match_parsed (u : str) (a : Address) :
  parseSubdomain u = Some a -> exists base, Background.host_match u = Some base.
Proof.
  intros (g & Hg)%parse_re_host. unfold Background.host_match. rewrite Hg. by eexists.
Qed.

Lemma replace_srcset_fields (u : str) (a : Address) (img : Background.Elem) :
  parseSubdomain u = Some a ->
  exists img',
    Background.replace_srcset u img = Some img' /\
    Background.src img' = Background.src img /\
    Background.referrerPolicy img' = Background.referrerPolicy img /\
    Background.complete img' = Background.complete img /\
    Background.naturalWidth img' = Background.naturalWidth img /\
    Background.pageImg img' = Background.pageImg img /\
    Background.batoProcessed img' = Background.batoProcessed img /\
    Background.batoPreemptiveFix img' = Background.batoPreemptiveFix img /\
    Background.batoBackgroundProbing img' = Background.batoBackgroundProbing img.
Proof.
  intros [base Hb]%host_match_parsed. unfold Background.replace_srcset.
  destruct (truthy _); [|by exists img].
  rewrite Hb. cbn [mbind option_bind]. by eexists.
Qed.

Lemma preemptivelyFixImage_spec (img : Background.Elem) :
  exists img' fixed,
    Background.preemptivelyFixImage img = Some (img', fixed) /\
    fixed = Background.isProblematicKServer (Background.src img) /\
    Background.batoProcessed img' = Background.batoProcessed img /\
    Background.pageImg img' = Background.pageImg img /\
    Background.batoBackgroundProbing img' = Background.batoBackgroundProbing img /\
    (fixed = false -> img' = img) /\
    (fixed = true ->
     Background.isProblematicKServer (Background.src img') = false /\
     Background.batoPreemptiveFix img' = Some ("true" : str) /\
     Background.referrerPolicy img' = "no-referrer" /\
     exists parsed,
       parseSubdomain (Background.src img) = Some parsed /\
       parseSubdomain (Background.src img')
       = Some (mkAddress "n" (number parsed) (root parsed) (tld parsed) (path parsed))).
Proof.
  unfold Background.preemptivelyFixImage, Background.isProblematicKServer at 1.
  cbv zeta.
  destruct (parseSubdomain (Background.src img)) as [parsed|] eqn:Hp;
    [|by exists img, false].
  unfold Background.generateFixedUrl, str_eqb. case_bool_decide as Hk;
    [|by exists img, false].
  cbn [negb].
  destruct (parse_fields _ _ Hp) as [[Hf Hpath] _].
  assert (parseSubdomain (render_url "n" (number parsed) (root parsed) (tld parsed)
                            (path parsed))
          = Some (mkAddress "n" (number parsed) (root parsed) (tld parsed) (path parsed)))
    as Hn.
  { apply parseSubdomain_render_url; [|done].
    destruct Hf as (_ & _ & ? & ? & ? & ?). by repeat split. }
  destruct (replace_srcset_fields _ _
              (Background.set_src
                 (render_url "n" (number parsed) (root parsed) (tld parsed) (path parsed))
                 (Background.set_referrerPolicy "no-referrer" img)) Hn)
    as (img1 & -> & Hsrc & Hrp & _ & _ & Hpg & Hbp & _ & Hbb).
  cbn [mbind option_bind].
  exists (Background.set_batoPreemptiveFix "true" img1), true.
  cbn [Background.set_batoPreemptiveFix Background.src Background.batoPreemptiveFix
       Background.referrerPolicy Background.batoProcessed Background.pageImg
       Background.batoBackgroundProbing].
  rewrite Hsrc, Hrp, Hpg, Hbp, Hbb.
  cbn [Background.set_src Background.set_referrerPolicy Background.src
       Background.referrerPolicy Background.batoProcessed Background.pageImg
       Background.batoBackgroundProbing].
  repeat split; try done.
  - unfold Background.isProblematicKServer. by rewrite Hn.
  - by exists parsed.
Qed.

(** X17. [preemptivelyFixImage] never throws, and returns true exactly for
    a problematic [k] server.  Returning false it leaves the element as it
    is; returning true it has set the [n] address of the same number,
    root, suffix and path, which is no problematic [k] server, and has
    marked the element. *)
Theorem preemptivelyFixImage_total (img : Background.Elem) :
  exists img' fixed,
    Background.preemptivelyFixImage img = Some (img', fixed) /\
    fixed = Background.isProblematicKServer (Background.src img) /\
    (fixed = false -> img' = img) /\
    (fixed = true ->
     Background.isProblematicKServer (Background.src img') = false /\
     Background.batoPreemptiveFix img' = Some ("true" : str) /\
     Background.referrerPolicy img' = "no-referrer" /\
     exists parsed,
       parseSubdomain (Background.src img) = Some parsed /\
       parseSubdomain (Background.src img')
       = Some (mkAddress "n" (number parsed) (root parsed) (tld parsed) (path parsed))).
Proof.
  destruct (preemptivelyFixImage_spec img) as (img' & fixed & H1 & H2 & _ & _ & _ & H3 & H4).
  exists img', fixed. split; [done|]. split; [done|]. split; [exact H3 | exact H4].
Qed.

(** X18. [processImage] never throws and leaves the element marked as
    processed.  The check it schedules always comes after 3000 ms: the
    delay of 8000 ms for a problematic [k] server is never taken, the
    address having been swapped before the delay is chosen.  A background
    probe is scheduled exactly for an element of the page, not processed
    before, on a problematic [k] server. *)
Theorem processImage_check_delay (img : Background.Elem) :
  exists img' scheduled,
    Background.processImage img = Some (img', scheduled) /\
    Background.batoProcessed img' = Some ("true" : str) /\
    (forall d, (d, Background.CbCheck) ∈ scheduled -> d = 3000) /\
    (forall d, (d, Background.CbBackgroundProbe) ∈ scheduled <->
       d = 3000 /\ Background.batoProcessed img <> Some ("true" : str) /\
       Background.pageImg img = true /\
       Background.isProblematicKServer (Background.src img) = true).
Proof.
  unfold Background.processImage, is_str.
  case_bool_decide as Hproc.
  { exists img, []. split; [done|]. split; [done|]. split.
    - by intros d ?%elem_of_nil.
    - intros d. split; [by intros ?%elem_of_nil | tauto]. }
  cbv zeta. cbn [Background.pageImg Background.set_batoProcessed Background.src].
  destruct (Background.pageImg img) eqn:Hpage; cbn [negb].
  2:{ eexists _, []. split; [done|]. split; [done|]. split.
      - by intros d ?%elem_of_nil.
      - intros d. split; [by intros ?%elem_of_nil | by intros (_ & _ & ? & _)]. }
  destruct (Background.isProblematicKServer (Background.src img)) eqn:Hk.
  - destruct (preemptivelyFixImage_spec (Background.set_batoProcessed "true" img))
      as (img' & fixed & -> & Hfixed & Hbp & _ & _ & _ & Htrue).
    cbn [Background.src Background.set_batoProcessed] in Hfixed. rewrite Hk in Hfixed.
    subst fixed. destruct (Htrue eq_refl) as (Hnk & _).
    cbn [mbind option_bind]. rewrite Hnk.
    eexists _, _. split; [done|]. split; [by rewrite Hbp|]. split.
    + intros d [[=]|[[= ->]|[]%elem_of_nil]%elem_of_cons]%elem_of_cons. done.
    + intros d. split.
      * intros [[= ->]|[[=]|[]%elem_of_nil]%elem_of_cons]%elem_of_cons. done.
      * intros (-> & _). left.
  - cbn [mbind option_bind Background.src Background.set_batoProcessed]. rewrite Hk.
    eexists _, _. split; [done|]. split; [done|]. split.
    + intros d [[= ->]|[]%elem_of_nil]%elem_of_cons. done.
    + intros d. split; [|by intros (_ & _ & _ & ?)].
      intros [[=]|[]%elem_of_nil]%elem_of_cons.
Qed.

(** *** backgroundProbeImage *)

Lemma fallback_candidate_parses (parsed : Address) (u : str) :
  wf_address parsed -> u ∈ Background.generateFallbackCandidates parsed ->
  exists a, parseSubdomain u = Some a.
Proof.
  intros Hwf. rewrite (generateFallbackCandidates_take parsed Hwf).
  intros Hu%(subseteq_take _ _ u).
  pose proof (letters_roots_other parsed Hwf) as Hall. rewrite Forall_forall in Hall.
  destruct (Hall u Hu) as (p & r & t & Hf & -> & _).
  eexists. apply parseSubdomain_render_url; [done | by destruct Hwf].
Qed.

Lemma fallback_candidates_length (parsed : Address) :
  length (Background.generateFallbackCandidates parsed) <= Background.MAX_ATTEMPTS.
Proof.
  unfold Background.generateFallbackCandidates, slice0. rewrite length_take. lia.
Qed.

Ltac bg_simpl :=
  cbn [bg_state Background.elem Background.probes Background.cache_keys Background.q_url
       Background.quickProbe Background.set_batoBackgroundProbing
       Background.batoBackgroundProbing Background.src Background.referrerPolicy].

Lemma bg_state_more s0 seen more r : bg_state s0 seen r -> bg_state s0 (seen ++ more) r.
Proof.
  destruct r as [s [|[|parsed cands i p|parsed cands i]]]; try (intros H; exact H).
  intros (Hd & Hl & [Hs|(parsed & width & height & H1 & H2 & H3 & H4 & H5 & H6)]).
  - split; [done|]. split; [done|]. by left.
  - split; [done|]. split; [done|]. right. exists parsed, width, height.
    repeat split; try done; try tauto. apply elem_of_app. by left.
Qed.

Section BgFacts.

Variable s0 : Background.BgState.
Variable seen : list Background.BgInput.

Lemma bg_loop_state parsed cands i s :
  parseSubdomain (Background.src (Background.elem s0)) = Some parsed ->
  cands = Background.generateFallbackCandidates parsed ->
  Background.src (Background.elem s) = Background.src (Background.elem s0) ->
  Background.batoBackgroundProbing (Background.elem s) = Some ("true" : str) ->
  i <= length cands ->
  length (Background.probes s) <= length (Background.probes s0) + i ->
  bg_state s0 seen (Background.bg_loop parsed cands i s).
Proof.
  intros Hp Hc Hsrc Hflag Hi Hn. unfold Background.bg_loop.
  destruct (cands !! i) as [u|] eqn:Hu.
  - bg_simpl. rewrite length_app. cbn [length]. repeat split; try done. lia.
  - bg_simpl. split; [done|]. split; [|by left].
    pose proof (fallback_candidates_length parsed) as Hlen. rewrite <- Hc in Hlen.
    apply lookup_ge_None in Hu. lia.
Qed.

Lemma bg_next_state parsed cands i s :
  parseSubdomain (Background.src (Background.elem s0)) = Some parsed ->
  cands = Background.generateFallbackCandidates parsed ->
  Background.src (Background.elem s) = Background.src (Background.elem s0) ->
  Background.batoBackgroundProbing (Background.elem s) = Some ("true" : str) ->
  i < length cands ->
  length (Background.probes s) <= length (Background.probes s0) + i + 1 ->
  bg_state s0 seen (Background.bg_next parsed cands i s).
Proof.
  intros Hp Hc Hsrc Hflag Hi Hn. unfold Background.bg_next.
  destruct (i <? length cands - 1) eqn:Hlt.
  - apply Nat.ltb_lt in Hlt. bg_simpl. repeat split; try done. lia.
  - apply bg_loop_state; try done; lia.
Qed.

Lemma bg_resume_state ev t s :
  bg_state s0 seen (s, Background.BgAwait t) ->
  bg_state s0 (seen ++ [Background.Resume ev]) (Background.bg_resume ev t s).
Proof.
  intros Hst.
  destruct t as [|parsed cands i p|parsed cands i].
  - destruct Hst as ((Hsrc & Hflag) & Hpr).
    destruct ev as [|pev]; [|by apply bg_state_more].
    cbn [Background.bg_resume]. cbv zeta.
    destruct (_ && _).
    { bg_simpl. rewrite Hpr. split; [done|]. split; [lia | by left]. }
    destruct (parseSubdomain (Background.src (Background.elem s))) as [parsed|] eqn:Hp.
    2:{ bg_simpl. rewrite Hpr. split; [done|]. split; [lia | by left]. }
    apply bg_state_more. rewrite Hsrc in Hp.
    apply bg_loop_state; try done; [lia | rewrite Hpr; lia].
  - destruct Hst as ((Hsrc & Hflag) & (Hp & Hc) & Hi & Hn).
    destruct ev as [|pev]; [by apply bg_state_more|].
    pose proof (lookup_lt_Some _ _ _ Hi) as Hlt.
    cbn [Background.bg_resume].
    destruct pev as [|width height|]; cbn [Background.quick_event].
    + destruct (Background.q_timerCleared p); [by apply bg_state_more|].
      apply bg_state_more. by apply bg_next_state.
    + destruct (Background.q_timedOut p); [by apply bg_state_more|]. cbv zeta.
      destruct ((1 <? width) && (1 <? height)) eqn:Hdim.
      2:{ apply bg_state_more. by apply bg_next_state. }
      apply andb_true_iff in Hdim as [Hw%Nat.ltb_lt Hh%Nat.ltb_lt].
      assert (Background.q_url p ∈ cands) as Hin by (by eapply list_elem_of_lookup_2).
      destruct (parse_fields _ _ Hp) as [Hwf _].
      destruct (fallback_candidate_parses parsed (Background.q_url p) Hwf) as [a Ha];
        [by rewrite <- Hc|].
      destruct (replace_srcset_fields (Background.q_url p) a
                  (Background.set_src (Background.q_url p)
                     (Background.set_referrerPolicy "no-referrer" (Background.elem s))) Ha)
        as (img' & -> & Hs' & Hr' & _).
      cbn [bg_state Background.elem Background.probes Background.cache_keys
           Background.set_batoBackgroundProbing Background.batoBackgroundProbing
           Background.src Background.referrerPolicy].
      rewrite Hs', Hr'.
      cbn [Background.set_src Background.set_referrerPolicy Background.src
           Background.referrerPolicy].
      split; [done|]. split.
      { pose proof (fallback_candidates_length parsed) as Hlen. rewrite <- Hc in Hlen. lia. }
      right. exists parsed, width, height. repeat split; try done.
      * by rewrite <- Hc.
      * apply elem_of_union_l, elem_of_singleton. done.
      * apply elem_of_app. right. left.
    + destruct (Background.q_timedOut p); [by apply bg_state_more|].
      apply bg_state_more. by apply bg_next_state.
  - destruct Hst as ((Hsrc & Hflag) & (Hp & Hc) & Hi & Hn).
    destruct ev as [|pev]; [|by apply bg_state_more].
    cbn [Background.bg_resume]. apply bg_state_more.
    apply bg_loop_state; try done; lia.
Qed.

End BgFacts.

Lemma bg_run_state s0 seen ins r :
  bg_state s0 seen r -> bg_state s0 (seen ++ ins) (Background.bg_run ins r).
Proof.
  revert seen r. induction ins as [|x ins IH]; intros seen [s st] Hr.
  - by rewrite app_nil_r.
  - destruct st as [|t]; [destruct x; by apply bg_state_more|].
    replace (seen ++ x :: ins) with ((seen ++ [x]) ++ ins) by (by rewrite <- app_assoc).
    destruct x as [ev|c nw]; cbn [Background.bg_run]; apply IH.
    + by apply bg_resume_state.
    + apply bg_state_more.
      destruct t as [|parsed cands i p|parsed cands i]; exact Hr.
Qed.

(** X19. A call of [backgroundProbeImage] for an element that is not being
    probed, followed through whatever resumes it: it starts at most
    [MAX_ATTEMPTS] probes; and when it has returned, the element is marked
    ["done"], and its address is as it was, or it is one of the fallback
    candidates of that address, set after a probe of it loaded with both
    dimensions above 1, the referrer policy and the cache being set with
    it. *)
Theorem backgroundProbeImage_pass (ins : list Background.BgInput)
    (s : Background.BgState) :
  Background.batoBackgroundProbing (Background.elem s) <> Some ("true" : str) ->
  let r := Background.bg_run ins (Background.backgroundProbeImage s) in
  length (Background.probes r.1) <= length (Background.probes s) + Background.MAX_ATTEMPTS /\
  (r.2 = Background.BgReturn ->
   Background.batoBackgroundProbing (Background.elem r.1) = Some ("done" : str) /\
   (Background.src (Background.elem r.1) = Background.src (Background.elem s) \/
    exists parsed width height,
      parseSubdomain (Background.src (Background.elem s)) = Some parsed /\
      Background.src (Background.elem r.1) ∈ Background.generateFallbackCandidates parsed /\
      Background.referrerPolicy (Background.elem r.1) = "no-referrer" /\
      prefix parsed ++ "-" ++ root parsed ∈ Background.cache_keys r.1 /\
      Background.Resume (Background.OnProbe (Loaded width height)) ∈ ins /\
      1 < width /\ 1 < height)).
Proof.
  intros Hflag r.
  assert (bg_state s [] (Background.backgroundProbeImage s)) as H0.
  { unfold Background.backgroundProbeImage, is_str.
    rewrite bool_decide_eq_false_2 by done. by bg_simpl. }
  apply (bg_run_state s [] ins) in H0. fold r in H0. cbn [app] in H0.
  destruct r as [s' [|t]]; cbn [fst snd].
  - destruct H0 as (Hd & Hl & Hs). split; [done|]. intros _. by split.
  - split; [|done].
    destruct t as [|parsed cands i p|parsed cands i].
    + destruct H0 as (_ & ->). lia.
    + destruct H0 as (_ & (_ & Hc) & Hi%lookup_lt_Some & Hn).
      pose proof (fallback_candidates_length parsed) as Hlen. rewrite <- Hc in Hlen. lia.
    + destruct H0 as (_ & (_ & Hc) & Hi & Hn).
      pose proof (fallback_candidates_length parsed) as Hlen. rewrite <- Hc in Hlen. lia.
Qed.

Lemma backgroundProbeImage_pass_witness :
  length (Background.probes
            (Background.bg_run bg_inputs (Background.backgroundProbeImage bg0)).1)
  <= length (Background.probes bg0) + Background.MAX_ATTEMPTS.
Proof.
  refine (proj1 (backgroundProbeImage_pass bg_inputs bg0 _)).
  vm_compute. discriminate.
Defined.

(** ** The success cache holds [k] and [n] hosts only *)

Lemma span_letter_digit (p : str) (d : ascii) (rest : str) :
  forallb is_letter p = true -> is_digit d = true ->
  span is_letter (p ++ d :: rest) = (p, d :: rest).
Proof.
  intros Hp Hd. induction p as [|c p IH]; cbn [app span].
  - by rewrite (digit_not_letter d Hd).
  - cbn [forallb] in Hp. apply andb_true_iff in Hp as [-> Hp]. by rewrite (IH Hp).
Qed.

Lemma re_host_prefix lo hi (p : str) (d : ascii) (rest : str) g1 g2 g3 g4 s9 :
  forallb is_letter p = true -> is_digit d = true ->
  re_host lo hi ("https://" ++ p ++ d :: rest) = Some (g1, g2, g3, g4, s9) -> g1 = p.
Proof.
  intros Hp Hd. unfold re_host.
  change (strip_ci "http" ("https://" ++ p ++ d :: rest)) with (Some ("s://" ++ p ++ d :: rest)).
  cbn [mbind option_bind].
  change (strip_ci "s" ("s://" ++ p ++ d :: rest)) with (Some ("://" ++ p ++ d :: rest)).
  cbn [default from_option id].
  change (strip_ci "://" ("://" ++ p ++ d :: rest)) with (Some (p ++ d :: rest)).
  cbn [mbind option_bind].
  rewrite span_letter_digit by done.
  case_bool_decide; [done|].
  destruct (span is_digit (d :: rest)) as [x2 s5]. destruct (negb _); [done|].
  destruct (strip_ci "." s5) as [s6|]; [|done]. cbn [mbind option_bind].
  destruct (span is_root_char s6) as [x3 s7]. case_bool_decide; [done|].
  destruct (strip_ci "." s7) as [s8|]; [|done]. cbn [mbind option_bind].
  destruct (strip_alt TLDS s8) as [[x4 x9]|]; [|done]. cbn [mbind option_bind].
  by intros [= -> _ _ _ _].
Qed.

Lemma parse_prefix (s : str) (a : Address) :
  parseSubdomain s = Some a ->
  exists g1 g2 g3 g4 s9,
    re_host 1 3 s = Some (g1, g2, g3, g4, s9) /\ prefix a = toLowerCase g1.
Proof.
  unfold parseSubdomain, SUBDOMAIN_RE, re_exec.
  destruct (re_host 1 3 s) as [[[[[g1 g2] g3] g4] s9]|]; [|done]. cbn [mbind option_bind].
  destruct s9 as [|c rest]; [done|].
  destruct (bool_decide (c = "/"%char)) eqn:Hc.
  2:{ apply bool_decide_eq_false in Hc. intros H. exfalso. revert H Hc. clear. ascii_cases c. }
  apply bool_decide_eq_true in Hc as ->.
  destruct (forallb is_dot_char rest); [|done]. intros [= <-]. by eexists _, _, _, _, _.
Qed.

Lemma k_or_n_prefix (pth u : str) (sp : Address) :
  k_or_n_url pth u -> parseSubdomain u = Some sp -> prefix sp = "k" \/ prefix sp = "n".
Proof.
  intros (p & n & r & t & d & rest & Hp & _ & Hd & ->)
         (g1 & g2 & g3 & g4 & s9 & Hg & ->)%parse_prefix.
  apply re_host_prefix in Hg as ->; [|by destruct Hp as [-> | ->]|done].
  by destruct Hp as [-> | ->]; [left | right].
Qed.

Section CacheFacts.

Variable generateCandidates : gmap str CacheEntry -> Address -> list str.
Variable probe_timeout : nat -> nat.
Variable abort_after : nat.
Variable good : str -> Prop.
Variable entry_ok : CacheEntry -> Prop.

Hypothesis generated_good :
  forall cache parsed u, u ∈ generateCandidates cache parsed -> good u.
Hypothesis good_entry :
  forall u sp, good u -> parseSubdomain u = Some sp ->
    entry_ok (mkCacheEntry (prefix sp) (number sp) (root sp) (tld sp)).

Local Abbreviation fix_loop_ := (fix_loop probe_timeout abort_after).
Local Abbreviation fixImage_ := (fixImage generateCandidates probe_timeout abort_after).
Local Abbreviation deliver_ := (deliver probe_timeout abort_after).
Local Abbreviation resume_ := (resume probe_timeout abort_after).
Local Abbreviation retry_callback_ :=
  (retry_callback generateCandidates probe_timeout abort_after).
Local Abbreviation sys_step_ := (sys_step generateCandidates probe_timeout abort_after).
Local Abbreviation sys_run_ := (sys_run generateCandidates probe_timeout abort_after).

Lemma fail_pass_ok id isRetry how le img w :
  cache_ok entry_ok w -> step_ok good entry_ok (fail_pass id isRetry how le img w).
Proof. intros Hw. unfold fail_pass. by destruct (negb isRetry && _). Qed.

Lemma succeed_ok id parsed u img w :
  cache_ok entry_ok w -> good u -> step_ok good entry_ok (succeed id parsed u img w).
Proof.
  intros Hw Hu. unfold succeed, step_ok. cbn [fst snd]. split; [|done].
  unfold cache_ok. cbn [serverCache set_processingImages].
  destruct (parseSubdomain u) as [sp|] eqn:Hp; [|done].
  cbn [serverCache set_serverCache]. apply map_Forall_insert_2; [|done].
  by apply (good_entry u).
Qed.

Lemma fix_loop_ok id isRetry parsed cands rest i le img w :
  cache_ok entry_ok w -> Forall good cands -> Forall good rest ->
  step_ok good entry_ok (fix_loop_ id isRetry parsed cands rest i le img w).
Proof.
  intros Hw Hc. revert i le. induction rest as [|u rest IH]; intros i le Hr; cbn [fix_loop].
  - by apply fail_pass_ok.
  - apply Forall_cons in Hr as [Hu Hr]. cbv zeta.
    case_bool_decide as Hf; [by apply IH|].
    unfold probeUrl. rewrite (bool_decide_eq_false_2 _ Hf).
    by split.
Qed.

Lemma fixImage_ok id isRetry img w :
  cache_ok entry_ok w -> step_ok good entry_ok (fixImage_ id isRetry img w).
Proof.
  intros Hw. unfold fixImage.
  case_bool_decide; [done|]. destruct (_ || _); [done|]. cbv zeta.
  cbn [src set_batoFixing serverCache set_processingImages].
  destruct (parseSubdomain (src img)) as [parsed|]; [|done].
  assert (Forall good (generateCandidates (serverCache w) parsed)) as Hg.
  { apply Forall_forall. intros u. apply generated_good. }
  by apply fix_loop_ok.
Qed.

Lemma deliver_ok ev t img w :
  cache_ok entry_ok w -> task_ok good t ->
  step_ok good entry_ok (deliver_ ev t img w).
Proof.
  intros Hw [Hu Hc]. unfold deliver.
  assert (forall s w1, serverCache w1 = serverCache w ->
            step_ok good entry_ok (resume_ t s img w1)) as Hres.
  { intros s w1 Hw1.
    assert (cache_ok entry_ok w1) as Hok by (unfold cache_ok; by rewrite Hw1).
    destruct s as [|e]; cbn [resume]; [by apply succeed_ok|].
    destruct (catch_error abort_after (t_i t) e); [by apply fail_pass_ok|].
    apply fix_loop_ok; [done | done | by apply Forall_drop]. }
  destruct ev as [|width height|]; cbn [probe_event].
  - destruct (timerCleared (t_probe t)); [done | by apply Hres].
  - destruct (timedOut (t_probe t)); [done|]. cbv zeta.
    destruct (_ || _); by apply Hres.
  - destruct (timedOut (t_probe t)); [done | by apply Hres].
Qed.

Lemma commit_ok id r s others :
  step_ok good entry_ok r -> (forall t, t ∈ others -> task_ok good t) ->
  sys_cache_inv good entry_ok (commit id r s others).
Proof.
  destruct r as [[img w] st]. intros [Hw Hst] Ho. unfold commit. split; [done|].
  cbn [tasks]. destruct st as [e|t]; [done|].
  intros t' [Ht' | ->%list_elem_of_singleton]%elem_of_app; [by apply Ho | done].
Qed.

Lemma sys_step_cache_inv e s :
  sys_cache_inv good entry_ok s -> sys_cache_inv good entry_ok (sys_step_ e s).
Proof.
  intros [Hw Ht]. destruct e as [id isRetry|id ev|k|id f]; cbn [sys_step].
  - destruct (imgs s !! id) as [img|]; [|done].
    apply commit_ok; [by apply fixImage_ok | done].
  - destruct (list_find _ (tasks s)) as [[k t]|] eqn:Hfind; [|done].
    destruct (imgs s !! id) as [img|]; [|done].
    apply list_find_Some in Hfind as (Hk & _).
    apply commit_ok.
    + apply deliver_ok; [done|]. apply Ht. by eapply list_elem_of_lookup_2.
    + intros t' Ht'. apply Ht. by eapply list_elem_of_delete_inv.
  - destruct (timers (world s) !! k) as [id|]; [|done]. cbv zeta.
    destruct (imgs s !! id) as [img|]; [|done].
    apply commit_ok; [|done]. unfold retry_callback.
    destruct (complete img && _); [by apply fixImage_ok | done].
  - done.
Qed.

Lemma sys_run_cache_inv events dom : sys_cache_inv good entry_ok (sys_run_ events dom).
Proof.
  unfold sys_run.
  assert (sys_cache_inv good entry_ok (mkSys initial_world dom [])) as H0.
  { split; [apply map_Forall_empty | by intros t ?%elem_of_nil]. }
  revert H0. generalize (mkSys initial_world dom []).
  induction events as [|e events IH]; intros s Hs; [done|].
  cbn [foldl]. by apply IH, sys_step_cache_inv.
Qed.

End CacheFacts.

Lemma Strict_generated_k_or_n cache parsed u :
  u ∈ Strict.generateCandidates cache parsed -> exists pth, k_or_n_url pth u.
Proof.
  intros Hu.
  destruct (finish_candidates_spec Strict.MAX_ATTEMPTS (Strict.candidates cache parsed))
    as (_ & _ & Hin & _).
  destruct (Hin u Hu) as (c & Hc & <-).
  pose proof (Strict_candidates_k_or_n cache parsed) as Hall.
  rewrite Forall_forall in Hall. exists (path parsed). by apply Hall.
Qed.

(** X20. In the revision of lines 1-364, whatever happens on the page from
    the load of the script on, every entry of the success cache has the
    prefix [k] or [n].  The guard of line 244 therefore never changes a
    prefix: with it and without it [preemptiveFix] does the same to every
    element. *)
Theorem Strict_cache_k_or_n (events : list Event) (dom : gmap ImgId Img) :
  map_Forall (fun _ c => c_prefix c = "k" \/ c_prefix c = "n")
    (serverCache (world (Strict.sys_run events dom))) /\
  forall img,
    preemptiveFix true img (world (Strict.sys_run events dom))
    = preemptiveFix false img (world (Strict.sys_run events dom)).
Proof.
  assert (cache_ok k_or_n_entry (world (Strict.sys_run events dom))) as Hok.
  { apply (sys_run_cache_inv Strict.generateCandidates (fun _ => Strict.PROBE_TIMEOUT) 6
             (fun u => exists pth, k_or_n_url pth u) k_or_n_entry).
    - apply Strict_generated_k_or_n.
    - intros u sp [pth Hu] Hp. by apply (k_or_n_prefix pth u). }
  split; [exact Hok|].
  intros img. unfold preemptiveFix.
  destruct (parseSubdomain (src img)) as [parsed|]; [|done].
  destruct (negb _); [done|].
  destruct (serverCache _ !! group_key parsed) as [cached|] eqn:Hc; [|done].
  apply Hok in Hc. unfold k_or_n_entry in Hc. cbv beta in Hc.
  unfold str_eqb. by destruct Hc as [-> | ->].
Qed.

(** ** The fast path does not repeat *)

(** X21. In both revisions with a fast path, for an element on a [k]
    address whose group has no entry in the success cache: [preemptiveFix]
    returns true and sets the [n] address of the same number, root, suffix
    and path; called again on the element it returns false and changes
    nothing. *)
Theorem preemptiveFix_settles (strict_guard : bool) (img : Img) (w : World) (a : Address) :
  parseSubdomain (src img) = Some a -> prefix a = "k" ->
  serverCache w !! group_key a = None ->
  exists img',
    preemptiveFix strict_guard img w = (img', true) /\
    parseSubdomain (src img')
    = Some (mkAddress "n" (number a) (root a) (tld a) (path a)) /\
    preemptiveFix strict_guard img' w = (img', false).
Proof.
  intros Ha Hk Hc.
  destruct (parse_fields _ _ Ha) as [[Hf Hpath] _].
  assert (parseSubdomain (render_url "n" (number a) (root a) (tld a) (path a))
          = Some (mkAddress "n" (number a) (root a) (tld a) (path a))) as Hn.
  { apply parseSubdomain_render_url; [|done].
    destruct Hf as (_ & _ & ? & ? & ? & ?). by repeat split. }
  exists (apply_swap (render_url "n" (number a) (root a) (tld a) (path a)) img).
  destruct (apply_swap_fields (render_url "n" (number a) (root a) (tld a) (path a)) img)
    as [Hsrc _].
  split; [|split].
  - unfold preemptiveFix. rewrite Ha, Hk, Hc. unfold str_eqb.
    rewrite (bool_decide_eq_true_2 (("k" : str) = "k")) by done.
    rewrite (bool_decide_eq_false_2 (("n" : str) = "k")) by done.
    rewrite (bool_decide_eq_true_2 (("n" : str) = "n")) by done.
    cbn [negb andb]. by rewrite andb_false_r.
  - by rewrite Hsrc.
  - unfold preemptiveFix. rewrite Hsrc, Hn. cbn [prefix]. unfold str_eqb.
    by rewrite (bool_decide_eq_false_2 (("n" : str) = "k")) by done.
Qed.

Lemma preemptiveFix_settles_witness :
  exists img',
    preemptiveFix true img0 initial_world = (img', true) /\
    parseSubdomain (src img')
    = Some (mkAddress "n" (number k03) (root k03) (tld k03) (path k03)) /\
    preemptiveFix true img' initial_world = (img', false).
Proof.
  apply (preemptiveFix_settles true img0 initial_world k03).
  - reflexivity.
  - reflexivity.
  - reflexivity.
Defined.
